(** * Verification of [deep_learning.py]

    A shallow embedding of the tensor utilities, layers, losses and
    optimizers of [deep_learning.py], and the properties proved of them.

    Modelling conventions.
    - Python numbers ([int] and [float]) are real numbers; a tensor is a
      nested Python list of numbers.  Values are dynamically typed, so the
      embedding keeps a universal [value] type and every operation checks
      its operands as Python does, raising the exception Python raises.
      (Sequence repetition [list * int] needs the int/float distinction and
      is rendered as a [TypeError].)
    - [math.exp] raises [OverflowError] above the largest argument whose
      exponential is a finite double; [math.log] raises [ValueError] on
      non-positive arguments.
    - A computation is a function of the [world]: the heap of the list
      objects that are mutated in place (parameters and velocities), and
      the stream of draws of [random.random()].
    - Exceptions abort the computation: a computation returns [Raise e] or
      [Ok (result, world')]. *)

From Stdlib Require Import Reals Lra Lia List String.
From stdpp Require Import base gmap list.
Import ListNotations.
Set Warnings "-register-all".

(** ** Values, exceptions, computations *)

Inductive value : Type :=
| VNum (x : R)
| VList (l : list value)
| VNone.

Inductive exn : Type :=
| IndexError
| TypeError
| ValueError
| ZeroDivisionError
| OverflowError
| AttributeError
| RuntimeError
| NotImplementedError.

Inductive result (A : Type) : Type :=
| Ok (a : A)
| Raise (e : exn).
Arguments Ok {A} a.
Arguments Raise {A} e.

(** The list objects that the program mutates in place live in a heap,
    addressed by natural numbers. *)
Record world : Type := World {
  heap : gmap nat value;   (* contents of the mutable list objects *)
  next_loc : nat;          (* next unused address *)
  rng : nat -> R           (* the draws random.random() will return *)
}.

Definition M (A : Type) : Type := world -> result (A * world).

Definition ret {A} (a : A) : M A := fun w => Ok (a, w).

Definition raise {A} (e : exn) : M A := fun _ => Raise e.

Definition bind {A B} (m : M A) (k : A -> M B) : M B :=
  fun w => match m w with
           | Ok (a, w') => k a w'
           | Raise e => Raise e
           end.

Notation "x <- m ;; k" := (bind m (fun x => k))
  (at level 100, m at next level, right associativity).

Definition lift {A} (r : result A) : M A :=
  fun w => match r with Ok a => Ok (a, w) | Raise e => Raise e end.

(** A list comprehension [[f x for x in l]]: evaluation in list order,
    stopping at the first exception. *)
Definition mapM {A B} (f : A -> M B) : list A -> M (list B) :=
  fix go l :=
    match l with
    | [] => ret []
    | x :: l' => y <- f x ;; ys <- go l' ;; ret (y :: ys)
    end.

(** [[g x y for x, y in zip(l1, l2)]]: [zip] stops at the end of the
    shorter list. *)
Definition zipM {A B C} (g : A -> B -> M C) : list A -> list B -> M (list C) :=
  fix go l1 l2 :=
    match l1, l2 with
    | x :: l1', y :: l2' => z <- g x y ;; zs <- go l1' l2' ;; ret (z :: zs)
    | _, _ => ret []
    end.

(** [range(n)] for a Python int [n]: empty when [n <= 0]. *)
Definition range (n : Z) : list nat := seq 0 (Z.to_nat n).

(** ** Python operators on values *)

Definition is_list (v : value) : bool :=
  match v with VList _ => true | _ => false end.

Definition py_add (a b : value) : M value :=
  match a, b with
  | VNum x, VNum y => ret (VNum (x + y))
  | VList l1, VList l2 => ret (VList (l1 ++ l2))
  | _, _ => raise TypeError
  end.

Definition py_sub (a b : value) : M value :=
  match a, b with
  | VNum x, VNum y => ret (VNum (x - y))
  | _, _ => raise TypeError
  end.

Definition py_mul (a b : value) : M value :=
  match a, b with
  | VNum x, VNum y => ret (VNum (x * y))
  | _, _ => raise TypeError
  end.

Definition py_div (a b : value) : M value :=
  match a, b with
  | VNum x, VNum y =>
      if Req_dec_T y 0 then raise ZeroDivisionError else ret (VNum (x / y))
  | _, _ => raise TypeError
  end.

Definition py_neg (a : value) : M value :=
  match a with
  | VNum x => ret (VNum (- x))
  | _ => raise TypeError
  end.

(** [a ** n] for a literal natural exponent. *)
Definition py_pow (a : value) (n : nat) : M value :=
  match a with
  | VNum x => ret (VNum (x ^ n))
  | _ => raise TypeError
  end.

(** [a < b] on numbers (the program never compares lists with [<]). *)
Definition py_lt (a b : value) : M bool :=
  match a, b with
  | VNum x, VNum y => ret (if Rlt_dec x y then true else false)
  | _, _ => raise TypeError
  end.

Definition py_gt (a b : value) : M bool := py_lt b a.

(** [v[i]] *)
Definition py_index (v : value) (i : nat) : M value :=
  match v with
  | VList l => match l !! i with
               | Some x => ret x
               | None => raise IndexError
               end
  | _ => raise TypeError
  end.

(** Iterating over [v] ([zip(..., v)], [for x in v]). *)
Definition py_iter (v : value) : M (list value) :=
  match v with
  | VList l => ret l
  | _ => raise TypeError
  end.

(** [sum(l)]: starts from [0] and adds the items from the left. *)
Fixpoint py_sum_from (acc : value) (l : list value) : M value :=
  match l with
  | [] => ret acc
  | x :: l' => acc' <- py_add acc x ;; py_sum_from acc' l'
  end.

Definition py_sum (l : list value) : M value := py_sum_from (VNum 0) l.

(** [sum(g(x) for x in l)]: the generator is consumed item by item, each
    item being added as soon as it is produced. *)
Definition py_sum_gen (g : value -> M value) : value -> list value -> M value :=
  fix go acc l :=
    match l with
    | [] => ret acc
    | x :: l' => s <- g x ;; acc' <- py_add acc s ;; go acc' l'
    end.

(** ** Tensor utilities *)

(** [shape]: the lengths met while descending through the first elements. *)
Fixpoint shape (tensor : value) : M (list nat) :=
  match tensor with
  | VList l =>
      match l with
      | [] => raise IndexError
      | x :: _ => sizes <- shape x ;; ret (length l :: sizes)
      end
  | _ => ret []
  end.

Definition is_1d (tensor : value) : M bool :=
  x <- py_index tensor 0 ;; ret (negb (is_list x)).

Fixpoint tensor_sum (tensor : value) : M value :=
  match tensor with
  | VList l =>
      match l with
      | [] => raise IndexError
      | VList _ :: _ => py_sum_gen tensor_sum (VNum 0) l
      | _ :: _ => py_sum l
      end
  | _ => raise TypeError
  end.

Fixpoint tensor_apply (f : value -> M value) (tensor : value) : M value :=
  match tensor with
  | VList l =>
      match l with
      | [] => raise IndexError
      | VList _ :: _ => r <- mapM (tensor_apply f) l ;; ret (VList r)
      | _ :: _ => r <- mapM f l ;; ret (VList r)
      end
  | _ => raise TypeError
  end.

Definition zero_like (tensor : value) : M value :=
  tensor_apply (fun _ => ret (VNum 0)) tensor.

(** [tensor_combine]: [zip] stops at the end of the shorter operand. *)
Fixpoint tensor_combine (f : value -> value -> M value) (t1 t2 : value)
  : M value :=
  match t1 with
  | VList l1 =>
      match l1 with
      | [] => raise IndexError
      | VList _ :: _ =>
          l2 <- py_iter t2 ;;
          r <- zipM (tensor_combine f) l1 l2 ;;
          ret (VList r)
      | _ :: _ =>
          l2 <- py_iter t2 ;;
          r <- zipM f l1 l2 ;;
          ret (VList r)
      end
  | _ => raise TypeError
  end.

(** ** The heap and the random stream *)

(** An address the heap does not hold cannot arise from the constructors
    of the program; reading one is rendered as an [AttributeError]. *)
Definition load (l : nat) : M value :=
  fun w => match heap w !! l with
           | Some v => Ok (v, w)
           | None => Raise AttributeError
           end.

(** [obj[:] = v]: the object keeps its identity and changes its contents. *)
Definition store (l : nat) (v : value) : M unit :=
  fun w => Ok (tt, World (<[l := v]> (heap w)) (next_loc w) (rng w)).

(** A new list object. *)
Definition alloc (v : value) : M nat :=
  fun w => Ok (next_loc w,
               World (<[next_loc w := v]> (heap w)) (S (next_loc w)) (rng w)).

(** [random.random()] *)
Definition random_random : M value :=
  fun w => Ok (VNum (rng w 0%nat),
               World (heap w) (next_loc w) (fun n => rng w (S n))).

(** Reading an attribute that may not have been set yet. *)
Definition attr (o : option value) : M value :=
  match o with
  | Some v => ret v
  | None => raise AttributeError
  end.

(** ** [math] and builtins *)

Local Open Scope R_scope.

(** The largest argument on which [math.exp] returns a finite double. *)
Definition exp_max : R := 709.782712893384.

Definition math_exp (v : value) : M value :=
  match v with
  | VNum x => if Rlt_dec exp_max x then raise OverflowError
              else ret (VNum (exp x))
  | _ => raise TypeError
  end.

Definition math_log (v : value) : M value :=
  match v with
  | VNum x => if Rle_dec x 0 then raise ValueError else ret (VNum (ln x))
  | _ => raise TypeError
  end.

(** [max(l)] keeps the first of the largest items: an item replaces the
    current maximum only when it is strictly greater. *)
Fixpoint py_max_from (cur : value) (l : list value) : M value :=
  match l with
  | [] => ret cur
  | x :: l' =>
      c <- py_gt x cur ;;
      py_max_from (if c then x else cur) l'
  end.

Definition py_max (l : list value) : M value :=
  match l with
  | [] => raise ValueError
  | x :: l' => py_max_from x l'
  end.

(** ** Random initializers *)

Section Program.

(** Helpers the file imports from sibling modules whose source is not at
    hand: [probability.inverse_normal_cdf], [neural_networks.sigmoid] and
    [vector_operations.dot]. *)
Variable inverse_normal_cdf : R -> R.
Variable sigmoid : value -> M value.
Variable dot : value -> value -> M value.

Fixpoint random_uniform (dims : list Z) : M value :=
  match dims with
  | [] => raise IndexError
  | d :: ds =>
      match ds with
      | [] => r <- mapM (fun _ => random_random) (range d) ;; ret (VList r)
      | _ :: _ =>
          r <- mapM (fun _ => random_uniform ds) (range d) ;; ret (VList r)
      end
  end.

Definition normal_leaf (mean variance : R) : M value :=
  u <- random_random ;;
  match u with
  | VNum p => ret (VNum (mean + variance * inverse_normal_cdf p))
  | _ => raise TypeError
  end.

Fixpoint random_normal (dims : list Z) (mean variance : R) : M value :=
  match dims with
  | [] => raise IndexError
  | d :: ds =>
      match ds with
      | [] =>
          r <- mapM (fun _ => normal_leaf mean variance) (range d) ;;
          ret (VList r)
      | _ :: _ =>
          r <- mapM (fun _ => random_normal ds mean variance) (range d) ;;
          ret (VList r)
      end
  end.

Definition sum_dims (dims : list Z) : Z := fold_left Z.add dims 0%Z.

Definition random_tensor (dims : list Z) (init : string) : M value :=
  if String.eqb init "normal"%string then random_normal dims 0 1
  else if String.eqb init "uniform"%string then random_uniform dims
  else if String.eqb init "xavier"%string then
    if Z.eqb (sum_dims dims) 0 then raise ZeroDivisionError
    else
      let variance := IZR (Z.of_nat (length dims)) / IZR (sum_dims dims) in
      random_normal dims 0 variance
  else raise ValueError.

(** ** Activation functions *)

Definition tanh (x : value) : M value :=
  c <- py_lt x (VNum (-100)) ;;
  if c then ret (VNum (-1))
  else
    c' <- py_gt x (VNum 100) ;;
    if c' then ret (VNum 1)
    else
      a <- py_mul (VNum (-2)) x ;;
      em2x <- math_exp a ;;
      n <- py_sub (VNum 1) em2x ;;
      d <- py_add (VNum 1) em2x ;;
      py_div n d.

(** ** Layers *)

(** A layer object with its attributes; an attribute that is set only by
    [forward] or [backward] is optional.  [w] and [b] are the addresses of
    the parameter lists, which optimizers mutate in place.  A [Sequential]
    owns its sub-layers (the sub-layer objects are taken to be distinct). *)
Inductive layer : Type :=
| Sigmoid (sigmoids : option value)
| Linear (input_dim output_dim : Z) (w b : nat)
         (input w_grad b_grad : option value)
| Sequential (layers : list layer)
| Tanh (tanh : option value)
| Relu (input : option value)
| Dropout (p : R) (train : bool) (mask : option value).

Definition Linear_init (input_dim output_dim : Z) (init : string) : M layer :=
  wv <- random_tensor [output_dim; input_dim] init ;;
  w <- alloc wv ;;
  bv <- random_tensor [output_dim] init ;;
  b <- alloc bv ;;
  ret (Linear input_dim output_dim w b None None None).

Definition Dropout_init (p : R) : M layer := ret (Dropout p true None).

Definition sigmoid_backward_fn (sig grad : value) : M value :=
  a <- py_sub (VNum 1) sig ;;
  c <- py_mul sig a ;;
  py_mul c grad.

Definition tanh_backward_fn (tanh grad : value) : M value :=
  t2 <- py_pow tanh 2 ;;
  a <- py_sub (VNum 1) t2 ;;
  py_mul a grad.

Definition relu_forward_fn (x : value) : M value :=
  c <- py_gt (VNum 0) x ;;
  ret (if c then VNum 0 else x).

Definition relu_backward_fn (x grad : value) : M value :=
  c <- py_gt x (VNum 0) ;;
  ret (if c then grad else VNum 0).

Definition dropout_mask_fn (p : R) (_ : value) : M value :=
  u <- random_random ;;
  c <- py_lt u (VNum p) ;;
  ret (if c then VNum 0 else VNum 1).

Definition dropout_eval_fn (p : R) (x : value) : M value :=
  a <- py_sub (VNum 1) (VNum p) ;;
  py_mul x a.

(** Passing a tensor through a list of layers from the first to the last,
    and from the last to the first; each layer comes back with the
    attributes the call has set. *)
Definition thread {L} (step : L -> value -> M (value * L))
  : list L -> value -> M (value * list L) :=
  fix go ls x :=
    match ls with
    | [] => ret (x, [])
    | layer :: ls' =>
        r <- step layer x ;;
        r' <- go ls' (fst r) ;;
        ret (fst r', snd r :: snd r')
    end.

Definition thread_reversed {L} (step : L -> value -> M (value * L))
  : list L -> value -> M (value * list L) :=
  fix go ls x :=
    match ls with
    | [] => ret (x, [])
    | layer :: ls' =>
        r' <- go ls' x ;;
        r <- step layer (fst r') ;;
        ret (fst r, snd r :: snd r')
    end.

Fixpoint forward (l : layer) (input : value) : M (value * layer) :=
  match l with
  | Sigmoid _ =>
      s <- tensor_apply sigmoid input ;;
      ret (s, Sigmoid (Some s))
  | Linear input_dim output_dim w b _ w_grad b_grad =>
      r <- mapM (fun o =>
                   wv <- load w ;;
                   row <- py_index wv o ;;
                   d <- dot input row ;;
                   bv <- load b ;;
                   b_o <- py_index bv o ;;
                   py_add d b_o)
                (range output_dim) ;;
      ret (VList r, Linear input_dim output_dim w b (Some input) w_grad b_grad)
  | Sequential layers =>
      r <- thread forward layers input ;;
      ret (fst r, Sequential (snd r))
  | Tanh _ =>
      t <- tensor_apply tanh input ;;
      ret (t, Tanh (Some t))
  | Relu _ =>
      r <- tensor_apply relu_forward_fn input ;;
      ret (r, Relu (Some input))
  | Dropout p train mask =>
      if train then
        mask' <- tensor_apply (dropout_mask_fn p) input ;;
        r <- tensor_combine py_mul input mask' ;;
        ret (r, Dropout p train (Some mask'))
      else
        r <- tensor_apply (dropout_eval_fn p) input ;;
        ret (r, Dropout p train mask)
  end.

Fixpoint backward (l : layer) (gradient : value) : M (value * layer) :=
  match l with
  | Sigmoid sigmoids =>
      s <- attr sigmoids ;;
      r <- tensor_combine sigmoid_backward_fn s gradient ;;
      ret (r, l)
  | Linear input_dim output_dim w b input _ _ =>
      w_grad <- mapM (fun o =>
                        row <- mapM (fun i =>
                                       inp <- attr input ;;
                                       x <- py_index inp i ;;
                                       g <- py_index gradient o ;;
                                       py_mul x g)
                                    (range input_dim) ;;
                        ret (VList row))
                     (range output_dim) ;;
      r <- mapM (fun i =>
                   terms <- mapM (fun o =>
                                    wv <- load w ;;
                                    row <- py_index wv o ;;
                                    w_oi <- py_index row i ;;
                                    g <- py_index gradient o ;;
                                    py_mul w_oi g)
                                 (range output_dim) ;;
                   py_sum terms)
                (range input_dim) ;;
      ret (VList r,
           Linear input_dim output_dim w b input
                  (Some (VList w_grad)) (Some gradient))
  | Sequential layers =>
      r <- thread_reversed backward layers gradient ;;
      ret (fst r, Sequential (snd r))
  | Tanh tanh =>
      t <- attr tanh ;;
      r <- tensor_combine tanh_backward_fn t gradient ;;
      ret (r, l)
  | Relu input =>
      x <- attr input ;;
      r <- tensor_combine relu_backward_fn x gradient ;;
      ret (r, l)
  | Dropout p train mask =>
      if train then
        m <- attr mask ;;
        r <- tensor_combine py_mul gradient m ;;
        ret (r, l)
      else raise RuntimeError
  end.

(** [params()] yields the parameter objects themselves (their addresses);
    [grads()] yields the gradient tensors. *)
Fixpoint params (l : layer) : list nat :=
  match l with
  | Linear _ _ w b _ _ _ => [w; b]
  | Sequential layers => flat_map params layers
  | _ => []
  end.

Fixpoint grads (l : layer) : M (list value) :=
  match l with
  | Linear _ _ _ _ _ w_grad b_grad =>
      wg <- attr w_grad ;;
      bg <- attr b_grad ;;
      ret [wg; bg]
  | Sequential layers =>
      r <- mapM grads layers ;;
      ret (concat r)
  | _ => ret []
  end.

(** ** Losses *)





(** [softmax] has no [else] branch: on a tensor that is not rank 1 the
    function falls off its end and returns [None]. *)
Definition softmax (tensor : value) : M value :=
  c <- is_1d tensor ;;
  if c then
    l <- py_iter tensor ;;
    largest <- py_max l ;;
    exps <- mapM (fun x => d <- py_sub x largest ;; math_exp d) l ;;
    sum_of_exps <- py_sum exps ;;
    r <- mapM (fun exp_i => py_div exp_i sum_of_exps) exps ;;
    ret (VList r)
  else ret VNone.

Definition sce_loss_fn (p act : value) : M value :=
  a <- py_add p (VNum 1e-30) ;;
  lg <- math_log a ;;
  py_mul lg act.

Definition sce_gradient_fn (p actual : value) : M value :=
  py_sub p actual.

Definition SoftmaxCrossEntropy_loss (predicted actual : value) : M value :=
  probabilities <- softmax predicted ;;
  likelihoods <- tensor_combine sce_loss_fn probabilities actual ;;
  s <- tensor_sum likelihoods ;;
  py_neg s.

Definition SoftmaxCrossEntropy_gradient (predicted actual : value)
  : M value :=
  probabilities <- softmax predicted ;;
  tensor_combine sce_gradient_fn probabilities actual.

(** ** Optimizers *)

(** The gradient sequence is read in one go; [zip] stops at the end of
    the shortest of its arguments. *)

Definition gd_fn (lr : R) (param grad : value) : M value :=
  a <- py_mul grad (VNum lr) ;;
  py_sub param a.

Fixpoint gd_loop (lr : R) (ps : list nat) (gs : list value) : M unit :=
  match ps, gs with
  | param :: ps', grad :: gs' =>
      pv <- load param ;;
      new <- tensor_combine (gd_fn lr) pv grad ;;
      _ <- store param new ;;
      gd_loop lr ps' gs'
  | _, _ => ret tt
  end.

Definition GradientDescent_step (lr : R) (l : layer) : M unit :=
  gs <- grads l ;;
  gd_loop lr (params l) gs.

Record Momentum : Type := Momentum_init {
  lr : R;
  mo : R;
  updates : list nat   (* addresses of the running averages *)
}.

Definition momentum_fn (mo : R) (u g : value) : M value :=
  a <- py_mul (VNum mo) u ;;
  c <- py_sub (VNum 1) (VNum mo) ;;
  d <- py_mul c g ;;
  py_add a d.

Definition momentum_step_fn (lr : R) (p u : value) : M value :=
  a <- py_mul (VNum lr) u ;;
  py_sub p a.

Fixpoint momentum_loop (lr mo : R) (us ps : list nat) (gs : list value)
  : M unit :=
  match us, ps, gs with
  | update :: us', param :: ps', grad :: gs' =>
      uv <- load update ;;
      new_u <- tensor_combine (momentum_fn mo) uv grad ;;
      _ <- store update new_u ;;
      pv <- load param ;;
      uv' <- load update ;;
      new_p <- tensor_combine (momentum_step_fn lr) pv uv' ;;
      _ <- store param new_p ;;
      momentum_loop lr mo us' ps' gs'
  | _, _, _ => ret tt
  end.

Definition Momentum_step (self : Momentum) (l : layer) : M Momentum :=
  us <- match updates self with
        | [] =>
            gs <- grads l ;;
            mapM (fun grad => z <- zero_like grad ;; alloc z) gs
        | _ :: _ => ret (updates self)
        end ;;
  gs <- grads l ;;
  _ <- momentum_loop (lr self) (mo self) us (params l) gs ;;
  ret (Momentum_init (lr self) (mo self) us).

End Program.

(** ** One-hot labels *)

Definition one_hot_encode (i : Z) (num_labels : Z) : value :=
  VList (map (fun j => if Z.eqb (Z.of_nat j) i then VNum 1 else VNum 0)
             (range num_labels)).

(** ** Saving and loading weights

    The JSON file is represented by the value that [json.dump] writes and
    [json.load] gives back.  A failed [assert] leaves the world as it is;
    it is the result [AssertionError], apart from the exceptions that the
    evaluation of the asserted condition may itself raise. *)

Inductive asserted (A : Type) : Type :=
| Holds (a : A)
| AssertionError.
Arguments Holds {A} a.
Arguments AssertionError {A}.

(** The value [save_weights] writes: [list(model.params())]. *)
Definition save_weights (model : layer) : M value :=
  weights <- mapM load (params model) ;;
  ret (VList weights).

(** [all(shape(param) == shape(weight) for param, weight in ...)] *)
Fixpoint shapes_agree (pws : list (nat * value)) : M bool :=
  match pws with
  | [] => ret true
  | (param, weight) :: rest =>
      pv <- load param ;;
      s1 <- shape pv ;;
      s2 <- shape weight ;;
      if decide (s1 = s2) then shapes_agree rest else ret false
  end.

(** [for param, weight in ...: param[:] = weight] *)
Fixpoint assign_all (pws : list (nat * value)) : M unit :=
  match pws with
  | [] => ret tt
  | (param, weight) :: rest =>
      match weight with
      | VList _ => _ <- store param weight ;; assign_all rest
      | _ => raise TypeError
      end
  end.

(** [load_weights], from the value [weights] read from the file. *)
Definition load_weights (model : layer) (weights : value)
  : M (asserted unit) :=
  ws <- py_iter weights ;;
  ok <- shapes_agree (combine (params model) ws) ;;
  if ok then
    _ <- assign_all (combine (params model) ws) ;;
    ret (Holds tt)
  else ret AssertionError.


(** ** Well-shaped tensors

    [has_shape dims t]: [t] is a uniformly nested list of numbers whose
    dimensions are [dims], none of them zero ([[]] is the shape of a
    number).  [leaf t idx] is the number at the index path [idx]. *)

Fixpoint has_shape (dims : list nat) (t : value) : bool :=
  match dims, t with
  | [], VNum _ => true
  | n :: ds, VList l =>
      Nat.eqb (length l) n && Nat.ltb 0 n && forallb (has_shape ds) l
  | _, _ => false
  end.

Fixpoint leaf (t : value) (idx : list nat) : option R :=
  match idx, t with
  | [], VNum x => Some x
  | i :: idx', VList l =>
      match l !! i with
      | Some t' => leaf t' idx'
      | None => None
      end
  | _, _ => None
  end.

(** The rank-1 tensor of the numbers [xs]. *)
Definition vector (xs : list R) : value := VList (map VNum xs).

(** Leaves related by [Q], position by position. *)
Definition leaf_rel (Q : R -> R -> Prop) (o o' : option R) : Prop :=
  match o, o' with
  | Some x, Some y => Q x y
  | None, None => True
  | _, _ => False
  end.

(** The leaf obtained from two leaves by [f]. *)
Definition leaf_map2 (f : R -> R -> R) (o1 o2 : option R) : option R :=
  match o1, o2 with
  | Some x, Some y => Some (f x y)
  | _, _ => None
  end.
(** [b] has the shape [ds] and its leaves are the [Q]-images of the leaves
    of [a]. *)
Definition image (Q : R -> R -> Prop) (ds : list nat) (a b : value) : Prop :=
  has_shape ds b = true /\
  forall idx, leaf_rel Q (leaf a idx) (leaf b idx).

(** [c] has the shape [ds] and each of its leaves is [g] of the leaves of
    [a] and [b] at the same place. *)
Definition combined (g : R -> R -> R) (ds : list nat) (a b c : value)
  : Prop :=
  has_shape ds c = true /\
  forall idx, leaf c idx = leaf_map2 g (leaf a idx) (leaf b idx).

(** Every leaf is zero. *)
Definition zero_filled (ds : list nat) (g z : value) : Prop :=
  image (fun _ y => y = 0) ds g z.

(** ** Rank-1 and rank-2 tensors *)

(** [sum] of a list of numbers: from 0, adding from the left. *)
Definition sum_R (l : list R) : R := fold_left Rplus l 0.

(** The rank-2 tensor of the rows [W], and its entry in row [o], column
    [i]. *)
Definition matrix (W : list (list R)) : value := VList (map vector W).

Definition entry (W : list (list R)) (o i : nat) : R :=
  nth i (nth o W []) 0.

(** ** What the layers, losses and optimizers compute *)

(** The number [tanh] returns on the number [x]. *)
Definition tanh_value (x : R) : R :=
  if Rlt_dec x (-100) then -1
  else if Rlt_dec 100 x then 1
  else (1 - exp (-2 * x)) / (1 + exp (-2 * x)).

(** What [Tanh.backward] computes from a cached output and a gradient. *)
Definition tanh_backward_value (t grad : R) : R := (1 - t ^ 2) * grad.

(** The sub-layers of a [Sequential]. *)
Definition sub_layers (l : layer) : list layer :=
  match l with
  | Sequential layers => layers
  | _ => []
  end.

(** The gradients of the sub-layers, one chunk per sub-layer, each chunk
    as long as the sub-layer's parameter sequence. *)
Definition chunks (w : world) (ls : list layer) (gss : list (list value))
  : Prop :=
  Forall2 (fun l gs => grads l w = Ok (gs, w) /\
                       length gs = length (params l)) ls gss.

(** The weight gradient and the input gradient of [Linear.backward]. *)
Definition outer_product (n m : nat) (xs gs : list R) : list (list R) :=
  map (fun o => map (fun i => nth i xs 0 * nth o gs 0) (seq 0 n)) (seq 0 m).

Definition transpose_product (n m : nat) (W : list (list R)) (gs : list R)
  : list R :=
  map (fun i => sum_R (map (fun o => entry W o i * nth o gs 0) (seq 0 m)))
      (seq 0 n).

(** The world after [k] draws of [random.random()]. *)
Definition advance (k : nat) (w : world) : world :=
  World (heap w) (next_loc w) (fun n => rng w (k + n)%nat).

(** [max] of a list of numbers, as Python computes it. *)
Definition largest_from (cur : R) (l : list R) : R :=
  fold_left (fun m x => if Rlt_dec m x then x else m) l cur.

Definition largest (xs : list R) : R :=
  match xs with
  | [] => 0
  | x :: l => largest_from x l
  end.

(** The probabilities [softmax] returns on the numbers [xs]. *)
Definition softmax_value (xs : list R) : list R :=
  let exps := map (fun x => exp (x - largest xs)) xs in
  map (fun exp_i => exp_i / sum_R exps) exps.

(** The new velocity and the new parameter, entry by entry. *)
Definition momentum_value (mo u g : R) : R := mo * u + (1 - mo) * g.

Definition step_value (lr p u : R) : R := p - lr * u.

(** What one call of [step] has done to the heap [h], giving [h']: for
    each (velocity, parameter, gradient) triple, in positional order, the
    list object of the velocity now holds [mo * velocity + (1 - mo) *
    gradient], and the list object of the parameter holds [parameter - lr
    * velocity] for that new velocity. *)
Definition momentum_updated (lr mo : R) (dss : list (list nat))
    (us ps : list nat) (gs : list value) (h h' : gmap nat value) : Prop :=
  forall i u p g ds,
    us !! i = Some u -> ps !! i = Some p -> gs !! i = Some g ->
    dss !! i = Some ds ->
    exists uv pv uv' pv',
      h !! u = Some uv /\ h !! p = Some pv /\
      h' !! u = Some uv' /\ h' !! p = Some pv' /\
      combined (momentum_value mo) ds uv g uv' /\
      combined (step_value lr) ds pv uv' pv'.

(** The triples are well-formed in the heap [h]: velocity, parameter and
    gradient of each triple have one shape. *)
Definition momentum_ready (dss : list (list nat))
    (us ps : list nat) (gs : list value) (h : gmap nat value) : Prop :=
  forall i u p g ds,
    us !! i = Some u -> ps !! i = Some p -> gs !! i = Some g ->
    dss !! i = Some ds ->
    ds <> [] /\ has_shape ds g = true /\
    exists uv pv,
      h !! u = Some uv /\ h !! p = Some pv /\
      has_shape ds uv = true /\ has_shape ds pv = true.

(** The numbers of a tensor, in the order of the nesting. *)
Fixpoint leaves (t : value) : list R :=
  match t with
  | VNum x => [x]
  | VList l => flat_map leaves l
  | VNone => []
  end.

(** The number of leaves of a tensor of the shape [ds]. *)
Definition product (ds : list nat) : nat := fold_right Nat.mul 1%nat ds.

(** The world after [k] draws of [random.random()], up to the equality of
    the streams position by position. *)
Definition drawn (k : nat) (w w' : world) : Prop :=
  heap w' = heap w /\ next_loc w' = next_loc w /\
  forall n, rng w' n = rng w (k + n)%nat.

(** [body] makes as many draws as a tensor of the shape [ds] has leaves
    and returns a tensor of that shape whose leaves are the [h]-images of
    the draws, in order. *)
Definition draws_tensor (h : R -> R) (ds : list nat) (body : M value)
  : Prop :=
  forall w, exists t w',
    body w = Ok (t, w') /\ has_shape ds t = true /\
    leaves t = map (fun i => h (rng w i)) (seq 0 (product ds)) /\
    drawn (product ds) w w'.

(** The heap and the next unused address are those of [w]. *)
Definition same_heap (w w' : world) : Prop :=
  heap w' = heap w /\ next_loc w' = next_loc w.

(** Whenever [m] returns, the world it returns is related to the world it
    started from by [Inv]. *)
Definition keeps {A} (Inv : world -> world -> Prop) (m : M A) : Prop :=
  forall w a w', m w = Ok (a, w') -> Inv w w'.

(** What the caller of [forward] or [backward] gets to see: the tensor
    returned and the world, or the exception. *)
Definition outcome (r : result (value * layer * world))
  : result (value * world) :=
  match r with
  | Ok (y, _, w') => Ok (y, w')
  | Raise e => Raise e
  end.

(** What one call of [GradientDescent.step] has done to the heap [h],
    giving [h']. *)
Definition gd_updated (lr : R) (dss : list (list nat))
    (ps : list nat) (gs : list value) (h h' : gmap nat value) : Prop :=
  forall i p g ds,
    ps !! i = Some p -> gs !! i = Some g -> dss !! i = Some ds ->
    exists pv pv',
      h !! p = Some pv /\ h' !! p = Some pv' /\
      combined (fun x y => x - y * lr) ds pv g pv'.

(** ** Worlds and layers for the examples *)

(** A world with an empty heap, for the examples. *)
Definition quiet_world : world := World ∅ 0 (fun _ => 0).

(** A world whose heap holds a 1 x 2 weight matrix and a bias vector. *)
Definition linear_world : world :=
  World (<[0%nat := matrix [[1; 2]]]> (<[1%nat := vector [5]]> ∅)) 2
        (fun _ => 0).

(** A layer with a 1 x 2 weight matrix at address 0 and a bias at address
    1, its gradients set, in a world that also holds two velocities, at
    the addresses 2 and 3. *)
Definition momentum_world : world :=
  World (<[0%nat := matrix [[1; 2]]]>
           (<[1%nat := vector [5]]>
              (<[2%nat := matrix [[0; 0]]]>
                 (<[3%nat := vector [0]]> ∅)))) 4 (fun _ => 0).

Definition momentum_layer : layer :=
  Linear 2 1 0 1 None (Some (matrix [[3; 4]])) (Some (vector [7])).

(** ** Induction on nested values and layers *)

(** Induction on values, with the hypothesis for every item of a list. *)
Fixpoint value_nested_ind (P : value -> Prop)
    (Hnum : forall x, P (VNum x))
    (Hlist : forall l, Forall P l -> P (VList l))
    (Hnone : P VNone) (v : value) : P v :=
  match v with
  | VNum x => Hnum x
  | VList l =>
      Hlist l ((fix go (l : list value) : Forall P l :=
                  match l with
                  | [] => @List.Forall_nil _ P
                  | x :: l' =>
                      @List.Forall_cons _ P x l'
                        (value_nested_ind P Hnum Hlist Hnone x) (go l')
                  end) l)
  | VNone => Hnone
  end.

(** Induction on layers, with the hypothesis for every sub-layer. *)
Fixpoint layer_nested_ind (P : layer -> Prop)
    (Hsig : forall c, P (Sigmoid c))
    (Hlin : forall n m w b i wg bg, P (Linear n m w b i wg bg))
    (Hseq : forall ls, Forall P ls -> P (Sequential ls))
    (Htanh : forall c, P (Tanh c))
    (Hrelu : forall c, P (Relu c))
    (Hdrop : forall p t m, P (Dropout p t m))
    (l : layer) : P l :=
  match l with
  | Sigmoid c => Hsig c
  | Linear n m w b i wg bg => Hlin n m w b i wg bg
  | Sequential ls =>
      Hseq ls ((fix go (ls : list layer) : Forall P ls :=
                  match ls with
                  | [] => @List.Forall_nil _ P
                  | x :: ls' =>
                      @List.Forall_cons _ P x ls'
                        (layer_nested_ind P Hsig Hlin Hseq Htanh Hrelu Hdrop x)
                        (go ls')
                  end) ls)
  | Tanh c => Htanh c
  | Relu c => Hrelu c
  | Dropout p t m => Hdrop p t m
  end.

(** * Properties *)

(** ** Computations *)

Lemma bind_Ok {A B} (m : M A) (k : A -> M B) w a w' :
  m w = Ok (a, w') -> bind m k w = k a w'.
Proof. intros H. unfold bind. now rewrite H. Qed.

Lemma bind_Raise {A B} (m : M A) (k : A -> M B) w e :
  m w = Raise e -> bind m k w = Raise e.
Proof. intros H. unfold bind. now rewrite H. Qed.

Lemma bind_inv {A B} (m : M A) (k : A -> M B) w b w'' :
  bind m k w = Ok (b, w'') ->
  exists a w', m w = Ok (a, w') /\ k a w' = Ok (b, w'').
Proof.
  unfold bind. destruct (m w) as [[a w']|e]; [eauto | discriminate].
Qed.

Lemma mapM_ext {A B} (f g : A -> M B) l w :
  (forall x w, In x l -> f x w = g x w) -> mapM f l w = mapM g l w.
Proof.
  revert w. induction l as [|x l IH]; intros w H; [reflexivity|].
  simpl. unfold bind. rewrite H by (now left).
  destruct (g x w) as [[y w']|e]; [|reflexivity].
  rewrite IH; [reflexivity|]. intros; apply H; now right.
Qed.

(** A comprehension whose body always succeeds, relating each item to its
    image by [Q] and each world to the next by the preorder [I]. *)
Lemma mapM_Forall2 {A B} (f : A -> M B) (Q : A -> B -> Prop)
      (I : world -> world -> Prop) l w :
  (forall w, I w w) ->
  (forall w1 w2 w3, I w1 w2 -> I w2 w3 -> I w1 w3) ->
  (forall x w, In x l -> exists y w', f x w = Ok (y, w') /\ Q x y /\ I w w') ->
  exists ys w', mapM f l w = Ok (ys, w') /\ Forall2 Q l ys /\ I w w'.
Proof.
  intros Hrefl Htrans. revert w.
  induction l as [|x l IH]; intros w H.
  - exists [], w. repeat split; [constructor | apply Hrefl].
  - destruct (H x w) as (y & w1 & Hx & HQ & HI); [now left|].
    destruct (IH w1) as (ys & w2 & Hl & HF & HI2).
    { intros; apply H; now right. }
    exists (y :: ys), w2. simpl. unfold bind. rewrite Hx, Hl.
    repeat split; [now constructor | eauto].
Qed.

(** The same for a body that leaves the world alone and computes [g]. *)
Lemma mapM_pure {A B} (f : A -> M B) (g : A -> B) l w :
  (forall x, In x l -> f x w = Ok (g x, w)) ->
  mapM f l w = Ok (map g l, w).
Proof.
  induction l as [|x l IH]; intros H; [reflexivity|].
  simpl. unfold bind. rewrite H by (now left).
  rewrite IH; [reflexivity|]. intros; apply H; now right.
Qed.

Lemma zipM_combine {A B C} (g : A -> B -> M C) l1 l2 w :
  zipM g l1 l2 w = mapM (fun xy => g (fst xy) (snd xy)) (combine l1 l2) w.
Proof.
  revert l2 w. induction l1 as [|x l1 IH]; intros [|y l2] w; try reflexivity.
  simpl. unfold bind. destruct (g x y w) as [[z w']|e]; [|reflexivity].
  now rewrite IH.
Qed.

Lemma mapM_length {A B} (f : A -> M B) l w ys w' :
  mapM f l w = Ok (ys, w') -> length ys = length l.
Proof.
  revert w ys. induction l as [|x l IH]; intros w ys H; simpl in H.
  - unfold ret in H. now inversion H.
  - apply bind_inv in H as (y & w1 & _ & H).
    apply bind_inv in H as (ys' & w2 & Hl & H).
    unfold ret in H. inversion H; subst. simpl. f_equal. eauto.
Qed.

Lemma mapM_map {A B C} (f : B -> M C) (h : A -> B) l w :
  mapM f (map h l) w = mapM (fun x => f (h x)) l w.
Proof.
  revert w. induction l as [|x l IH]; intros w; [reflexivity|].
  simpl. unfold bind. destruct (f (h x) w) as [[y w']|e]; [|reflexivity].
  now rewrite IH.
Qed.

(** ** The tensor utilities follow the text of the source

    The recursive definitions above test "rank 1" by matching on the first
    element; these equations give them back in the shape of the source,
    with the call of [is_1d]. *)

Lemma tensor_apply_eq f tensor w :
  tensor_apply f tensor w =
  (c <- is_1d tensor ;;
   l <- py_iter tensor ;;
   r <- mapM (if c then f else tensor_apply f) l ;;
   ret (VList r)) w.
Proof.
  destruct tensor as [x|l|]; try reflexivity.
  destruct l as [|[x|l0|] l]; reflexivity.
Qed.

Lemma tensor_combine_eq f t1 t2 w :
  tensor_combine f t1 t2 w =
  (c <- is_1d t1 ;;
   l1 <- py_iter t1 ;;
   l2 <- py_iter t2 ;;
   r <- zipM (if c then f else tensor_combine f) l1 l2 ;;
   ret (VList r)) w.
Proof.
  destruct t1 as [x|l1|]; try reflexivity.
  destruct l1 as [|[x|l0|] l1]; reflexivity.
Qed.

Lemma tensor_sum_eq tensor w :
  tensor_sum tensor w =
  (c <- is_1d tensor ;;
   l <- py_iter tensor ;;
   if c then py_sum l else py_sum_gen tensor_sum (VNum 0) l) w.
Proof.
  destruct tensor as [x|l|]; try reflexivity.
  destruct l as [|[x|l0|] l]; reflexivity.
Qed.


(** ** Element-wise operations on well-shaped tensors *)

Lemma has_shape_cons n ds l :
  has_shape (n :: ds) (VList l) = true <->
  length l = n /\ (0 < n)%nat /\ Forall (fun t => has_shape ds t = true) l.
Proof.
  simpl. rewrite !andb_true_iff, Nat.eqb_eq, Nat.ltb_lt, forallb_forall.
  rewrite List.Forall_forall. tauto.
Qed.

Lemma has_shape_num t : has_shape [] t = true -> exists x, t = VNum x.
Proof. destruct t; simpl; try discriminate. eauto. Qed.

Lemma has_shape_is_list n ds t :
  has_shape (n :: ds) t = true -> is_list t = true.
Proof. destruct t; simpl; congruence. Qed.

Lemma has_shape_not_list t : has_shape [] t = true -> is_list t = false.
Proof. destruct t; simpl; congruence. Qed.

(** A well-shaped tensor is rank 1 exactly when its shape has one
    dimension. *)
Lemma is_1d_shaped n ds t w :
  has_shape (n :: ds) t = true ->
  is_1d t w = Ok (match ds with [] => true | _ => false end, w).
Proof.
  intros H. destruct t as [|l|]; try discriminate.
  apply has_shape_cons in H as (Hlen & Hn & Hall).
  destruct l as [|x l]; [simpl in Hlen; lia|].
  inversion Hall as [|? ? Hx _]; subst.
  unfold is_1d, py_index, bind, ret; simpl.
  destruct ds.
  - now rewrite (has_shape_not_list _ Hx).
  - now rewrite (has_shape_is_list _ _ _ Hx).
Qed.

(** [shape] returns the dimensions of a well-shaped tensor. *)
Lemma shape_shaped ds :
  forall t w, has_shape ds t = true -> shape t w = Ok (ds, w).
Proof.
  induction ds as [|n ds IH]; intros t w H.
  - apply has_shape_num in H as [x ->]. reflexivity.
  - destruct t as [|l|]; try discriminate.
    apply has_shape_cons in H as (Hlen & Hn & Hall).
    destruct l as [|x l]; [simpl in Hlen; lia|].
    inversion Hall as [|? ? Hx _]; subst.
    simpl. unfold bind. rewrite (IH x w Hx). reflexivity.
Qed.

Section Elementwise.

Variable Q : R -> R -> Prop.

Lemma image_list n ds l l' :
  length l = n -> (0 < n)%nat ->
  Forall2 (image Q ds) l l' ->
  image Q (n :: ds) (VList l) (VList l').
Proof.
  intros Hlen Hn HF. split.
  - apply has_shape_cons. split; [|split; [assumption|]].
    + rewrite <- Hlen. symmetry. eapply Forall2_length; eauto.
    + clear Hlen. induction HF as [|? ? ? ? [H _]]; constructor; auto.
  - intros [|i idx]; simpl; [exact I|].
    clear Hlen. revert i.
    induction HF as [|a b l l' [_ H] HF IH]; intros [|i]; simpl;
      [exact I | exact I | apply H | apply IH].
Qed.

Variable Inv : world -> world -> Prop.
Hypothesis Inv_refl : forall w, Inv w w.
Hypothesis Inv_trans : forall w1 w2 w3, Inv w1 w2 -> Inv w2 w3 -> Inv w1 w3.

Variable f : value -> M value.
Hypothesis f_num :
  forall x w, exists y w', f (VNum x) w = Ok (VNum y, w') /\ Q x y /\ Inv w w'.

(** [tensor_apply f] on a well-shaped tensor: the result has the same
    shape, and each of its leaves is the image of the leaf of the argument
    at the same place. *)
Lemma tensor_apply_shaped ds :
  forall t w, ds <> [] -> has_shape ds t = true ->
  exists t' w', tensor_apply f t w = Ok (t', w') /\ image Q ds t t' /\ Inv w w'.
Proof.
  induction ds as [|n ds IH]; intros t w Hne Hs; [congruence|].
  destruct t as [|l|]; try discriminate.
  pose proof (is_1d_shaped _ _ _ w Hs) as H1d.
  apply has_shape_cons in Hs as (Hlen & Hn & Hall).
  rewrite tensor_apply_eq. rewrite (bind_Ok _ _ _ _ _ H1d).
  unfold bind at 1; simpl.
  assert (exists ys w',
    mapM (if match ds with [] => true | _ => false end
          then f else tensor_apply f) l w = Ok (ys, w')
    /\ Forall2 (image Q ds) l ys /\ Inv w w') as (ys & w' & Hm & HF & HI).
  { apply mapM_Forall2; auto.
    intros x w0 Hin. rewrite List.Forall_forall in Hall.
    specialize (Hall x Hin). destruct ds as [|n' ds'].
    - apply has_shape_num in Hall as [r ->].
      destruct (f_num r w0) as (y & w1 & Hf & HQ & HI).
      exists (VNum y), w1. repeat split; auto.
      intros [|i idx]; simpl; auto.
    - apply IH; [discriminate | assumption]. }
  exists (VList ys), w'. unfold bind. rewrite Hm. unfold ret.
  split; [reflexivity|]. split; [now apply image_list | assumption].
Qed.

End Elementwise.

Section Combine.

Variable g : R -> R -> R.

Lemma combined_list n ds l1 l2 l3 :
  length l1 = n -> (0 < n)%nat ->
  Forall3 (combined g ds) l1 l2 l3 ->
  combined g (n :: ds) (VList l1) (VList l2) (VList l3).
Proof.
  intros Hlen Hn HF. split.
  - apply has_shape_cons. split; [|split; [assumption|]].
    + rewrite <- Hlen. symmetry. eapply Forall3_length_lr; eauto.
    + clear Hlen. induction HF as [|? ? ? ? ? ? [H _]]; constructor; auto.
  - intros [|i idx]; simpl; [reflexivity|].
    clear Hlen. revert i.
    induction HF as [|a b c l1 l2 l3 [_ H] HF IH]; intros [|i]; simpl;
      [reflexivity | reflexivity | apply H | apply IH].
Qed.

Lemma zipM_Forall3 (G : value -> value -> M value) (P : value -> Prop)
      ds l1 l2 w :
  (forall a b, P a -> P b -> exists c, G a b w = Ok (c, w) /\ combined g ds a b c) ->
  Forall P l1 -> Forall P l2 -> length l1 = length l2 ->
  exists l3, zipM G l1 l2 w = Ok (l3, w) /\ Forall3 (combined g ds) l1 l2 l3.
Proof.
  intros HG H1. revert l2.
  induction H1 as [|a l1 Ha H1 IH]; intros [|b l2] H2 Hlen;
    try discriminate.
  - exists []. split; [reflexivity | constructor].
  - inversion H2 as [|? ? Hb H2']; subst.
    destruct (HG a b Ha Hb) as (c & Hc & Hcomb).
    destruct (IH l2 H2') as (l3 & Hl3 & HF); [simpl in Hlen; lia|].
    exists (c :: l3). simpl. unfold bind. rewrite Hc, Hl3.
    split; [reflexivity | now constructor].
Qed.

Variable f : value -> value -> M value.
Hypothesis f_num :
  forall x y w, f (VNum x) (VNum y) w = Ok (VNum (g x y), w).

(** [tensor_combine f] on two tensors of one shape: the world is left as
    it is, the result has that shape, and each of its leaves is [g] of the
    two leaves at the same place. *)
Lemma tensor_combine_shaped ds :
  forall t1 t2 w, ds <> [] ->
  has_shape ds t1 = true -> has_shape ds t2 = true ->
  exists t3, tensor_combine f t1 t2 w = Ok (t3, w) /\ combined g ds t1 t2 t3.
Proof.
  induction ds as [|n ds IH]; intros t1 t2 w Hne Hs1 Hs2; [congruence|].
  destruct t1 as [|l1|]; try discriminate.
  destruct t2 as [|l2|]; try discriminate.
  pose proof (is_1d_shaped _ _ _ w Hs1) as H1d.
  apply has_shape_cons in Hs1 as (Hlen1 & Hn & Hall1).
  apply has_shape_cons in Hs2 as (Hlen2 & _ & Hall2).
  rewrite tensor_combine_eq. rewrite (bind_Ok _ _ _ _ _ H1d).
  unfold bind at 1 2; simpl.
  destruct (zipM_Forall3
              (if match ds with [] => true | _ => false end
               then f else tensor_combine f)
              (fun t => has_shape ds t = true) ds l1 l2 w)
    as (l3 & Hz & HF); auto; [|congruence|].
  { intros a b Ha Hb. destruct ds as [|n' ds'].
    - apply has_shape_num in Ha as [x ->].
      apply has_shape_num in Hb as [y ->].
      exists (VNum (g x y)). split; [apply f_num|].
      split; [reflexivity|]. now intros [|i idx].
    - apply IH; [discriminate | assumption | assumption]. }
  exists (VList l3). unfold bind. rewrite Hz. unfold ret.
  split; [reflexivity | now apply combined_list].
Qed.

End Combine.

(** ** Rank-1 tensors *)

Lemma is_1d_vector x xs w : is_1d (vector (x :: xs)) w = Ok (true, w).
Proof. reflexivity. Qed.

Lemma zipM_nums f (g : R -> R -> R) xs ys w :
  (forall x y, In x xs -> f (VNum x) (VNum y) w = Ok (VNum (g x y), w)) ->
  zipM f (map VNum xs) (map VNum ys) w =
  Ok (map VNum (map (fun xy => g (fst xy) (snd xy)) (combine xs ys)), w).
Proof.
  revert ys.
  induction xs as [|x xs IH]; intros [|y ys] Hf; try reflexivity.
  simpl. unfold bind. rewrite Hf by (now left).
  rewrite IH; [reflexivity|]. intros; apply Hf; now right.
Qed.

Lemma tensor_combine_vector f (g : R -> R -> R) xs ys w :
  (forall x y, In x xs -> f (VNum x) (VNum y) w = Ok (VNum (g x y), w)) ->
  xs <> [] ->
  tensor_combine f (vector xs) (vector ys) w =
  Ok (vector (map (fun xy => g (fst xy) (snd xy)) (combine xs ys)), w).
Proof.
  intros Hf Hne. destruct xs as [|x xs]; [congruence|].
  rewrite tensor_combine_eq, (bind_Ok _ _ _ _ _ (is_1d_vector x xs w)).
  unfold vector, py_iter, bind, ret.
  rewrite (zipM_nums f g (x :: xs) ys w Hf). reflexivity.
Qed.

Lemma py_add_num x y w : py_add (VNum x) (VNum y) w = Ok (VNum (x + y), w).
Proof. reflexivity. Qed.

Lemma py_mul_num x y w : py_mul (VNum x) (VNum y) w = Ok (VNum (x * y), w).
Proof. reflexivity. Qed.

Lemma py_sub_num x y w : py_sub (VNum x) (VNum y) w = Ok (VNum (x - y), w).
Proof. reflexivity. Qed.

(** ** [tensor_combine] and operands of different lengths *)

(** C6, as the code has it: [tensor_combine] checks no shape.  On rank-1
    tensors, the first not empty, it raises nothing and returns the
    element-wise results over the common prefix: the result is as long as
    the shorter operand. *)
Theorem tensor_combine_zip_shortest
    (f : value -> value -> M value) (g : R -> R -> R)
    (xs ys : list R) (w : world) :
  (forall x y w, f (VNum x) (VNum y) w = Ok (VNum (g x y), w)) ->
  xs <> [] ->
  exists zs,
    tensor_combine f (vector xs) (vector ys) w = Ok (vector zs, w) /\
    zs = map (fun xy => g (fst xy) (snd xy)) (combine xs ys) /\
    length zs = Nat.min (length xs) (length ys).
Proof.
  intros Hf Hne. eexists.
  split; [apply tensor_combine_vector; [intros; apply Hf | assumption]|].
  split; [reflexivity|]. now rewrite length_map, length_combine.
Qed.

Lemma tensor_combine_zip_shortest_witness :
  exists zs,
    tensor_combine py_add (vector [1; 2; 3]) (vector [4; 5]) quiet_world
    = Ok (vector zs, quiet_world) /\
    zs = map (fun xy => fst xy + snd xy) (combine [1; 2; 3] [4; 5]) /\
    length zs = Nat.min 3 2.
Proof.
  apply (tensor_combine_zip_shortest py_add Rplus [1; 2; 3] [4; 5]).
  - intros; reflexivity.
  - discriminate.
Defined.

(** C6 fails as stated: on [[1, 2, 3]] and [[4, 5]] with [operator.add],
    no exception is raised; the result is the two-element list
    [[1 + 4, 2 + 5]]. *)
Lemma tensor_combine_no_shape_error :
  tensor_combine py_add (vector [1; 2; 3]) (vector [4; 5]) quiet_world
  = Ok (vector [1 + 4; 2 + 5], quiet_world).
Proof. reflexivity. Qed.

(** ** Construction of a [Dropout] layer *)

(** C8, as the code has it: the constructor of [Dropout] validates
    nothing.  For every [p], negative or not, it returns the layer with
    that [p], in training mode, without a mask. *)
Theorem Dropout_init_total (p : R) (w : world) :
  Dropout_init p w = Ok (Dropout p true None, w).
Proof. reflexivity. Qed.

(** C8 fails as stated: [Dropout(-1)] is constructed without error. *)
Lemma Dropout_init_negative :
  Dropout_init (-1) quiet_world = Ok (Dropout (-1) true None, quiet_world)
  /\ ~ exists e, Dropout_init (-1) quiet_world = Raise e.
Proof. split; [reflexivity | intros [e H]; discriminate]. Qed.

(** ** [softmax] on tensors of higher rank *)

(** C10: on a tensor whose first element is a list, [softmax] returns
    [None]; the loss and the gradient of [SoftmaxCrossEntropy] then fail,
    with the [TypeError] of subscripting [None]. *)
Theorem softmax_higher_rank (row rest : list value) (actual : value)
    (w : world) :
  softmax (VList (VList row :: rest)) w = Ok (VNone, w) /\
  SoftmaxCrossEntropy_loss (VList (VList row :: rest)) actual w
  = Raise TypeError /\
  SoftmaxCrossEntropy_gradient (VList (VList row :: rest)) actual w
  = Raise TypeError.
Proof. repeat split. Qed.

(** ** [tanh] and the [Tanh] layer *)

(** [tanh] raises nothing on a number: the argument of [math.exp] is at
    most 200 when the clamps have not fired, and the divisor is positive. *)
Lemma tanh_num x w : tanh (VNum x) w = Ok (VNum (tanh_value x), w).
Proof.
  unfold tanh, tanh_value, py_gt, py_lt, bind, ret.
  destruct (Rlt_dec x (-100)) as [Hlo|Hlo]; [reflexivity|].
  destruct (Rlt_dec 100 x) as [Hhi|Hhi]; [reflexivity|].
  simpl. destruct (Rlt_dec exp_max (-2 * x)) as [Hov|_].
  { unfold exp_max in Hov. lra. }
  cbv beta iota. simpl.
  destruct (Req_dec_T (1 + exp (-2 * x)) 0) as [Hz|_]; [|reflexivity].
  pose proof (exp_pos (-2 * x)). lra.
Qed.

Lemma tanh_backward_fn_num t g w :
  tanh_backward_fn (VNum t) (VNum g) w = Ok (VNum (tanh_backward_value t g), w).
Proof. reflexivity. Qed.

Lemma tanh_value_high x : 100 < x -> tanh_value x = 1.
Proof.
  intros H. unfold tanh_value.
  destruct (Rlt_dec x (-100)); [lra|]. destruct (Rlt_dec 100 x); [reflexivity|lra].
Qed.

Lemma tanh_value_low x : x < -100 -> tanh_value x = -1.
Proof.
  intros H. unfold tanh_value. destruct (Rlt_dec x (-100)); [reflexivity|lra].
Qed.

Lemma Tanh_forward_vector sigmoid dot c x xs w :
  forward sigmoid dot (Tanh c) (vector (x :: xs)) w =
  Ok ((vector (map tanh_value (x :: xs)),
       Tanh (Some (vector (map tanh_value (x :: xs))))), w).
Proof.
  unfold forward. rewrite (bind_Ok _ _ w (vector (map tanh_value (x :: xs))) w);
    [reflexivity|].
  rewrite tensor_apply_eq, (bind_Ok _ _ _ _ _ (is_1d_vector x xs w)).
  unfold vector, py_iter, bind, ret.
  rewrite (mapM_pure tanh (fun v => match v with
                                    | VNum r => VNum (tanh_value r)
                                    | _ => v
                                    end)).
  - now rewrite !map_map.
  - intros v Hin. apply in_map_iff in Hin as (r & <- & _). apply tanh_num.
Qed.

(** C9: [tanh] returns exactly 1 above 100 and exactly -1 below -100, and
    raises nothing on any number; so [Tanh.forward] maps an entry 150 to
    1 and an entry -150 to -1.  On a well-shaped tensor, [Tanh.forward]
    returns the element-wise [tanh] and caches that output, and
    [Tanh.backward] returns [(1 - tanh^2) * gradient] element-wise, [tanh]
    being the cached output. *)
Theorem tanh_clamp_and_layer
    (sigmoid : value -> M value) (dot : value -> value -> M value)
    (x : R) (ds : list nat) (t g : value) (c : option value) (w : world) :
  (exists y, tanh (VNum x) w = Ok (VNum y, w)) /\
  (100 < x -> tanh (VNum x) w = Ok (VNum 1, w)) /\
  (x < -100 -> tanh (VNum x) w = Ok (VNum (-1), w)) /\
  forward sigmoid dot (Tanh c) (vector [150]) w
  = Ok ((vector [1], Tanh (Some (vector [1]))), w) /\
  forward sigmoid dot (Tanh c) (vector [-150]) w
  = Ok ((vector [-1], Tanh (Some (vector [-1]))), w) /\
  (ds <> [] -> has_shape ds t = true -> has_shape ds g = true ->
   exists out,
     forward sigmoid dot (Tanh c) t w = Ok ((out, Tanh (Some out)), w) /\
     image (fun a y => y = tanh_value a) ds t out /\
     exists r,
       backward (Tanh (Some out)) g w = Ok ((r, Tanh (Some out)), w) /\
       combined tanh_backward_value ds out g r).
Proof.
  split; [eexists; apply tanh_num|].
  split; [intros H; now rewrite tanh_num, tanh_value_high|].
  split; [intros H; now rewrite tanh_num, tanh_value_low|].
  split.
  { rewrite Tanh_forward_vector. simpl map.
    rewrite tanh_value_high by lra. reflexivity. }
  split.
  { rewrite Tanh_forward_vector. simpl map.
    rewrite tanh_value_low by lra. reflexivity. }
  intros Hne Ht Hg.
  destruct (tensor_apply_shaped (fun a y => y = tanh_value a) eq
              (fun w => eq_refl) (fun w1 w2 w3 => @eq_trans _ w1 w2 w3) tanh)
    with (ds := ds) (t := t) (w := w) as (out & w' & Hout & Him & <-); auto.
  { intros a w0. exists (tanh_value a), w0. now rewrite tanh_num. }
  exists out. unfold forward, backward. rewrite (bind_Ok _ _ _ _ _ Hout).
  split; [reflexivity|]. split; [assumption|].
  destruct (tensor_combine_shaped tanh_backward_value tanh_backward_fn
              tanh_backward_fn_num ds out g w Hne (proj1 Him) Hg)
    as (r & Hr & Hcomb).
  exists r. unfold attr, bind at 1, ret at 1.
  rewrite (bind_Ok _ _ _ _ _ Hr). split; [reflexivity | assumption].
Qed.

Lemma tanh_clamp_and_layer_witness :
  tanh (VNum 150) quiet_world = Ok (VNum 1, quiet_world) /\
  tanh (VNum (-150)) quiet_world = Ok (VNum (-1), quiet_world) /\
  exists out,
    forward (fun v => ret v) (fun v _ => ret v) (Tanh None)
            (VList [vector [150; 0]; vector [0; -150]]) quiet_world
    = Ok ((out, Tanh (Some out)), quiet_world) /\
    image (fun a y => y = tanh_value a) [2; 2]%nat
          (VList [vector [150; 0]; vector [0; -150]]) out /\
    exists r,
      backward (Tanh (Some out)) (VList [vector [1; 2]; vector [3; 4]])
               quiet_world
      = Ok ((r, Tanh (Some out)), quiet_world) /\
      combined tanh_backward_value [2; 2]%nat out
               (VList [vector [1; 2]; vector [3; 4]]) r.
Proof.
  split.
  { apply (tanh_clamp_and_layer (fun v => ret v) (fun v _ => ret v) 150
             [2; 2]%nat (VList [vector [150; 0]; vector [0; -150]])
             (VList [vector [1; 2]; vector [3; 4]]) None quiet_world). lra. }
  split.
  { apply (tanh_clamp_and_layer (fun v => ret v) (fun v _ => ret v) (-150)
             [2; 2]%nat (VList [vector [150; 0]; vector [0; -150]])
             (VList [vector [1; 2]; vector [3; 4]]) None quiet_world). lra. }
  apply (tanh_clamp_and_layer (fun v => ret v) (fun v _ => ret v) 150
           [2; 2]%nat (VList [vector [150; 0]; vector [0; -150]])
           (VList [vector [1; 2]; vector [3; 4]]) None quiet_world).
  - discriminate.
  - reflexivity.
  - reflexivity.
Defined.

(** ** The [Dropout] layer *)

Lemma zipM_never {A B C} (G : A -> B -> M C) (e : exn) l1 l2 w :
  Forall (fun a => forall b w, G a b w <> Raise e) l1 ->
  zipM G l1 l2 w <> Raise e.
Proof.
  intros H. revert l2 w.
  induction H as [|a l1 Ha _ IH]; intros [|b l2] w; try discriminate.
  simpl. unfold bind. specialize (Ha b w).
  destruct (G a b w) as [[c w1]|e1]; [|congruence].
  specialize (IH l2 w1). destruct (zipM G l1 l2 w1) as [[cs w2]|e2];
    [discriminate | congruence].
Qed.

(** [tensor_combine] raises a [RuntimeError] only if [f] does. *)
Lemma tensor_combine_no_RuntimeError f t1 :
  (forall a b w, f a b w <> Raise RuntimeError) ->
  forall t2 w, tensor_combine f t1 t2 w <> Raise RuntimeError.
Proof.
  intros Hf. induction t1 as [x|l1 IH|] using value_nested_ind;
    intros t2 w; try discriminate.
  rewrite tensor_combine_eq. unfold bind.
  destruct (is_1d (VList l1) w) as [[c w1]|e] eqn:E1.
  2:{ unfold is_1d, py_index, bind in E1.
      destruct (l1 !! 0%nat); inversion E1; congruence. }
  assert (w1 = w) as ->.
  { unfold is_1d, py_index, bind in E1.
    destruct (l1 !! 0%nat); inversion E1; reflexivity. }
  destruct t2 as [y|l2|]; simpl; try congruence.
  assert (zipM (if c then f else tensor_combine f) l1 l2 w
          <> Raise RuntimeError) as Hz.
  { apply zipM_never. destruct c.
    - apply List.Forall_forall. intros a _ b w'. apply Hf.
    - exact IH. }
  destruct (zipM _ l1 l2 w) as [[r w2]|e]; unfold ret; congruence.
Qed.

Lemma py_mul_no_RuntimeError a b w : py_mul a b w <> Raise RuntimeError.
Proof. destruct a, b; discriminate. Qed.

(** The mask entry drawn for one element: 0 when the draw is below [p]. *)
Lemma dropout_mask_fn_num p x w :
  exists y w',
    dropout_mask_fn p (VNum x) w = Ok (VNum y, w') /\
    (y = 0 \/ y = 1) /\
    (heap w' = heap w /\ next_loc w' = next_loc w).
Proof.
  unfold dropout_mask_fn, random_random, py_lt, bind, ret.
  destruct (Rlt_dec (rng w 0%nat) p); eexists _, _;
    (split; [reflexivity|]); simpl; auto.
Qed.

(** C7: [Dropout.backward] raises the [RuntimeError] of misuse exactly
    when the train flag is false.  In training mode with a cached mask of
    the shape of the gradient it returns the element-wise product of the
    gradient and the mask; and the mask that a training-mode [forward]
    caches is a tensor of zeros and ones shaped like the input, so that
    each entry of the returned gradient is the incoming entry or zero. *)
Theorem Dropout_backward_spec
    (sigmoid : value -> M value) (dot : value -> value -> M value)
    (p : R) (train : bool) (mask c : option value)
    (ds : list nat) (input g m : value) (w : world) :
  (backward (Dropout p train mask) g w = Raise RuntimeError <->
   train = false) /\
  (ds <> [] -> has_shape ds g = true -> has_shape ds m = true ->
   exists r,
     backward (Dropout p true (Some m)) g w
     = Ok ((r, Dropout p true (Some m)), w) /\
     combined Rmult ds g m r) /\
  (ds <> [] -> has_shape ds input = true -> has_shape ds g = true ->
   exists m' out w',
     forward sigmoid dot (Dropout p true c) input w
     = Ok ((out, Dropout p true (Some m')), w') /\
     heap w' = heap w /\
     image (fun _ y => y = 0 \/ y = 1) ds input m' /\
     combined Rmult ds input m' out /\
     exists r,
       backward (Dropout p true (Some m')) g w'
       = Ok ((r, Dropout p true (Some m')), w') /\
       combined Rmult ds g m' r /\
       forall idx x, leaf g idx = Some x ->
                     leaf r idx = Some x \/ leaf r idx = Some 0).
Proof.
  assert (Hback : forall m0 w0,
    ds <> [] -> has_shape ds g = true -> has_shape ds m0 = true ->
    exists r,
      backward (Dropout p true (Some m0)) g w0
      = Ok ((r, Dropout p true (Some m0)), w0) /\
      combined Rmult ds g m0 r).
  { intros m0 w0 Hne Hg Hm.
    destruct (tensor_combine_shaped Rmult py_mul py_mul_num ds g m0 w0
                Hne Hg Hm) as (r & Hr & Hcomb).
    exists r. unfold backward, attr, bind at 1, ret at 1.
    rewrite (bind_Ok _ _ _ _ _ Hr). split; [reflexivity | assumption]. }
  split; [|split].
  - split.
    + destruct train; [|reflexivity]. intros H. exfalso. revert H.
      unfold backward, bind at 1. destruct (attr mask w) as [[m0 w1]|e] eqn:E.
      * pose proof (tensor_combine_no_RuntimeError py_mul g
                      py_mul_no_RuntimeError m0 w1) as Hn.
        unfold bind. destruct (tensor_combine py_mul g m0 w1) as [[r w2]|e];
          [discriminate | congruence].
      * destruct mask; inversion E. discriminate.
    + intros ->. reflexivity.
  - apply Hback.
  - intros Hne Hin Hg.
    destruct (tensor_apply_shaped (fun _ y => y = 0 \/ y = 1)
                (fun w w' => heap w' = heap w /\ next_loc w' = next_loc w))
      with (f := dropout_mask_fn p) (ds := ds) (t := input) (w := w)
      as (m' & w' & Hm & Him & Hheap & _); auto.
    { intros w1 w2 w3 [H1 H2] [H3 H4]. split; congruence. }
    { apply dropout_mask_fn_num. }
    destruct (tensor_combine_shaped Rmult py_mul py_mul_num ds input m' w'
                Hne Hin (proj1 Him)) as (out & Hout & Hcomb).
    exists m', out, w'. unfold forward.
    rewrite (bind_Ok _ _ _ _ _ Hm), (bind_Ok _ _ _ _ _ Hout).
    split; [reflexivity|]. split; [assumption|]. split; [assumption|].
    split; [assumption|].
    destruct (Hback m' w' Hne Hg (proj1 Him)) as (r & Hr & Hrc).
    exists r. split; [assumption|]. split; [assumption|].
    intros idx x Hx. destruct Hrc as [_ Hrc]. rewrite Hrc, Hx.
    destruct Him as [_ Him]. specialize (Him idx).
    clear Hcomb.
    unfold leaf_rel, leaf_map2 in *.
    destruct (leaf m' idx) as [y|] eqn:Ey.
    + destruct (leaf input idx); [|contradiction].
      destruct Him as [-> | ->]; [right | left]; f_equal; lra.
    + exfalso. destruct (leaf input idx) eqn:Ei; [contradiction|].
      clear - Hx Ei Hin Hg Hne.
      revert input g Hin Hg Hx Ei. clear Hne.
      induction ds as [|n ds IH] in idx |- *; intros input g Hin Hg Hx Ei.
      * apply has_shape_num in Hin as [a ->].
        apply has_shape_num in Hg as [b ->].
        destruct idx; simpl in *; discriminate.
      * destruct input as [|li|]; try discriminate.
        destruct g as [|lg|]; try discriminate.
        apply has_shape_cons in Hin as (Hl1 & _ & Ha1).
        apply has_shape_cons in Hg as (Hl2 & _ & Ha2).
        destruct idx as [|i idx]; simpl in *; [discriminate|].
        destruct (lg !! i) as [gi|] eqn:Eg; [|discriminate].
        destruct (li !! i) as [ii|] eqn:Eii.
        -- eapply (IH idx ii gi); eauto.
           ++ rewrite List.Forall_forall in Ha1. apply Ha1.
              apply list_elem_of_In. eapply list_elem_of_lookup_2; eauto.
           ++ rewrite List.Forall_forall in Ha2. apply Ha2.
              apply list_elem_of_In. eapply list_elem_of_lookup_2; eauto.
        -- apply lookup_lt_Some in Eg. apply lookup_ge_None in Eii. lia.
Qed.

Lemma Dropout_backward_spec_witness :
  (exists r,
     backward (Dropout (1/2) true (Some (vector [1; 0]))) (vector [5; 7])
              quiet_world
     = Ok ((r, Dropout (1/2) true (Some (vector [1; 0]))), quiet_world) /\
     combined Rmult [2%nat] (vector [5; 7]) (vector [1; 0]) r) /\
  (exists m' out w',
     forward (fun v => ret v) (fun v _ => ret v) (Dropout (1/2) true None)
             (vector [3; 4]) quiet_world
     = Ok ((out, Dropout (1/2) true (Some m')), w') /\
     heap w' = heap quiet_world /\
     image (fun _ y => y = 0 \/ y = 1) [2%nat] (vector [3; 4]) m' /\
     combined Rmult [2%nat] (vector [3; 4]) m' out /\
     exists r,
       backward (Dropout (1/2) true (Some m')) (vector [5; 7]) w'
       = Ok ((r, Dropout (1/2) true (Some m')), w') /\
       combined Rmult [2%nat] (vector [5; 7]) m' r /\
       forall idx x, leaf (vector [5; 7]) idx = Some x ->
                     leaf r idx = Some x \/ leaf r idx = Some 0).
Proof.
  pose proof (Dropout_backward_spec (fun v => ret v) (fun v _ => ret v)
                (1/2) true None None [2%nat] (vector [3; 4]) (vector [5; 7])
                (vector [1; 0]) quiet_world) as (_ & H2 & H3).
  split.
  - apply H2; [discriminate | reflexivity | reflexivity].
  - apply H3; [discriminate | reflexivity | reflexivity].
Defined.

(** ** The [Sequential] layer *)

Lemma thread_reversed_snoc {L} (step : L -> value -> M (value * L))
      ls l x w :
  thread_reversed step (ls ++ [l]) x w =
  (r <- step l x ;;
   r' <- thread_reversed step ls (fst r) ;;
   ret (fst r', snd r' ++ [snd r])) w.
Proof.
  revert w. induction ls as [|a ls IH]; intros w; simpl.
  - unfold bind, ret. simpl.
    destruct (step l x w) as [[[y l'] w']|e]; reflexivity.
  - unfold bind at 1. rewrite IH. unfold bind, ret.
    destruct (step l x w) as [[[y l'] w1]|e]; [|reflexivity]. simpl.
    destruct (thread_reversed step ls y w1) as [[[z ls'] w2]|e]; [|reflexivity].
    simpl. destruct (step a z w2) as [[[u a'] w3]|e]; reflexivity.
Qed.

Lemma attr_inv o w v w' : attr o w = Ok (v, w') -> o = Some v /\ w' = w.
Proof. destruct o; simpl; unfold ret, raise; intros H; inversion H; auto. Qed.

Lemma mapM_grads_inv (ls : list layer) w gss w' :
  Forall (fun l => forall w gs w',
            grads l w = Ok (gs, w') ->
            w' = w /\ length gs = length (params l)) ls ->
  mapM grads ls w = Ok (gss, w') -> w' = w /\ chunks w ls gss.
Proof.
  intros H. revert gss. induction H as [|l ls Hl _ IH]; intros gss Hm.
  - inversion Hm. split; [reflexivity | constructor].
  - simpl in Hm. apply bind_inv in Hm as (gs & w1 & Hg & Hm).
    apply bind_inv in Hm as (gss' & w2 & Hm & Hr).
    inversion Hr; subst. destruct (Hl _ _ _ Hg) as [-> Hlen].
    destruct (IH _ Hm) as [-> HF]. split; [reflexivity|].
    constructor; auto.
Qed.

(** [grads] reads attributes only, and yields as many tensors as
    [params] yields parameters. *)
Lemma grads_length l :
  forall w gs w', grads l w = Ok (gs, w') ->
  w' = w /\ length gs = length (params l).
Proof.
  induction l as [c|n m wl b i wg bg|ls IH|c|c|p t m] using layer_nested_ind;
    intros w gs w' H; try (inversion H; subst; auto; fail).
  - simpl in H. apply bind_inv in H as (a & w1 & Ha & H).
    apply bind_inv in H as (c & w2 & Hc & H).
    apply attr_inv in Ha as [_ ->]. apply attr_inv in Hc as [_ ->].
    inversion H; subst. auto.
  - simpl in H. apply bind_inv in H as (gss & w1 & Hm & H).
    inversion H; subst. destruct (mapM_grads_inv _ _ _ _ IH Hm) as [-> HF].
    split; [reflexivity|]. clear -HF.
    induction HF as [|l gs ls gss [_ Hlen] _ IHF]; [reflexivity|].
    change (params (Sequential (l :: ls)))
      with (params l ++ params (Sequential ls)).
    simpl concat. rewrite !length_app. congruence.
Qed.

Lemma mapM_grads_chunks w ls gss :
  Forall2 (fun l gs => grads l w = Ok (gs, w)) ls gss ->
  mapM grads ls w = Ok (gss, w).
Proof.
  induction 1 as [|l gs ls gss Hl _ IH]; [reflexivity|].
  simpl. unfold bind. now rewrite Hl, IH.
Qed.

(** C4: [Sequential.forward] passes the input through the sub-layers in
    declaration order, each output being the next input, and returns the
    last output; [Sequential.backward] passes the gradient through the
    sub-layers from the last to the first and returns the last result;
    [params()] and [grads()] are the concatenations, in sub-layer order,
    of the sub-layers' sequences, chunk by chunk of equal length, a
    sub-layer without parameters contributing nothing to either. *)
Theorem Sequential_spec
    (sigmoid : value -> M value) (dot : value -> value -> M value)
    (l : layer) (ls : list layer) (x g : value)
    (gs : list value) (gss : list (list value)) (w w' : world) :
  forward sigmoid dot (Sequential []) x w = Ok ((x, Sequential []), w) /\
  forward sigmoid dot (Sequential (l :: ls)) x w =
    (r <- forward sigmoid dot l x ;;
     r' <- forward sigmoid dot (Sequential ls) (fst r) ;;
     ret (fst r', Sequential (snd r :: sub_layers (snd r')))) w /\
  backward (Sequential []) g w = Ok ((g, Sequential []), w) /\
  backward (Sequential (ls ++ [l])) g w =
    (r <- backward l g ;;
     r' <- backward (Sequential ls) (fst r) ;;
     ret (fst r', Sequential (sub_layers (snd r') ++ [snd r]))) w /\
  params (Sequential ls) = concat (map params ls) /\
  (grads (Sequential ls) w = Ok (gs, w') ->
   w' = w /\ length gs = length (params (Sequential ls)) /\
   exists gss', gs = concat gss' /\ chunks w ls gss') /\
  (Forall2 (fun l gs => grads l w = Ok (gs, w)) ls gss ->
   grads (Sequential ls) w = Ok (concat gss, w)) /\
  (forall c p t,
     params (Sigmoid c) = [] /\ grads (Sigmoid c) w = Ok ([], w) /\
     params (Tanh c) = [] /\ grads (Tanh c) w = Ok ([], w) /\
     params (Relu c) = [] /\ grads (Relu c) w = Ok ([], w) /\
     params (Dropout p t c) = [] /\ grads (Dropout p t c) w = Ok ([], w)).
Proof.
  split; [reflexivity|]. split.
  { simpl. unfold bind, ret.
    destruct (forward sigmoid dot l x w) as [[[y l'] w1]|e]; [|reflexivity].
    simpl.
    destruct (thread (forward sigmoid dot) ls y w1) as [[[z ls'] w2]|e];
      reflexivity. }
  split; [reflexivity|]. split.
  { unfold backward at 1; fold backward. unfold bind at 1.
    rewrite thread_reversed_snoc. unfold bind, ret.
    destruct (backward l g w) as [[[y l'] w1]|e]; [|reflexivity].
    simpl. unfold bind, ret.
    destruct (thread_reversed backward ls y w1) as [[[z ls'] w2]|e];
      reflexivity. }
  split.
  { simpl. now rewrite flat_map_concat_map. }
  split.
  { intros H. destruct (grads_length _ _ _ _ H) as [-> Hlen].
    split; [reflexivity|]. split; [assumption|].
    simpl in H. apply bind_inv in H as (gss' & w1 & Hm & H).
    inversion H; subst. exists gss'. split; [reflexivity|].
    eapply mapM_grads_inv; [|exact Hm].
    apply List.Forall_forall. intros l0 _ ? ? ?. apply grads_length. }
  split.
  { intros HF. simpl. unfold bind. now rewrite (mapM_grads_chunks _ _ _ HF). }
  intros c p t. repeat split.
Qed.

Lemma Sequential_spec_witness :
  (quiet_world = quiet_world /\
   length [VList [vector [2]]; vector [3]]
   = length (params (Sequential
                       [Linear 1 1 0 1 None (Some (VList [vector [2]]))
                               (Some (vector [3]));
                        Tanh None])) /\
   exists gss',
     [VList [vector [2]]; vector [3]] = concat gss' /\
     chunks quiet_world
            [Linear 1 1 0 1 None (Some (VList [vector [2]]))
                    (Some (vector [3]));
             Tanh None] gss') /\
  grads (Sequential [Linear 1 1 0 1 None (Some (VList [vector [2]]))
                            (Some (vector [3]));
                     Tanh None]) quiet_world
  = Ok (concat [[VList [vector [2]]; vector [3]]; []], quiet_world).
Proof.
  pose proof (Sequential_spec (fun v => ret v) (fun v _ => ret v)
                (Tanh None)
                [Linear 1 1 0 1 None (Some (VList [vector [2]]))
                        (Some (vector [3]));
                 Tanh None]
                VNone VNone [VList [vector [2]]; vector [3]]
                [[VList [vector [2]]; vector [3]]; []]
                quiet_world quiet_world)
    as (_ & _ & _ & _ & _ & H1 & H2 & _).
  split; [apply H1; reflexivity|].
  apply H2. repeat constructor.
Defined.

(** ** The [Linear] layer *)

Lemma py_sum_from_nums a l w :
  py_sum_from (VNum a) (map VNum l) w = Ok (VNum (fold_left Rplus l a), w).
Proof.
  revert a. induction l as [|x l IH]; intros a; [reflexivity|].
  simpl. unfold bind. simpl. apply IH.
Qed.

Lemma py_sum_nums l w : py_sum (map VNum l) w = Ok (VNum (sum_R l), w).
Proof. apply py_sum_from_nums. Qed.

Lemma lookup_map_nth {A B} (f : A -> B) (d : A) l i :
  (i < length l)%nat -> map f l !! i = Some (f (nth i l d)).
Proof.
  revert i. induction l as [|x l IH]; intros [|i] H; simpl in *;
    try lia; [reflexivity|]. apply IH. lia.
Qed.

Lemma py_index_vector xs i w :
  (i < length xs)%nat ->
  py_index (vector xs) i w = Ok (VNum (nth i xs 0), w).
Proof.
  intros H. unfold py_index, vector. now rewrite (lookup_map_nth VNum 0).
Qed.

Lemma py_index_matrix W o w :
  (o < length W)%nat ->
  py_index (matrix W) o w = Ok (vector (nth o W []), w).
Proof.
  intros H. unfold py_index, matrix. now rewrite (lookup_map_nth vector []).
Qed.

Lemma range_of_nat n : range (Z.of_nat n) = seq 0 n.
Proof. unfold range. now rewrite Nat2Z.id. Qed.

Lemma leaf_vector xs i :
  (i < length xs)%nat -> leaf (vector xs) [i] = Some (nth i xs 0).
Proof.
  intros H. unfold vector. simpl. now rewrite (lookup_map_nth VNum 0).
Qed.

Lemma leaf_matrix W o i :
  (o < length W)%nat -> (i < length (nth o W []))%nat ->
  leaf (matrix W) [o; i] = Some (entry W o i).
Proof.
  intros Ho Hi. unfold matrix. simpl.
  rewrite (lookup_map_nth vector []) by assumption.
  unfold vector. now rewrite (lookup_map_nth VNum 0).
Qed.

Lemma Linear_backward_eq n m wl bl xs gs W wg bg w :
  length xs = n -> length gs = m -> length W = m ->
  Forall (fun row => length row = n) W ->
  heap w !! wl = Some (matrix W) ->
  backward (Linear (Z.of_nat n) (Z.of_nat m) wl bl (Some (vector xs)) wg bg)
           (vector gs) w
  = Ok ((vector (transpose_product n m W gs),
         Linear (Z.of_nat n) (Z.of_nat m) wl bl (Some (vector xs))
                (Some (matrix (outer_product n m xs gs)))
                (Some (vector gs))), w).
Proof.
  intros Hxs Hgs HW Hrows Hheap. unfold backward. rewrite !range_of_nat.
  rewrite (bind_Ok _ _ w
             (map (fun o => vector (map (fun i => nth i xs 0 * nth o gs 0)
                                        (seq 0 n))) (seq 0 m)) w).
  2:{ apply mapM_pure. intros o Ho. apply in_seq in Ho.
      rewrite (bind_Ok _ _ w
                 (map VNum (map (fun i => nth i xs 0 * nth o gs 0)
                                (seq 0 n))) w); [reflexivity|].
      rewrite map_map. apply mapM_pure. intros i Hi. apply in_seq in Hi.
      unfold attr, bind at 1, ret at 1.
      rewrite (bind_Ok _ _ _ _ _ (py_index_vector xs i w ltac:(lia))).
      rewrite (bind_Ok _ _ _ _ _ (py_index_vector gs o w ltac:(lia))).
      reflexivity. }
  rewrite (bind_Ok _ _ w
             (map (fun i => VNum (sum_R (map (fun o => entry W o i * nth o gs 0)
                                             (seq 0 m)))) (seq 0 n)) w).
  2:{ apply mapM_pure. intros i Hi. apply in_seq in Hi.
      rewrite (bind_Ok _ _ w
                 (map VNum (map (fun o => entry W o i * nth o gs 0)
                                (seq 0 m))) w); [apply py_sum_nums|].
      rewrite map_map. apply mapM_pure. intros o Ho. apply in_seq in Ho.
      unfold load, bind at 1. rewrite Hheap.
      rewrite (bind_Ok _ _ _ _ _ (py_index_matrix W o w ltac:(lia))).
      assert (length (nth o W []) = n) as Hrow.
      { rewrite List.Forall_forall in Hrows. apply Hrows, nth_In. lia. }
      rewrite (bind_Ok _ _ _ _ _
                 (py_index_vector (nth o W []) i w ltac:(lia))).
      rewrite (bind_Ok _ _ _ _ _ (py_index_vector gs o w ltac:(lia))).
      reflexivity. }
  unfold ret, vector, matrix, transpose_product, outer_product.
  now rewrite !map_map.
Qed.

Lemma nth_map_seq {A} (f : nat -> A) (d : A) n i :
  (i < n)%nat -> nth i (map f (seq 0 n)) d = f i.
Proof.
  intros H. rewrite (nth_indep _ d (f 0%nat)) by now rewrite length_map, length_seq.
  rewrite map_nth, seq_nth by assumption. reflexivity.
Qed.

Lemma entry_outer_product n m xs gs o i :
  (o < m)%nat -> (i < n)%nat ->
  entry (outer_product n m xs gs) o i = nth i xs 0 * nth o gs 0.
Proof.
  intros Ho Hi. unfold entry, outer_product.
  rewrite (nth_map_seq _ [] m o Ho).
  exact (nth_map_seq (fun i => nth i xs 0 * nth o gs 0) 0 n i Hi).
Qed.

(** C1: after a forward call, which caches its input [x], [backward] on a
    rank-1 gradient [g] of length [output_dim] sets the bias gradient to
    [g] itself and the weight gradient to the outer product
    [w_grad[o][i] = x[i] * g[o]], and returns the input gradient whose
    entry [i] is the sum over [o] of [w[o][i] * g[o]]; [params()] is
    [[w, b]] and [grads()] is [[w_grad, b_grad]]. *)
Theorem Linear_backward_spec
    (sigmoid : value -> M value) (dot : value -> value -> M value)
    (n m wl bl : nat) (xs gs : list R) (W : list (list R))
    (c wg bg : option value) (y a b : value) (L' : layer) (w w' : world) :
  (forward sigmoid dot (Linear (Z.of_nat n) (Z.of_nat m) wl bl c wg bg)
           (vector xs) w = Ok ((y, L'), w') ->
   L' = Linear (Z.of_nat n) (Z.of_nat m) wl bl (Some (vector xs)) wg bg) /\
  (forward sigmoid dot (Linear (Z.of_nat n) (Z.of_nat m) wl bl c wg bg)
           (vector xs) w = Ok ((y, L'), w') ->
   length xs = n -> length gs = m -> length W = m ->
   Forall (fun row => length row = n) W ->
   heap w' !! wl = Some (matrix W) ->
   exists gin w_grad,
     backward L' (vector gs) w'
     = Ok ((vector gin,
            Linear (Z.of_nat n) (Z.of_nat m) wl bl (Some (vector xs))
                   (Some (matrix w_grad)) (Some (vector gs))), w') /\
     w_grad = outer_product n m xs gs /\
     gin = transpose_product n m W gs /\
     (forall o i, (o < m)%nat -> (i < n)%nat ->
        leaf (matrix w_grad) [o; i] = Some (nth i xs 0 * nth o gs 0)) /\
     (forall i, (i < n)%nat ->
        leaf (vector gin) [i]
        = Some (sum_R (map (fun o => entry W o i * nth o gs 0) (seq 0 m))))) /\
  params (Linear (Z.of_nat n) (Z.of_nat m) wl bl c wg bg) = [wl; bl] /\
  grads (Linear (Z.of_nat n) (Z.of_nat m) wl bl c (Some a) (Some b)) w
  = Ok ([a; b], w).
Proof.
  assert (Hcache :
    forward sigmoid dot (Linear (Z.of_nat n) (Z.of_nat m) wl bl c wg bg)
            (vector xs) w = Ok ((y, L'), w') ->
    L' = Linear (Z.of_nat n) (Z.of_nat m) wl bl (Some (vector xs)) wg bg).
  { intros H. unfold forward in H. apply bind_inv in H as (r & w1 & _ & H).
    now inversion H. }
  split; [exact Hcache|]. split; [|split; reflexivity].
  intros Hf Hxs Hgs HW Hrows Hheap. rewrite (Hcache Hf).
  exists (transpose_product n m W gs), (outer_product n m xs gs).
  split; [now apply Linear_backward_eq|].
  split; [reflexivity|]. split; [reflexivity|]. split.
  - intros o i Ho Hi. rewrite leaf_matrix.
    + now rewrite entry_outer_product.
    + unfold outer_product. now rewrite length_map, length_seq.
    + unfold outer_product. rewrite (nth_map_seq _ [] m o Ho).
      now rewrite length_map, length_seq.
  - intros i Hi. rewrite leaf_vector.
    + unfold transpose_product. now rewrite (nth_map_seq _ 0 n i Hi).
    + unfold transpose_product. now rewrite length_map, length_seq.
Qed.

Lemma Linear_backward_spec_witness :
  Linear 2 1 0 1 (Some (vector [3; 4])) None None
  = Linear 2 1 0 1 (Some (vector [3; 4])) None None /\
  exists gin w_grad,
    backward (Linear 2 1 0 1 (Some (vector [3; 4])) None None) (vector [7])
             linear_world
    = Ok ((vector gin,
           Linear 2 1 0 1 (Some (vector [3; 4]))
                  (Some (matrix w_grad)) (Some (vector [7]))), linear_world) /\
    w_grad = outer_product 2 1 [3; 4] [7] /\
    gin = transpose_product 2 1 [[1; 2]] [7] /\
    (forall o i, (o < 1)%nat -> (i < 2)%nat ->
       leaf (matrix w_grad) [o; i] = Some (nth i [3; 4] 0 * nth o [7] 0)) /\
    (forall i, (i < 2)%nat ->
       leaf (vector gin) [i]
       = Some (sum_R (map (fun o => entry [[1; 2]] o i * nth o [7] 0)
                          (seq 0 1)))).
Proof.
  pose proof (Linear_backward_spec (fun v => ret v) (fun _ _ => ret (VNum 0))
                2 1 0 1 [3; 4] [7] [[1; 2]] None None None
                (vector [0 + 5])
                VNone VNone
                (Linear 2 1 0 1 (Some (vector [3; 4])) None None)
                linear_world linear_world) as (H1 & H2 & _).
  split.
  - apply H1. reflexivity.
  - apply H2.
    + reflexivity.
    + reflexivity.
    + reflexivity.
    + reflexivity.
    + repeat constructor.
    + reflexivity.
Defined.

(** ** Random initializers *)

Lemma mapM_normal_leaf icdf mean variance (l : list nat) w :
  mapM (fun _ => normal_leaf icdf mean variance) l w
  = Ok (map VNum (map (fun k => mean + variance * icdf (rng w k))
                      (seq 0 (length l))),
        advance (length l) w).
Proof.
  revert w. induction l as [|x l IH]; intros w.
  - destruct w; reflexivity.
  - simpl mapM. unfold bind at 1.
    unfold normal_leaf at 1, random_random, bind at 1, ret at 1.
    unfold bind at 1. rewrite IH. unfold ret. cbn [length seq map].
    rewrite <- (seq_shift (length l) 0), !map_map. reflexivity.
Qed.

(** C5, what the code does: a leaf of [random_normal] is
    [mean + variance * z], the normal deviate [z] being multiplied by the
    parameter named [variance] itself, not by its square root.  With
    [variance = 4] the leaf is [0 + 4 * z], which is the [0 + sqrt 4 * z]
    of the claim only when [z = 0].  The [xavier] initializer does pass
    [len(dims) / sum(dims)] as that parameter. *)
Theorem random_normal_scales_by_variance
    (inverse_normal_cdf : R -> R) (n : nat) (dims : list Z)
    (mean variance : R) (w : world) :
  random_normal inverse_normal_cdf [Z.of_nat n] mean variance w
  = Ok (vector (map (fun k => mean + variance * inverse_normal_cdf (rng w k))
                    (seq 0 n)),
        advance n w) /\
  random_normal inverse_normal_cdf [1%Z] 0 4 w
  = Ok (vector [0 + 4 * inverse_normal_cdf (rng w 0%nat)], advance 1 w) /\
  (0 + 4 * inverse_normal_cdf (rng w 0%nat)
   = 0 + sqrt 4 * inverse_normal_cdf (rng w 0%nat)
   <-> inverse_normal_cdf (rng w 0%nat) = 0) /\
  random_tensor inverse_normal_cdf dims "xavier" w
  = if Z.eqb (sum_dims dims) 0 then Raise ZeroDivisionError
    else random_normal inverse_normal_cdf dims 0
           (IZR (Z.of_nat (length dims)) / IZR (sum_dims dims)) w.
Proof.
  assert (H : forall k m v,
    random_normal inverse_normal_cdf [Z.of_nat k] m v w
    = Ok (vector (map (fun i => m + v * inverse_normal_cdf (rng w i))
                      (seq 0 k)),
          advance k w)).
  { intros k m v. unfold random_normal. rewrite range_of_nat.
    unfold bind. rewrite mapM_normal_leaf, length_seq. reflexivity. }
  split; [apply H|]. split; [apply (H 1%nat)|]. split.
  - assert (sqrt 4 = 2) as ->.
    { replace 4 with (2 * 2) by lra. apply sqrt_square. lra. }
    split; intros E; lra.
  - unfold random_tensor. simpl.
    destruct (Z.eqb (sum_dims dims) 0); reflexivity.
Qed.

(** ** [softmax] and [SoftmaxCrossEntropy] on rank-1 tensors *)

Lemma py_max_from_nums c l w :
  py_max_from (VNum c) (map VNum l) w = Ok (VNum (largest_from c l), w).
Proof.
  revert c. induction l as [|x l IH]; intros c; [reflexivity|].
  simpl. unfold bind, py_gt, py_lt, ret. rewrite <- IH.
  destruct (Rlt_dec c x); reflexivity.
Qed.

Lemma largest_from_ge c l :
  c <= largest_from c l /\ forall x, In x l -> x <= largest_from c l.
Proof.
  revert c. induction l as [|y l IH]; intros c; simpl.
  - split; [lra | contradiction].
  - set (c' := if Rlt_dec c y then y else c).
    destruct (IH c') as [Hc' Hl].
    assert (c <= c' /\ y <= c') as [? ?].
    { unfold c'. destruct (Rlt_dec c y); lra. }
    split; [lra|]. intros x [<-|Hin]; [lra | auto].
Qed.

Lemma largest_ge xs x : In x xs -> x <= largest xs.
Proof.
  destruct xs as [|c l]; [contradiction|]. simpl.
  destruct (largest_from_ge c l) as [Hc Hl]. intros [<-|Hin]; auto.
Qed.

Lemma fold_left_Rplus_pos l a :
  (forall x, In x l -> 0 < x) ->
  a <= fold_left Rplus l a /\ (l <> [] -> a < fold_left Rplus l a).
Proof.
  revert a. induction l as [|y l IH]; intros a H; simpl.
  - split; [lra | congruence].
  - destruct (IH (a + y)) as [Hle _]; [intros; apply H; now right|].
    pose proof (H y (or_introl eq_refl)). split; [lra | intros _; lra].
Qed.

Lemma sum_exps_pos xs M : xs <> [] -> 0 < sum_R (map (fun x => exp (x - M)) xs).
Proof.
  intros Hne. apply fold_left_Rplus_pos.
  - intros e He. apply in_map_iff in He as (x & <- & _). apply exp_pos.
  - destruct xs; [congruence | discriminate].
Qed.

Lemma softmax_value_pos xs p : xs <> [] -> In p (softmax_value xs) -> 0 < p.
Proof.
  intros Hne Hin. unfold softmax_value in Hin.
  apply in_map_iff in Hin as (e & <- & He).
  apply in_map_iff in He as (x & <- & _).
  apply Rdiv_lt_0_compat; [apply exp_pos | now apply sum_exps_pos].
Qed.

(** [softmax] on a non-empty list of numbers raises nothing: [math.exp]
    is called on non-positive arguments, and the sum of the exponentials,
    the divisor, is positive. *)
Lemma softmax_vector xs w :
  xs <> [] -> softmax (vector xs) w = Ok (vector (softmax_value xs), w).
Proof.
  intros Hne. destruct xs as [|x0 xs0] eqn:Exs; [congruence|].
  rewrite <- Exs in *. unfold softmax.
  rewrite (bind_Ok _ _ w true w) by (rewrite Exs; reflexivity).
  unfold vector at 1, py_iter, bind at 1, ret at 1.
  rewrite (bind_Ok _ _ w (VNum (largest xs)) w).
  2:{ rewrite Exs. simpl. apply py_max_from_nums. }
  rewrite (bind_Ok _ _ w (map VNum (map (fun x => exp (x - largest xs)) xs)) w).
  2:{ rewrite mapM_map, map_map. apply mapM_pure. intros x Hx.
      unfold bind, py_sub, ret, math_exp.
      destruct (Rlt_dec exp_max (x - largest xs)) as [Hov|_]; [|reflexivity].
      pose proof (largest_ge xs x Hx). unfold exp_max in Hov. lra. }
  rewrite (bind_Ok _ _ _ _ _ (py_sum_nums _ w)).
  rewrite (bind_Ok _ _ w (map VNum (softmax_value xs)) w); [reflexivity|].
  unfold softmax_value. rewrite !mapM_map, !map_map. apply mapM_pure.
  intros x Hx. unfold py_div.
  destruct (Req_dec_T _ 0) as [Hz|_]; [|reflexivity].
  pose proof (sum_exps_pos xs (largest xs) Hne). lra.
Qed.

Lemma largest_from_in c l : largest_from c l = c \/ In (largest_from c l) l.
Proof.
  revert c. induction l as [|y l IH]; intros c; simpl; [now left|].
  destruct (IH (if Rlt_dec c y then y else c)) as [E|Hin]; [|now right; right].
  rewrite E. destruct (Rlt_dec c y); [right; now left | now left].
Qed.

Lemma largest_in xs : xs <> [] -> In (largest xs) xs.
Proof.
  destruct xs as [|c l]; [congruence|]. intros _. simpl.
  destruct (largest_from_in c l) as [->|H]; auto.
Qed.

Lemma tensor_sum_vector zs w :
  zs <> [] -> tensor_sum (vector zs) w = Ok (VNum (sum_R zs), w).
Proof.
  destruct zs as [|z zs]; [congruence|]. intros _.
  exact (py_sum_nums (z :: zs) w).
Qed.

Lemma softmax_value_stable :
  softmax_value [1000; 1000; 1000] = [1/3; 1/3; 1/3].
Proof.
  assert (largest [1000; 1000; 1000] = 1000) as E.
  { unfold largest, largest_from. simpl.
    destruct (Rlt_dec 1000 1000) as [H|_]; [lra|].
    destruct (Rlt_dec 1000 1000) as [H|_]; [lra | reflexivity]. }
  unfold softmax_value. rewrite E. unfold sum_R. simpl.
  replace (1000 - 1000) with 0 by lra. rewrite exp_0.
  repeat f_equal; lra.
Qed.

(** C2: on a rank-1 tensor, [softmax] subtracts the largest element,
    exponentiates and divides by the sum of the exponentials, raising
    nothing (on [[1000, 1000, 1000]] the result is [[1/3, 1/3, 1/3]]);
    the loss is the negated sum of [actual * log(probability + 1e-30)],
    and the gradient is [probability - actual], element by element. *)
Theorem SoftmaxCrossEntropy_spec (xs ys : list R) (w : world) :
  (xs <> [] ->
   softmax (vector xs) w = Ok (vector (softmax_value xs), w) /\
   In (largest xs) xs /\ (forall x, In x xs -> x <= largest xs)) /\
  softmax (vector [1000; 1000; 1000]) w = Ok (vector [1/3; 1/3; 1/3], w) /\
  (xs <> [] -> ys <> [] ->
   SoftmaxCrossEntropy_loss (vector xs) (vector ys) w
   = Ok (VNum (- sum_R (map (fun pa => snd pa * ln (fst pa + 1e-30))
                            (combine (softmax_value xs) ys))), w)) /\
  (xs <> [] ->
   SoftmaxCrossEntropy_gradient (vector xs) (vector ys) w
   = Ok (vector (map (fun pa => fst pa - snd pa)
                     (combine (softmax_value xs) ys)), w)).
Proof.
  assert (Hps : xs <> [] -> softmax_value xs <> []).
  { destruct xs; [congruence | discriminate]. }
  split; [|split; [|split]].
  - intros Hne. split; [now apply softmax_vector|].
    split; [now apply largest_in | apply largest_ge].
  - rewrite softmax_vector by discriminate. now rewrite softmax_value_stable.
  - intros Hx Hy. unfold SoftmaxCrossEntropy_loss.
    rewrite (bind_Ok _ _ _ _ _ (softmax_vector xs w Hx)).
    rewrite (bind_Ok _ _ w
               (vector (map (fun pa => ln (fst pa + 1e-30) * snd pa)
                            (combine (softmax_value xs) ys))) w).
    2:{ apply (tensor_combine_vector sce_loss_fn
                 (fun p a => ln (p + 1e-30) * a)); [|auto].
        intros p a Hp. apply (softmax_value_pos xs p Hx) in Hp.
        unfold sce_loss_fn, bind, py_add, ret, math_log.
        destruct (Rle_dec (p + 1e-30) 0) as [Hle|_]; [lra | reflexivity]. }
    rewrite (bind_Ok _ _ w
               (VNum (sum_R (map (fun pa => ln (fst pa + 1e-30) * snd pa)
                                 (combine (softmax_value xs) ys)))) w).
    2:{ apply tensor_sum_vector.
        specialize (Hps Hx). destruct (softmax_value xs), ys;
          [congruence | congruence | congruence | discriminate]. }
    unfold py_neg, ret. do 4 f_equal. f_equal.
    apply map_ext. intros [p a]. simpl. lra.
  - intros Hx. unfold SoftmaxCrossEntropy_gradient.
    rewrite (bind_Ok _ _ _ _ _ (softmax_vector xs w Hx)).
    apply (tensor_combine_vector sce_gradient_fn Rminus); [|auto].
    intros p a _. reflexivity.
Qed.

Lemma SoftmaxCrossEntropy_spec_witness :
  (softmax (vector [1; 2]) quiet_world
   = Ok (vector (softmax_value [1; 2]), quiet_world) /\
   In (largest [1; 2]) [1; 2] /\ (forall x, In x [1; 2] -> x <= largest [1; 2])) /\
  SoftmaxCrossEntropy_loss (vector [1; 2]) (vector [0; 1]) quiet_world
  = Ok (VNum (- sum_R (map (fun pa => snd pa * ln (fst pa + 1e-30))
                           (combine (softmax_value [1; 2]) [0; 1]))),
        quiet_world) /\
  SoftmaxCrossEntropy_gradient (vector [1; 2]) (vector [0; 1]) quiet_world
  = Ok (vector (map (fun pa => fst pa - snd pa)
                    (combine (softmax_value [1; 2]) [0; 1])), quiet_world).
Proof.
  pose proof (SoftmaxCrossEntropy_spec [1; 2] [0; 1] quiet_world)
    as (H1 & _ & H2 & H3).
  split; [apply H1; discriminate|].
  split; [apply H2; discriminate | apply H3; discriminate].
Defined.

(** ** The [Momentum] optimizer *)

Lemma momentum_fn_num mo u g w :
  momentum_fn mo (VNum u) (VNum g) w = Ok (VNum (momentum_value mo u g), w).
Proof. reflexivity. Qed.

Lemma momentum_step_fn_num lr p u w :
  momentum_step_fn lr (VNum p) (VNum u) w = Ok (VNum (step_value lr p u), w).
Proof. reflexivity. Qed.

Lemma momentum_loop_spec lr mo :
  forall us ps gs dss w,
    length ps = length us -> length gs = length us ->
    length dss = length us ->
    NoDup (us ++ ps) ->
    momentum_ready dss us ps gs (heap w) ->
    exists w',
      momentum_loop lr mo us ps gs w = Ok (tt, w') /\
      next_loc w' = next_loc w /\ rng w' = rng w /\
      (forall a, a ∉ us -> a ∉ ps -> heap w' !! a = heap w !! a) /\
      momentum_updated lr mo dss us ps gs (heap w) (heap w').
Proof.
  induction us as [|u us IH]; intros ps gs dss w Hps Hgs Hdss Hnd Hready.
  { exists w. destruct ps, gs; try discriminate.
    repeat split; auto. intros i u p g ds Hu. discriminate. }
  destruct ps as [|p ps]; [discriminate|].
  destruct gs as [|g gs]; [discriminate|].
  destruct dss as [|ds dss]; [discriminate|].
  destruct (Hready 0%nat u p g ds eq_refl eq_refl eq_refl eq_refl)
    as (Hne & Hg & uv & pv & Hu & Hp & Huv & Hpv).
  (* the addresses of this triple differ from each other and from the rest *)
  apply NoDup_cons in Hnd as [Hu_fresh Hnd].
  assert (u <> p) as Hup.
  { intros ->. apply Hu_fresh. apply elem_of_app. right. left. }
  assert ((u ∉ us) /\ (u ∉ ps)) as [Hu_us Hu_ps].
  { split; intros Hin; apply Hu_fresh; apply elem_of_app;
      [left | right; right]; assumption. }
  assert ((p ∉ us) /\ (p ∉ ps) /\ NoDup (us ++ ps)) as (Hp_us & Hp_ps & Hnd').
  { apply NoDup_app in Hnd as (Hnd1 & Hdisj & Hnd2).
    apply NoDup_cons in Hnd2 as [Hp_ps Hnd2].
    split; [|split; [assumption|]].
    - intros Hin. apply (Hdisj p Hin). left.
    - apply NoDup_app. split; [assumption|]. split; [|assumption].
      intros a Ha Ha'. apply (Hdisj a Ha). now right. }
  destruct (tensor_combine_shaped (momentum_value mo) (momentum_fn mo)
              (momentum_fn_num mo) ds uv g w Hne Huv Hg)
    as (uv' & Hcu & Hcomb_u).
  set (w1 := World (<[u := uv']> (heap w)) (next_loc w) (rng w)).
  destruct (tensor_combine_shaped (step_value lr) (momentum_step_fn lr)
              (momentum_step_fn_num lr) ds pv uv' w1 Hne Hpv (proj1 Hcomb_u))
    as (pv' & Hcp & Hcomb_p).
  set (w2 := World (<[p := pv']> (heap w1)) (next_loc w1) (rng w1)).
  destruct (IH ps gs dss w2) as (w' & Hloop & Hnext & Hrng & Hframe & Hupd);
    try (simpl in *; lia); [assumption| |].
  { intros i u' p' g' ds' Hu' Hp' Hg' Hds'.
    destruct (Hready (S i) u' p' g' ds' Hu' Hp' Hg' Hds')
      as (Hne' & Hsg & uv0 & pv0 & Hu0 & Hp0 & Hs1 & Hs2).
    split; [assumption|]. split; [assumption|]. exists uv0, pv0.
    assert (u' ∈ us) by (eapply list_elem_of_lookup_2; eauto).
    assert (p' ∈ ps) by (eapply list_elem_of_lookup_2; eauto).
    simpl. rewrite !lookup_insert_ne by congruence. auto. }
  exists w'. split.
  { simpl. unfold bind at 1, load at 1. rewrite Hu.
    rewrite (bind_Ok _ _ _ _ _ Hcu). unfold bind at 1, store at 1.
    fold w1. unfold bind at 1, load at 1. simpl heap.
    rewrite lookup_insert_ne by congruence. rewrite Hp.
    unfold bind at 1, load at 1. simpl heap. rewrite lookup_insert_eq.
    rewrite (bind_Ok _ _ _ _ _ Hcp). unfold bind at 1, store at 1.
    fold w2. exact Hloop. }
  split; [now rewrite Hnext|]. split; [now rewrite Hrng|]. split.
  { intros a Ha1 Ha2. rewrite not_elem_of_cons in Ha1, Ha2.
    destruct Ha1, Ha2. rewrite Hframe by assumption.
    simpl. now rewrite !lookup_insert_ne by congruence. }
  intros [|i] u' p' g' ds' Hu' Hp' Hg' Hds'; simpl in *.
  - inversion Hu'; inversion Hp'; inversion Hg'; inversion Hds'; subst.
    exists uv, pv, uv', pv'. rewrite !Hframe by assumption. simpl.
    rewrite lookup_insert_eq, lookup_insert_ne, lookup_insert_eq by congruence.
    auto 10.
  - destruct (Hupd i u' p' g' ds' Hu' Hp' Hg' Hds')
      as (uv0 & pv0 & uv0' & pv0' & H1 & H2 & H3 & H4 & H5 & H6).
    exists uv0, pv0, uv0', pv0'.
    assert (u' ∈ us) by (eapply list_elem_of_lookup_2; eauto).
    assert (p' ∈ ps) by (eapply list_elem_of_lookup_2; eauto).
    simpl in H1, H2. rewrite !lookup_insert_ne in H1, H2 by congruence.
    auto 10.
Qed.

(** [grads] does not depend on the world. *)
Lemma grads_any_world l :
  forall w gs w0, grads l w = Ok (gs, w) -> grads l w0 = Ok (gs, w0).
Proof.
  induction l as [c|n m wl b i wg bg|ls IH|c|c|p t m] using layer_nested_ind;
    intros w gs w0 H; try (inversion H; subst; reflexivity).
  - simpl in *. destruct wg, bg; inversion H; subst; reflexivity.
  - simpl in *. apply bind_inv in H as (gss & w1 & Hm & H).
    inversion H; subst. unfold bind.
    assert (mapM grads ls w0 = Ok (gss, w0)) as ->; [|reflexivity].
    clear H. revert gss Hm.
    induction IH as [|l ls Hl _ IHls]; intros gss Hm.
    + inversion Hm; subst. reflexivity.
    + simpl in Hm. apply bind_inv in Hm as (g1 & w1 & Hg & Hm).
      apply bind_inv in Hm as (gss' & w2 & Hm & Hr).
      inversion Hr; subst.
      destruct (grads_length _ _ _ _ Hg) as [-> _].
      simpl. unfold bind.
      rewrite (Hl _ _ w0 Hg), (IHls _ Hm). reflexivity.
Qed.

Lemma zero_like_shaped ds g w :
  ds <> [] -> has_shape ds g = true ->
  exists z, zero_like g w = Ok (z, w) /\ zero_filled ds g z.
Proof.
  intros Hne Hg.
  destruct (tensor_apply_shaped (fun _ y => y = 0) eq
              (fun w => eq_refl) (fun w1 w2 w3 => @eq_trans _ w1 w2 w3)
              (fun _ => ret (VNum 0)))
    with (ds := ds) (t := g) (w := w) as (z & w' & Hz & Him & <-); auto.
  { intros x w0. exists 0, w0. auto. }
  exists z. auto.
Qed.

(** The lazy allocation of the velocities: one new list object per
    gradient, at the next unused addresses, zero-filled and shaped like
    the gradient; nothing else changes. *)
Lemma allocate_velocities :
  forall gs dss w,
    Forall2 (fun ds g => ds <> [] /\ has_shape ds g = true) dss gs ->
    exists w0,
      mapM (fun grad => z <- zero_like grad ;; alloc z) gs w
      = Ok (seq (next_loc w) (length gs), w0) /\
      next_loc w0 = (next_loc w + length gs)%nat /\
      rng w0 = rng w /\
      (forall a, (a < next_loc w)%nat -> heap w0 !! a = heap w !! a) /\
      (forall i g ds, gs !! i = Some g -> dss !! i = Some ds ->
         exists z, heap w0 !! (next_loc w + i)%nat = Some z /\
                   zero_filled ds g z).
Proof.
  intros gs dss w H. revert w.
  induction H as [|ds g dss gs [Hne Hg] _ IH]; intros w.
  { exists w. repeat split; auto; try (simpl; lia).
    intros i g ds Hi. discriminate. }
  destruct (zero_like_shaped ds g w Hne Hg) as (z & Hz & Hzero).
  set (w1 := World (<[next_loc w := z]> (heap w)) (S (next_loc w)) (rng w)).
  destruct (IH w1) as (w0 & Hm & Hnext & Hrng & Hframe & Hnew).
  exists w0. split.
  { assert ((z <- zero_like g ;; alloc z) w = Ok (next_loc w, w1)) as Hstep.
    { rewrite (bind_Ok _ _ _ _ _ Hz). reflexivity. }
    change (mapM ?f (g :: gs)) with (y <- f g ;; ys <- mapM f gs ;; ret (y :: ys)).
    rewrite (bind_Ok _ _ _ _ _ Hstep), (bind_Ok _ _ _ _ _ Hm). reflexivity. }
  split; [rewrite Hnext; simpl; lia|]. split; [now rewrite Hrng|]. split.
  { intros a Ha. rewrite Hframe by (simpl; lia). simpl.
    apply lookup_insert_ne. lia. }
  intros [|i] g' ds' Hg' Hds'; simpl in *.
  - inversion Hg'; inversion Hds'; subst. exists z.
    rewrite Nat.add_0_r, Hframe by lia. simpl.
    now rewrite lookup_insert_eq.
  - destruct (Hnew i g' ds' Hg' Hds') as (z' & Hz' & Hzero').
    exists z'. split; [|assumption].
    replace (next_loc w + S i)%nat with (S (next_loc w) + i)%nat by lia.
    exact Hz'.
Qed.

Lemma momentum_ready_intro dss us ps gs (h : gmap nat value) :
  Forall2 (fun ds g => ds <> [] /\ has_shape ds g = true) dss gs ->
  Forall2 (fun ds p => exists pv, h !! p = Some pv /\ has_shape ds pv = true)
          dss ps ->
  Forall2 (fun ds u => exists uv, h !! u = Some uv /\ has_shape ds uv = true)
          dss us ->
  momentum_ready dss us ps gs h.
Proof.
  intros Hg Hp Hu i u p g ds Hiu Hip Hig Hids.
  destruct (Forall2_lookup_lr _ _ _ _ _ _ Hg Hids Hig) as [Hne Hsg].
  destruct (Forall2_lookup_lr _ _ _ _ _ _ Hp Hids Hip) as (pv & Hpv & Hsp).
  destruct (Forall2_lookup_lr _ _ _ _ _ _ Hu Hids Hiu) as (uv & Huv & Hsu).
  split; [assumption|]. split; [assumption|]. exists uv, pv. auto.
Qed.

(** C3: a [Momentum] optimizer without velocities (as on its first call
    of [step]) allocates one new list object per gradient of the layer,
    zero-filled and shaped like that gradient.  Every call of [step] then
    updates, for each (velocity, parameter, gradient) triple in positional
    order, the velocity to [mo * velocity + (1 - mo) * gradient] and the
    parameter to [parameter - lr * velocity] for the new velocity, entry
    by entry; both are written into the list objects themselves, whose
    addresses the optimizer and the layer keep, and no other object
    changes. *)
Theorem Momentum_step_spec
    (self : Momentum) (l : layer) (gs : list value)
    (dss : list (list nat)) (w : world) :
  grads l w = Ok (gs, w) ->
  Forall2 (fun ds g => ds <> [] /\ has_shape ds g = true) dss gs ->
  Forall2 (fun ds p => exists pv, heap w !! p = Some pv /\
                                  has_shape ds pv = true) dss (params l) ->
  (updates self = [] ->
   NoDup (params l) ->
   Forall (fun p => (p < next_loc w)%nat) (params l) ->
   exists w0 w',
     mapM (fun grad => z <- zero_like grad ;; alloc z) gs w
     = Ok (seq (next_loc w) (length gs), w0) /\
     (forall i g ds, gs !! i = Some g -> dss !! i = Some ds ->
        exists z, heap w0 !! (next_loc w + i)%nat = Some z /\
                  zero_filled ds g z /\ shape z w0 = shape g w0) /\
     (forall a, (a < next_loc w)%nat -> heap w0 !! a = heap w !! a) /\
     Momentum_step self l w
     = Ok (Momentum_init (lr self) (mo self) (seq (next_loc w) (length gs)),
           w') /\
     momentum_updated (lr self) (mo self) dss
       (seq (next_loc w) (length gs)) (params l) gs (heap w0) (heap w')) /\
  (Forall2 (fun ds u => exists uv, heap w !! u = Some uv /\
                                   has_shape ds uv = true)
           dss (updates self) ->
   NoDup (updates self ++ params l) ->
   exists w',
     Momentum_step self l w = Ok (self, w') /\
     next_loc w' = next_loc w /\ rng w' = rng w /\
     (forall a, a ∉ updates self -> a ∉ params l ->
                heap w' !! a = heap w !! a) /\
     momentum_updated (lr self) (mo self) dss (updates self) (params l) gs
       (heap w) (heap w')).
Proof.
  intros Hgrads Hgs Hps.
  pose proof (Forall2_length _ _ _ Hgs) as Hlen_g.
  pose proof (Forall2_length _ _ _ Hps) as Hlen_p.
  destruct self as [lr0 mo0 us]. simpl. split.
  - intros -> Hnd Hlt.
    destruct (allocate_velocities gs dss w Hgs)
      as (w0 & Hm & Hnext & Hrng & Hframe & Hnew).
    destruct (momentum_loop_spec lr0 mo0 (seq (next_loc w) (length gs))
                (params l) gs dss w0)
      as (w' & Hloop & _ & _ & _ & Hupd).
    + rewrite length_seq. congruence.
    + now rewrite length_seq.
    + rewrite length_seq. congruence.
    + apply NoDup_app. split; [apply NoDup_seq|]. split; [|assumption].
      intros a Ha Ha'. apply elem_of_seq in Ha.
      rewrite List.Forall_forall in Hlt.
      apply list_elem_of_In in Ha'. specialize (Hlt a Ha'). lia.
    + intros i u p g ds Hu Hp Hg Hds.
      destruct (Forall2_lookup_lr _ _ _ _ _ _ Hgs Hds Hg) as [Hne Hsg].
      destruct (Forall2_lookup_lr _ _ _ _ _ _ Hps Hds Hp) as (pv & Hpv & Hsp).
      destruct (Hnew i g ds Hg Hds) as (z & Hz & Hzero).
      apply lookup_seq in Hu as [-> _].
      split; [assumption|]. split; [assumption|]. exists z, pv.
      split; [assumption|]. split; [|split; [apply Hzero | assumption]].
      rewrite Hframe; [assumption|].
      rewrite List.Forall_forall in Hlt. apply Hlt.
      apply list_elem_of_In. eapply list_elem_of_lookup_2; eauto.
    + exists w0, w'. split; [assumption|]. split.
      { intros i g ds Hg Hds. destruct (Hnew i g ds Hg Hds) as (z & Hz & Hzero).
        destruct (Forall2_lookup_lr _ _ _ _ _ _ Hgs Hds Hg) as [_ Hsg].
        exists z. split; [assumption|]. split; [assumption|].
        now rewrite (shape_shaped ds z w0 (proj1 Hzero)),
                    (shape_shaped ds g w0 Hsg). }
      split; [assumption|]. split; [|assumption].
      unfold Momentum_step. simpl updates.
      rewrite (bind_Ok _ _ w (seq (next_loc w) (length gs)) w0).
      2:{ now rewrite (bind_Ok _ _ _ _ _ Hgrads). }
      rewrite (bind_Ok _ _ _ _ _ (grads_any_world l w gs w0 Hgrads)).
      simpl. now rewrite (bind_Ok _ _ _ _ _ Hloop).
  - intros Hus Hnd.
    pose proof (Forall2_length _ _ _ Hus) as Hlen_u.
    destruct (momentum_loop_spec lr0 mo0 us (params l) gs dss w)
      as (w' & Hloop & Hnext & Hrng & Hframe & Hupd);
      try congruence; [now apply momentum_ready_intro|].
    exists w'. split; [|auto].
    unfold Momentum_step. simpl.
    destruct us as [|u us].
    + (* no velocity: no gradient either, and nothing to allocate *)
      destruct dss; [|discriminate]. destruct gs; [|discriminate].
      rewrite (bind_Ok _ _ w [] w) by now rewrite (bind_Ok _ _ _ _ _ Hgrads).
      rewrite (bind_Ok _ _ _ _ _ Hgrads).
      now rewrite (bind_Ok _ _ _ _ _ Hloop).
    + unfold bind at 1, ret at 1.
      rewrite (bind_Ok _ _ _ _ _ Hgrads).
      now rewrite (bind_Ok _ _ _ _ _ Hloop).
Qed.

Lemma Momentum_step_spec_witness :
  (exists w0 w',
     mapM (fun grad => z <- zero_like grad ;; alloc z)
          [matrix [[3; 4]]; vector [7]] momentum_world
     = Ok ([4; 5]%nat, w0) /\
     (forall i g ds,
        [matrix [[3; 4]]; vector [7]] !! i = Some g ->
        [[1; 2]; [1]]%nat !! i = Some ds ->
        exists z, heap w0 !! (4 + i)%nat = Some z /\ zero_filled ds g z /\
                  shape z w0 = shape g w0) /\
     (forall a, (a < 4)%nat -> heap w0 !! a = heap momentum_world !! a) /\
     Momentum_step (Momentum_init (1/10) (9/10) []) momentum_layer
                   momentum_world
     = Ok (Momentum_init (1/10) (9/10) [4; 5]%nat, w') /\
     momentum_updated (1/10) (9/10) [[1; 2]; [1]]%nat [4; 5]%nat [0; 1]%nat
       [matrix [[3; 4]]; vector [7]] (heap w0) (heap w')) /\
  (exists w',
     Momentum_step (Momentum_init (1/10) (9/10) [2; 3]%nat) momentum_layer
                   momentum_world
     = Ok (Momentum_init (1/10) (9/10) [2; 3]%nat, w') /\
     next_loc w' = 4%nat /\ rng w' = rng momentum_world /\
     (forall a, a ∉ [2; 3]%nat -> a ∉ [0; 1]%nat ->
                heap w' !! a = heap momentum_world !! a) /\
     momentum_updated (1/10) (9/10) [[1; 2]; [1]]%nat [2; 3]%nat [0; 1]%nat
       [matrix [[3; 4]]; vector [7]] (heap momentum_world) (heap w')).
Proof.
  assert (Hgs : Forall2 (fun ds g => ds <> [] /\ has_shape ds g = true)
                        [[1; 2]; [1]]%nat [matrix [[3; 4]]; vector [7]]).
  { repeat constructor; discriminate. }
  assert (Hps : Forall2 (fun ds p => exists pv,
                           heap momentum_world !! p = Some pv /\
                           has_shape ds pv = true)
                        [[1; 2]; [1]]%nat (params momentum_layer)).
  { constructor; [eexists; split; reflexivity|].
    constructor; [eexists; split; reflexivity | constructor]. }
  split.
  - apply (Momentum_step_spec (Momentum_init (1/10) (9/10) []) momentum_layer
             [matrix [[3; 4]]; vector [7]] [[1; 2]; [1]]%nat momentum_world
             eq_refl Hgs Hps).
    + reflexivity.
    + apply (bool_decide_unpack _). reflexivity.
    + repeat constructor.
  - apply (Momentum_step_spec (Momentum_init (1/10) (9/10) [2; 3]%nat)
             momentum_layer
             [matrix [[3; 4]]; vector [7]] [[1; 2]; [1]]%nat momentum_world
             eq_refl Hgs Hps).
    + constructor; [eexists; split; reflexivity|].
      constructor; [eexists; split; reflexivity | constructor].
    + apply (bool_decide_unpack _). reflexivity.
Defined.

(** * Further properties of the tensor utilities *)

Lemma Forall_lookup_shape ds (l : list value) i x :
  Forall (fun t => has_shape ds t = true) l -> l !! i = Some x ->
  has_shape ds x = true.
Proof.
  intros H Hi. rewrite List.Forall_forall in H. apply H.
  apply list_elem_of_In. eapply list_elem_of_lookup_2; eauto.
Qed.

(** Two tensors of one shape with the same leaves are equal. *)
Lemma tensor_ext ds :
  forall a b, has_shape ds a = true -> has_shape ds b = true ->
  (forall idx, leaf a idx = leaf b idx) -> a = b.
Proof.
  induction ds as [|n ds IH]; intros a b Ha Hb H.
  - apply has_shape_num in Ha as [x ->]. apply has_shape_num in Hb as [y ->].
    specialize (H []). simpl in H. congruence.
  - destruct a as [|l1|]; try discriminate.
    destruct b as [|l2|]; try discriminate.
    apply has_shape_cons in Ha as (Hl1 & _ & Ha).
    apply has_shape_cons in Hb as (Hl2 & _ & Hb).
    f_equal. apply list_eq. intros i.
    destruct (l1 !! i) as [x|] eqn:E1, (l2 !! i) as [y|] eqn:E2.
    + f_equal. apply IH.
      * exact (Forall_lookup_shape ds l1 i x Ha E1).
      * exact (Forall_lookup_shape ds l2 i y Hb E2).
      * intros idx. specialize (H (i :: idx)). simpl in H.
        now rewrite E1, E2 in H.
    + apply lookup_lt_Some in E1. apply lookup_ge_None in E2. lia.
    + apply lookup_ge_None in E1. apply lookup_lt_Some in E2. lia.
    + reflexivity.
Qed.

Lemma tensor_apply_pure f (g : R -> R) ds t w :
  (forall x w, f (VNum x) w = Ok (VNum (g x), w)) ->
  ds <> [] -> has_shape ds t = true ->
  exists t',
    tensor_apply f t w = Ok (t', w) /\ has_shape ds t' = true /\
    forall idx, leaf t' idx = option_map g (leaf t idx).
Proof.
  intros Hf Hne Ht.
  destruct (tensor_apply_shaped (fun x y => y = g x) eq
              (fun w => eq_refl) (fun w1 w2 w3 => @eq_trans _ w1 w2 w3) f)
    with (ds := ds) (t := t) (w := w) as (t' & w' & Ht' & [Hs Him] & <-); auto.
  { intros x w0. exists (g x), w0. auto. }
  exists t'. split; [assumption|]. split; [assumption|].
  intros idx. specialize (Him idx). unfold leaf_rel in Him.
  destruct (leaf t idx), (leaf t' idx); simpl; try contradiction; congruence.
Qed.

(** X1: on a well-shaped tensor, [zero_like] returns a tensor of the same
    [shape] whose leaves are all 0, and changes nothing. *)
Theorem zero_like_spec (ds : list nat) (t : value) (w : world) :
  ds <> [] -> has_shape ds t = true ->
  exists z,
    zero_like t w = Ok (z, w) /\
    shape z w = Ok (ds, w) /\ shape t w = Ok (ds, w) /\
    (forall idx x, leaf t idx = Some x -> leaf z idx = Some 0) /\
    (forall idx, leaf t idx = None -> leaf z idx = None).
Proof.
  intros Hne Ht.
  destruct (tensor_apply_pure (fun _ => ret (VNum 0)) (fun _ => 0) ds t w)
    as (z & Hz & Hs & Hl); auto.
  exists z. split; [exact Hz|].
  split; [now apply shape_shaped|]. split; [now apply shape_shaped|].
  split; intros idx; [intros x Hx | intros Hx]; now rewrite Hl, Hx.
Qed.

Lemma zero_like_spec_witness :
  exists z,
    zero_like (VList [vector [1; 2]; vector [3; 4]]) quiet_world
    = Ok (z, quiet_world) /\
    shape z quiet_world = Ok ([2; 2]%nat, quiet_world) /\
    shape (VList [vector [1; 2]; vector [3; 4]]) quiet_world
    = Ok ([2; 2]%nat, quiet_world) /\
    (forall idx x, leaf (VList [vector [1; 2]; vector [3; 4]]) idx = Some x ->
                   leaf z idx = Some 0) /\
    (forall idx, leaf (VList [vector [1; 2]; vector [3; 4]]) idx = None ->
                 leaf z idx = None).
Proof.
  apply (zero_like_spec [2; 2]%nat (VList [vector [1; 2]; vector [3; 4]])
           quiet_world); [discriminate | reflexivity].
Defined.

(** X2: [shape] reads the dimensions along the first elements only.  It
    returns the dimensions of a well-shaped tensor; it raises [IndexError]
    when that path ends in an empty list; and it does not look at the
    other elements: ragged nesting goes unnoticed. *)
Theorem shape_first_path (ds : list nat) (t x : value)
    (rest rest' : list value) (w : world) :
  (has_shape ds t = true -> shape t w = Ok (ds, w)) /\
  (length rest = length rest' ->
   shape (VList (x :: rest)) w = shape (VList (x :: rest')) w) /\
  (shape x w = Raise IndexError ->
   shape (VList (x :: rest)) w = Raise IndexError) /\
  shape (VList []) w = Raise IndexError.
Proof.
  split; [apply shape_shaped|]. split; [|split; [|reflexivity]].
  - intros H. simpl. now rewrite H.
  - intros H. simpl. unfold bind. now rewrite H.
Qed.

Lemma shape_first_path_witness :
  shape (VList [vector [1; 2]; vector [3; 4]]) quiet_world
  = Ok ([2; 2]%nat, quiet_world) /\
  shape (VList [vector [1; 2]; vector [3; 4]]) quiet_world
  = shape (VList [vector [1; 2]; VNum 7]) quiet_world /\
  shape (VList [VList []; vector [3]]) quiet_world = Raise IndexError.
Proof.
  pose proof (shape_first_path [2; 2]%nat
                (VList [vector [1; 2]; vector [3; 4]])
                (vector [1; 2]) [vector [3; 4]] [VNum 7] quiet_world)
    as (H1 & H2 & _).
  pose proof (shape_first_path [] VNone (VList []) [vector [3]] []
                quiet_world) as (_ & _ & H3 & _).
  split; [apply H1; reflexivity|].
  split; [apply H2; reflexivity | apply H3; reflexivity].
Defined.

Lemma fold_left_Rplus_acc l a :
  fold_left Rplus l a = a + fold_left Rplus l 0.
Proof.
  revert a. induction l as [|x l IH]; intros a; simpl; [lra|].
  rewrite (IH (a + x)), (IH (0 + x)). lra.
Qed.

Lemma sum_R_app l1 l2 : sum_R (l1 ++ l2) = sum_R l1 + sum_R l2.
Proof.
  unfold sum_R. rewrite fold_left_app.
  now rewrite (fold_left_Rplus_acc l2 (fold_left Rplus l1 0)).
Qed.

Lemma sum_R_cons x l : sum_R (x :: l) = x + sum_R l.
Proof. unfold sum_R. simpl. rewrite fold_left_Rplus_acc. lra. Qed.

Lemma numbers_leaves l :
  Forall (fun t => has_shape [] t = true) l ->
  l = map VNum (flat_map leaves l).
Proof.
  induction 1 as [|t l Ht _ IH]; [reflexivity|].
  apply has_shape_num in Ht as [x ->]. simpl. now rewrite <- IH.
Qed.

Lemma py_sum_gen_nums g (h : value -> R) l a w :
  (forall x, In x l -> g x w = Ok (VNum (h x), w)) ->
  py_sum_gen g (VNum a) l w = Ok (VNum (fold_left Rplus (map h l) a), w).
Proof.
  revert a. induction l as [|x l IH]; intros a H; [reflexivity|].
  simpl. unfold bind at 1. rewrite H by (now left).
  unfold bind at 1. simpl. apply IH. intros; apply H; now right.
Qed.

Lemma sum_R_flat_map (h : value -> list R) l :
  fold_left Rplus (map (fun t => sum_R (h t)) l) 0 = sum_R (flat_map h l).
Proof.
  induction l as [|x l IH]; [reflexivity|].
  simpl. rewrite sum_R_app, fold_left_Rplus_acc, IH. lra.
Qed.

Lemma tensor_sum_shaped (ds : list nat) :
  forall (t : value) (w : world),
    ds <> [] -> has_shape ds t = true ->
    tensor_sum t w = Ok (VNum (sum_R (leaves t)), w).
Proof.
  induction ds as [|n ds IH]; intros t w Hne Ht; [congruence|].
  destruct t as [|l|]; try discriminate.
  pose proof (is_1d_shaped _ _ _ w Ht) as H1d.
  apply has_shape_cons in Ht as (Hlen & Hn & Hall).
  rewrite tensor_sum_eq, (bind_Ok _ _ _ _ _ H1d).
  unfold py_iter, bind at 1, ret at 1. destruct ds as [|n' ds'].
  - rewrite (numbers_leaves l Hall) at 1. apply py_sum_nums.
  - rewrite (py_sum_gen_nums tensor_sum (fun t => sum_R (leaves t))).
    + simpl leaves. now rewrite sum_R_flat_map.
    + intros x Hx. apply IH; [discriminate|].
      rewrite List.Forall_forall in Hall. now apply Hall.
Qed.

(** X3: on a well-shaped tensor of any rank, [tensor_sum] returns the sum
    of all the leaves, and raises nothing; on the empty list it raises
    [IndexError] and on a number [TypeError]. *)
Theorem tensor_sum_leaves (ds : list nat) (t : value) (x : R) (w : world) :
  (ds <> [] -> has_shape ds t = true ->
   tensor_sum t w = Ok (VNum (sum_R (leaves t)), w)) /\
  tensor_sum (VList []) w = Raise IndexError /\
  tensor_sum (VNum x) w = Raise TypeError.
Proof.
  split; [apply tensor_sum_shaped|]. split; reflexivity.
Qed.

Lemma tensor_sum_leaves_witness :
  tensor_sum (VList [vector [1; 2]; vector [3; 4]]) quiet_world
  = Ok (VNum (sum_R (leaves (VList [vector [1; 2]; vector [3; 4]]))),
        quiet_world).
Proof.
  apply (tensor_sum_leaves [2; 2]%nat (VList [vector [1; 2]; vector [3; 4]])
           0 quiet_world); [discriminate | reflexivity].
Defined.

(** X4: [tensor_apply] of a function that maps the number [x] to [g x] on
    a well-shaped tensor returns the tensor of the same shape whose leaves
    are the [g]-images, leaves the world alone, and two successive
    applications are one application of the composition.  On the empty
    list it raises [IndexError], on a number [TypeError]. *)
Theorem tensor_apply_elementwise
    (f1 f2 : value -> M value) (g1 g2 : R -> R)
    (ds : list nat) (t : value) (x : R) (w : world) :
  (forall x w, f1 (VNum x) w = Ok (VNum (g1 x), w)) ->
  (forall x w, f2 (VNum x) w = Ok (VNum (g2 x), w)) ->
  (ds <> [] -> has_shape ds t = true ->
   exists t1,
     tensor_apply f1 t w = Ok (t1, w) /\ has_shape ds t1 = true /\
     (forall idx, leaf t1 idx = option_map g1 (leaf t idx)) /\
     (t2 <- tensor_apply f1 t ;; tensor_apply f2 t2) w
     = tensor_apply (fun v => v1 <- f1 v ;; f2 v1) t w) /\
  tensor_apply f1 (VList []) w = Raise IndexError /\
  tensor_apply f1 (VNum x) w = Raise TypeError.
Proof.
  intros Hf1 Hf2. split; [|split; reflexivity].
  intros Hne Ht.
  destruct (tensor_apply_pure f1 g1 ds t w Hf1 Hne Ht) as (t1 & H1 & Hs1 & Hl1).
  exists t1. split; [assumption|]. split; [assumption|]. split; [assumption|].
  destruct (tensor_apply_pure f2 g2 ds t1 w Hf2 Hne Hs1)
    as (t2 & H2 & Hs2 & Hl2).
  destruct (tensor_apply_pure (fun v => v1 <- f1 v ;; f2 v1)
              (fun x => g2 (g1 x)) ds t w) as (t3 & H3 & Hs3 & Hl3); auto.
  { intros y w0. unfold bind. now rewrite Hf1, Hf2. }
  rewrite (bind_Ok _ _ _ _ _ H1), H2, H3. do 2 f_equal.
  apply (tensor_ext ds); auto.
  intros idx. rewrite Hl2, Hl1, Hl3. now destruct (leaf t idx).
Qed.

Lemma tensor_apply_elementwise_witness :
  exists t1,
    tensor_apply (fun v => py_mul (VNum 2) v)
                 (VList [vector [1; 2]; vector [3; 4]]) quiet_world
    = Ok (t1, quiet_world) /\
    has_shape [2; 2]%nat t1 = true /\
    (forall idx, leaf t1 idx
       = option_map (Rmult 2) (leaf (VList [vector [1; 2]; vector [3; 4]]) idx)) /\
    (t2 <- tensor_apply (fun v => py_mul (VNum 2) v)
                        (VList [vector [1; 2]; vector [3; 4]]) ;;
     tensor_apply (fun v => py_add v (VNum 1)) t2) quiet_world
    = tensor_apply (fun v => v1 <- py_mul (VNum 2) v ;; py_add v1 (VNum 1))
                   (VList [vector [1; 2]; vector [3; 4]]) quiet_world.
Proof.
  apply (tensor_apply_elementwise
           (fun v => py_mul (VNum 2) v) (fun v => py_add v (VNum 1))
           (Rmult 2) (fun x => x + 1) [2; 2]%nat
           (VList [vector [1; 2]; vector [3; 4]]) 0 quiet_world).
  - intros; reflexivity.
  - intros; reflexivity.
  - discriminate.
  - reflexivity.
Defined.

(** X5: on two tensors of one shape, [tensor_combine] returns the tensor
    of that shape whose leaves are [g] of the two leaves at the same
    place; for a commutative [g] the operands can be exchanged. *)
Theorem tensor_combine_commutative
    (f : value -> value -> M value) (g : R -> R -> R)
    (ds : list nat) (t1 t2 : value) (w : world) :
  (forall x y w, f (VNum x) (VNum y) w = Ok (VNum (g x y), w)) ->
  (forall x y, g x y = g y x) ->
  ds <> [] -> has_shape ds t1 = true -> has_shape ds t2 = true ->
  exists t3,
    tensor_combine f t1 t2 w = Ok (t3, w) /\
    tensor_combine f t2 t1 w = Ok (t3, w) /\
    has_shape ds t3 = true /\
    forall idx, leaf t3 idx = leaf_map2 g (leaf t1 idx) (leaf t2 idx).
Proof.
  intros Hf Hg Hne H1 H2.
  destruct (tensor_combine_shaped g f Hf ds t1 t2 w Hne H1 H2)
    as (t3 & H3 & Hs3 & Hl3).
  destruct (tensor_combine_shaped g f Hf ds t2 t1 w Hne H2 H1)
    as (t4 & H4 & Hs4 & Hl4).
  exists t3. split; [assumption|]. split; [|split; assumption].
  rewrite H4. do 2 f_equal. apply (tensor_ext ds); auto.
  intros idx. rewrite Hl3, Hl4.
  destruct (leaf t1 idx), (leaf t2 idx); simpl; congruence.
Qed.

Lemma tensor_combine_commutative_witness :
  exists t3,
    tensor_combine py_add (vector [1; 2]) (vector [3; 4]) quiet_world
    = Ok (t3, quiet_world) /\
    tensor_combine py_add (vector [3; 4]) (vector [1; 2]) quiet_world
    = Ok (t3, quiet_world) /\
    has_shape [2%nat] t3 = true /\
    forall idx, leaf t3 idx
      = leaf_map2 Rplus (leaf (vector [1; 2]) idx) (leaf (vector [3; 4]) idx).
Proof.
  apply (tensor_combine_commutative py_add Rplus [2%nat]
           (vector [1; 2]) (vector [3; 4]) quiet_world).
  - intros; reflexivity.
  - intros; apply Rplus_comm.
  - discriminate.
  - reflexivity.
  - reflexivity.
Defined.

(** * Further properties of the losses and the layers *)








Lemma image_option_map (g : R -> R) ds a b :
  image (fun x y => y = g x) ds a b ->
  forall idx, leaf b idx = option_map g (leaf a idx).
Proof.
  intros [_ H] idx. specialize (H idx). unfold leaf_rel in H.
  destruct (leaf a idx), (leaf b idx); simpl; try contradiction; congruence.
Qed.

Lemma sigmoid_backward_fn_num s g w :
  sigmoid_backward_fn (VNum s) (VNum g) w = Ok (VNum (s * (1 - s) * g), w).
Proof. reflexivity. Qed.

(** X7: if [sigmoid] maps the number [x] to [sg x], then on a well-shaped
    tensor [Sigmoid.forward] returns the element-wise [sg] and caches that
    output, and [Sigmoid.backward] returns [sig * (1 - sig) * grad]
    element-wise, [sig] being the cached output, not the input. *)
Theorem Sigmoid_layer_spec
    (sigmoid : value -> M value) (dot : value -> value -> M value)
    (sg : R -> R) (ds : list nat) (t g : value) (c : option value)
    (w : world) :
  (forall x w, sigmoid (VNum x) w = Ok (VNum (sg x), w)) ->
  ds <> [] -> has_shape ds t = true -> has_shape ds g = true ->
  exists out r,
    forward sigmoid dot (Sigmoid c) t w = Ok ((out, Sigmoid (Some out)), w) /\
    has_shape ds out = true /\
    (forall idx, leaf out idx = option_map sg (leaf t idx)) /\
    backward (Sigmoid (Some out)) g w = Ok ((r, Sigmoid (Some out)), w) /\
    combined (fun s gr => s * (1 - s) * gr) ds out g r.
Proof.
  intros Hsg Hne Ht Hg.
  destruct (tensor_apply_pure sigmoid sg ds t w Hsg Hne Ht)
    as (out & Hout & Hs & Hl).
  destruct (tensor_combine_shaped _ sigmoid_backward_fn
              sigmoid_backward_fn_num ds out g w Hne Hs Hg)
    as (r & Hr & Hcomb).
  exists out, r. unfold forward, backward.
  rewrite (bind_Ok _ _ _ _ _ Hout). split; [reflexivity|].
  split; [assumption|]. split; [assumption|].
  unfold attr, bind at 1, ret at 1. rewrite (bind_Ok _ _ _ _ _ Hr).
  split; [reflexivity | assumption].
Qed.

Lemma Sigmoid_layer_spec_witness :
  exists out r,
    forward (fun v => py_mul (VNum (1/2)) v) (fun v _ => ret v)
            (Sigmoid None) (vector [0; 1]) quiet_world
    = Ok ((out, Sigmoid (Some out)), quiet_world) /\
    has_shape [2%nat] out = true /\
    (forall idx, leaf out idx
       = option_map (Rmult (1/2)) (leaf (vector [0; 1]) idx)) /\
    backward (Sigmoid (Some out)) (vector [1; 1]) quiet_world
    = Ok ((r, Sigmoid (Some out)), quiet_world) /\
    combined (fun s gr => s * (1 - s) * gr) [2%nat] out (vector [1; 1]) r.
Proof.
  apply (Sigmoid_layer_spec (fun v => py_mul (VNum (1/2)) v)
           (fun v _ => ret v) (Rmult (1/2)) [2%nat]
           (vector [0; 1]) (vector [1; 1]) None quiet_world).
  - intros; reflexivity.
  - discriminate.
  - reflexivity.
  - reflexivity.
Defined.

Lemma relu_forward_fn_num x w :
  relu_forward_fn (VNum x) w = Ok (VNum (Rmax x 0), w).
Proof.
  unfold relu_forward_fn, py_gt, py_lt, bind, ret, Rmax.
  destruct (Rlt_dec x 0), (Rle_dec x 0); try reflexivity; try lra.
  do 2 f_equal. f_equal. lra.
Qed.

Lemma relu_backward_fn_num x g w :
  relu_backward_fn (VNum x) (VNum g) w
  = Ok (VNum (if Rlt_dec 0 x then g else 0), w).
Proof.
  unfold relu_backward_fn, py_gt, py_lt, bind, ret.
  destruct (Rlt_dec 0 x); reflexivity.
Qed.

(** X8: on a well-shaped tensor [Relu.forward] returns [max(x, 0)]
    element-wise and caches its input, not its output; [Relu.backward]
    lets an entry of the gradient through where the cached input is
    positive and returns 0 elsewhere, also where the input is exactly 0. *)
Theorem Relu_layer_spec
    (sigmoid : value -> M value) (dot : value -> value -> M value)
    (ds : list nat) (t g : value) (c : option value) (w : world) :
  ds <> [] -> has_shape ds t = true -> has_shape ds g = true ->
  exists out r,
    forward sigmoid dot (Relu c) t w = Ok ((out, Relu (Some t)), w) /\
    has_shape ds out = true /\
    (forall idx, leaf out idx = option_map (fun x => Rmax x 0) (leaf t idx)) /\
    backward (Relu (Some t)) g w = Ok ((r, Relu (Some t)), w) /\
    combined (fun x gr => if Rlt_dec 0 x then gr else 0) ds t g r /\
    (forall idx gr, leaf t idx = Some 0 -> leaf g idx = Some gr ->
                    leaf r idx = Some 0).
Proof.
  intros Hne Ht Hg.
  destruct (tensor_apply_pure relu_forward_fn (fun x => Rmax x 0) ds t w
              relu_forward_fn_num Hne Ht) as (out & Hout & Hs & Hl).
  destruct (tensor_combine_shaped _ relu_backward_fn relu_backward_fn_num
              ds t g w Hne Ht Hg) as (r & Hr & Hcomb).
  exists out, r. unfold forward, backward.
  rewrite (bind_Ok _ _ _ _ _ Hout). split; [reflexivity|].
  split; [assumption|]. split; [assumption|].
  unfold attr, bind at 1, ret at 1. rewrite (bind_Ok _ _ _ _ _ Hr).
  split; [reflexivity|]. split; [assumption|].
  intros idx gr H0 Hgr. destruct Hcomb as [_ Hc].
  rewrite Hc, H0, Hgr. simpl. destruct (Rlt_dec 0 0); [lra | reflexivity].
Qed.

Lemma Relu_layer_spec_witness :
  exists out r,
    forward (fun v => ret v) (fun v _ => ret v) (Relu None)
            (vector [-1; 0; 2]) quiet_world
    = Ok ((out, Relu (Some (vector [-1; 0; 2]))), quiet_world) /\
    has_shape [3%nat] out = true /\
    (forall idx, leaf out idx
       = option_map (fun x => Rmax x 0) (leaf (vector [-1; 0; 2]) idx)) /\
    backward (Relu (Some (vector [-1; 0; 2]))) (vector [5; 6; 7]) quiet_world
    = Ok ((r, Relu (Some (vector [-1; 0; 2]))), quiet_world) /\
    combined (fun x gr => if Rlt_dec 0 x then gr else 0) [3%nat]
             (vector [-1; 0; 2]) (vector [5; 6; 7]) r /\
    (forall idx gr, leaf (vector [-1; 0; 2]) idx = Some 0 ->
                    leaf (vector [5; 6; 7]) idx = Some gr ->
                    leaf r idx = Some 0).
Proof.
  apply (Relu_layer_spec (fun v => ret v) (fun v _ => ret v) [3%nat]
           (vector [-1; 0; 2]) (vector [5; 6; 7]) None quiet_world);
    [discriminate | reflexivity | reflexivity].
Defined.

Lemma dropout_eval_fn_num p x w :
  dropout_eval_fn p (VNum x) w = Ok (VNum (x * (1 - p)), w).
Proof. reflexivity. Qed.

(** X9: in evaluation mode [Dropout.forward] draws nothing and keeps the
    layer as it is: on a well-shaped tensor it returns [x * (1 - p)]
    element-wise, which for [p = 0] is the input itself. *)
Theorem Dropout_forward_eval
    (sigmoid : value -> M value) (dot : value -> value -> M value)
    (p : R) (mask : option value) (ds : list nat) (t : value) (w : world) :
  ds <> [] -> has_shape ds t = true ->
  exists out,
    forward sigmoid dot (Dropout p false mask) t w
    = Ok ((out, Dropout p false mask), w) /\
    has_shape ds out = true /\
    (forall idx, leaf out idx = option_map (fun x => x * (1 - p)) (leaf t idx)) /\
    (p = 0 -> out = t).
Proof.
  intros Hne Ht.
  destruct (tensor_apply_pure (dropout_eval_fn p) (fun x => x * (1 - p)) ds t w
              (dropout_eval_fn_num p) Hne Ht) as (out & Hout & Hs & Hl).
  exists out. unfold forward. rewrite (bind_Ok _ _ _ _ _ Hout).
  split; [reflexivity|]. split; [assumption|]. split; [assumption|].
  intros ->. apply (tensor_ext ds); auto.
  intros idx. rewrite Hl. destruct (leaf t idx); simpl; [f_equal; lra | reflexivity].
Qed.

Lemma Dropout_forward_eval_witness :
  exists out,
    forward (fun v => ret v) (fun v _ => ret v) (Dropout 0 false None)
            (vector [3; 4]) quiet_world
    = Ok ((out, Dropout 0 false None), quiet_world) /\
    has_shape [2%nat] out = true /\
    (forall idx, leaf out idx
       = option_map (fun x => x * (1 - 0)) (leaf (vector [3; 4]) idx)) /\
    out = vector [3; 4].
Proof.
  destruct (Dropout_forward_eval (fun v => ret v) (fun v _ => ret v) 0 None
              [2%nat] (vector [3; 4]) quiet_world)
    as (out & H1 & H2 & H3 & H4); [discriminate | reflexivity |].
  exists out. split; [exact H1|]. split; [exact H2|]. split; [exact H3|].
  apply H4. reflexivity.
Defined.

(** X10: [backward] on a layer whose [forward] has not run yet finds no
    cached attribute and raises [AttributeError]: so for [Sigmoid], [Tanh]
    and [Relu], for [Dropout] in training mode, and for [Linear] when both
    dimensions are positive.  A [Linear] layer with [input_dim <= 0] never
    reads its input: its [backward] succeeds before any [forward],
    returning the empty list. *)
Theorem backward_before_forward
    (n m : nat) (input_dim output_dim : Z) (wl bl : nat) (p : R)
    (wg bg : option value) (g : value) (w : world) :
  backward (Sigmoid None) g w = Raise AttributeError /\
  backward (Tanh None) g w = Raise AttributeError /\
  backward (Relu None) g w = Raise AttributeError /\
  backward (Dropout p true None) g w = Raise AttributeError /\
  backward (Linear (Z.of_nat (S n)) (Z.of_nat (S m)) wl bl None wg bg) g w
  = Raise AttributeError /\
  ((input_dim <= 0)%Z ->
   exists w_grad,
     backward (Linear input_dim output_dim wl bl None wg bg) g w
     = Ok ((VList [], Linear input_dim output_dim wl bl None
                             (Some w_grad) (Some g)), w)).
Proof.
  repeat (split; [reflexivity|]). split.
  - unfold backward. rewrite !range_of_nat. reflexivity.
  - intros Hle. unfold backward, range.
    replace (Z.to_nat input_dim) with 0%nat by lia. simpl seq.
    exists (VList (map (fun _ => VList []) (seq 0 (Z.to_nat output_dim)))).
    rewrite (bind_Ok _ _ w
               (map (fun _ => VList []) (seq 0 (Z.to_nat output_dim))) w).
    + reflexivity.
    + apply mapM_pure. intros; reflexivity.
Qed.

Lemma backward_before_forward_witness :
  exists w_grad,
    backward (Linear 0 2 0 1 None None None) (vector [1; 2]) quiet_world
    = Ok ((VList [], Linear 0 2 0 1 None (Some w_grad)
                            (Some (vector [1; 2]))), quiet_world).
Proof.
  apply (backward_before_forward 0 0 0 2 0 1 0 None None (vector [1; 2])
           quiet_world). lia.
Defined.

(** X11: if [dot(input, row)] is the number [d row], then [Linear.forward]
    returns the list of [d(w[o]) + b[o]] for [o] below [output_dim], as
    long as the weights have that many rows and the bias that many
    entries; it stores the input in the layer and leaves the heap, the
    gradients and the random stream as they are. *)
Theorem Linear_forward_spec
    (sigmoid : value -> M value) (dot : value -> value -> M value)
    (d : list R -> R) (n : Z) (m wl bl : nat) (x : value)
    (W : list (list R)) (bs : list R) (c wg bg : option value) (w : world) :
  (forall row w, dot x (vector row) w = Ok (VNum (d row), w)) ->
  heap w !! wl = Some (matrix W) -> heap w !! bl = Some (vector bs) ->
  length W = m -> length bs = m ->
  forward sigmoid dot (Linear n (Z.of_nat m) wl bl c wg bg) x w
  = Ok ((vector (map (fun o => d (nth o W []) + nth o bs 0) (seq 0 m)),
         Linear n (Z.of_nat m) wl bl (Some x) wg bg), w) /\
  length (map (fun o => d (nth o W []) + nth o bs 0) (seq 0 m)) = m.
Proof.
  intros Hdot Hw Hb HW Hbs. split; [|now rewrite length_map, length_seq].
  unfold forward. rewrite range_of_nat.
  rewrite (bind_Ok _ _ w
             (map (fun o => VNum (d (nth o W []) + nth o bs 0)) (seq 0 m)) w).
  - unfold vector. now rewrite map_map.
  - apply mapM_pure. intros o Ho. apply in_seq in Ho.
    unfold load at 1, bind at 1. rewrite Hw.
    rewrite (bind_Ok _ _ _ _ _ (py_index_matrix W o w ltac:(lia))).
    rewrite (bind_Ok _ _ _ _ _ (Hdot (nth o W []) w)).
    unfold load at 1, bind at 1. rewrite Hb.
    rewrite (bind_Ok _ _ _ _ _ (py_index_vector bs o w ltac:(lia))).
    reflexivity.
Qed.

Lemma Linear_forward_spec_witness :
  forward (fun v => ret v) (fun _ _ => ret (VNum 9))
          (Linear 2 (Z.of_nat 1) 0 1 None None None) (vector [3; 4])
          linear_world
  = Ok ((vector (map (fun o => 9 + nth o [5] 0) (seq 0 1)),
         Linear 2 (Z.of_nat 1) 0 1 (Some (vector [3; 4])) None None),
        linear_world) /\
  length (map (fun o => 9 + nth o [5] 0) (seq 0 1)) = 1%nat.
Proof.
  apply (Linear_forward_spec (fun v => ret v) (fun _ _ => ret (VNum 9))
           (fun _ => 9) 2 1 0 1 (vector [3; 4]) [[1; 2]] [5]
           None None None linear_world).
  - intros; reflexivity.
  - reflexivity.
  - reflexivity.
  - reflexivity.
  - reflexivity.
Defined.

(** * Further properties of the random initializers *)

Lemma seq_add_map k m : seq k m = map (fun i => (k + i)%nat) (seq 0 m).
Proof.
  induction k as [|k IH]; simpl.
  - now rewrite map_id.
  - rewrite <- seq_shift, IH, map_map. reflexivity.
Qed.

Lemma drawn_refl w : drawn 0 w w.
Proof. repeat split. Qed.

Lemma drawn_trans j k w w1 w' :
  drawn j w w1 -> drawn k w1 w' -> drawn (j + k) w w'.
Proof.
  intros (H1 & H2 & H3) (H4 & H5 & H6). split; [congruence|].
  split; [congruence|]. intros n. rewrite H6, H3. f_equal. lia.
Qed.

Section Draws.

Variable h : R -> R.

Lemma replicate_draws {A} ds body (l : list A) :
  draws_tensor h ds body ->
  forall w, exists ts w',
    mapM (fun _ => body) l w = Ok (ts, w') /\
    length ts = length l /\
    Forall (fun t => has_shape ds t = true) ts /\
    flat_map leaves ts
    = map (fun i => h (rng w i)) (seq 0 (length l * product ds)) /\
    drawn (length l * product ds) w w'.
Proof.
  intros Hbody. induction l as [|a l IH]; intros w.
  - exists [], w. repeat split; constructor.
  - destruct (Hbody w) as (t & w1 & Ht & Hs & Hl & Hd).
    destruct (IH w1) as (ts & w' & Hts & Hlen & Hall & Hls & Hd').
    exists (t :: ts), w'. simpl mapM.
    rewrite (bind_Ok _ _ _ _ _ Ht), (bind_Ok _ _ _ _ _ Hts).
    split; [reflexivity|]. split; [simpl; congruence|].
    split; [now constructor|]. split.
    + simpl. rewrite Hl, Hls, seq_app, map_app. f_equal.
      rewrite (seq_add_map (0 + product ds)), map_map.
      apply map_ext. intros i. destruct Hd as (_ & _ & Hd). now rewrite Hd.
    + simpl. now apply (drawn_trans _ _ _ w1).
Qed.

(** The common recursion of [random_uniform] and [random_normal]. *)
Variable gen : list Z -> M value.
Variable leaf_gen : M value.

Hypothesis gen_one :
  forall d w, gen [d] w
  = (r <- mapM (fun _ => leaf_gen) (range d) ;; ret (VList r)) w.
Hypothesis gen_more :
  forall d d' ds w, gen (d :: d' :: ds) w
  = (r <- mapM (fun _ => gen (d' :: ds)) (range d) ;; ret (VList r)) w.
Hypothesis leaf_gen_draws : draws_tensor h [] leaf_gen.

Lemma gen_draws ds :
  ds <> [] -> Forall (fun n => (0 < n)%nat) ds ->
  draws_tensor h ds (gen (map Z.of_nat ds)).
Proof.
  induction ds as [|n ds IH]; intros Hne Hpos; [congruence|].
  inversion Hpos as [|? ? Hn Hpos']; subst. intros w.
  assert (forall body, draws_tensor h ds body ->
            exists t w',
              (r <- mapM (fun _ => body) (range (Z.of_nat n)) ;; ret (VList r)) w
              = Ok (t, w') /\ has_shape (n :: ds) t = true /\
              leaves t = map (fun i => h (rng w i)) (seq 0 (product (n :: ds))) /\
              drawn (product (n :: ds)) w w') as Hrep.
  { intros body Hbody.
    destruct (replicate_draws ds body (range (Z.of_nat n)) Hbody w)
      as (ts & w' & Hts & Hlen & Hall & Hls & Hd).
    rewrite range_of_nat, length_seq in *.
    exists (VList ts), w'. rewrite (bind_Ok _ _ _ _ _ Hts).
    split; [reflexivity|]. split; [now apply has_shape_cons|].
    split; assumption. }
  destruct ds as [|n' ds'].
  - simpl map. destruct (Hrep leaf_gen leaf_gen_draws) as (t & w' & H & Hr).
    exists t, w'. now rewrite gen_one.
  - simpl map.
    destruct (Hrep (gen (map Z.of_nat (n' :: ds')))) as (t & w' & H & Hr).
    { apply IH; [discriminate | assumption]. }
    exists t, w'. now rewrite gen_more.
Qed.

End Draws.

Lemma random_random_draws : draws_tensor (fun x => x) [] random_random.
Proof.
  intros w. eexists _, _. split; [reflexivity|]. repeat split.
Qed.

Lemma normal_leaf_draws icdf mean variance :
  draws_tensor (fun p => mean + variance * icdf p) []
               (normal_leaf icdf mean variance).
Proof.
  intros w. eexists _, _. split; [reflexivity|]. repeat split.
Qed.

Lemma random_uniform_draws ds :
  ds <> [] -> Forall (fun n => (0 < n)%nat) ds ->
  draws_tensor (fun x => x) ds (random_uniform (map Z.of_nat ds)).
Proof.
  apply (gen_draws (fun x => x) random_uniform random_random);
    [reflexivity | reflexivity | apply random_random_draws].
Qed.

Lemma random_normal_draws icdf mean variance ds :
  ds <> [] -> Forall (fun n => (0 < n)%nat) ds ->
  draws_tensor (fun p => mean + variance * icdf p) ds
               (random_normal icdf (map Z.of_nat ds) mean variance).
Proof.
  apply (gen_draws _ (fun dims => random_normal icdf dims mean variance)
           (normal_leaf icdf mean variance));
    [reflexivity | reflexivity | apply normal_leaf_draws].
Qed.

(** X12: for positive dimensions, [random_uniform] returns a tensor of
    those dimensions whose leaves are the next draws of
    [random.random()], in order, one draw per leaf; so the leaves lie in
    [0, 1) when the draws do.  Without dimensions it raises [IndexError]. *)
Theorem random_uniform_spec (ds : list nat) (w : world) :
  (ds <> [] -> Forall (fun n => (0 < n)%nat) ds ->
   exists t w',
     random_uniform (map Z.of_nat ds) w = Ok (t, w') /\
     has_shape ds t = true /\
     leaves t = map (rng w) (seq 0 (product ds)) /\
     drawn (product ds) w w' /\
     ((forall n, 0 <= rng w n < 1) ->
      forall x, In x (leaves t) -> 0 <= x < 1)) /\
  random_uniform [] w = Raise IndexError.
Proof.
  split; [|reflexivity]. intros Hne Hpos.
  destruct (random_uniform_draws ds Hne Hpos w) as (t & w' & Ht & Hs & Hl & Hd).
  exists t, w'. repeat (split; [assumption|]).
  intros Hrng x Hx. rewrite Hl in Hx.
  apply in_map_iff in Hx as (n & <- & _). apply Hrng.
Qed.

Lemma random_uniform_spec_witness :
  exists t w',
    random_uniform (map Z.of_nat [2; 3]%nat) quiet_world = Ok (t, w') /\
    has_shape [2; 3]%nat t = true /\
    leaves t = map (rng quiet_world) (seq 0 (product [2; 3]%nat)) /\
    drawn (product [2; 3]%nat) quiet_world w' /\
    forall x, In x (leaves t) -> 0 <= x < 1.
Proof.
  destruct (random_uniform_spec [2; 3]%nat quiet_world) as (H & _).
  destruct H as (t & w' & H1 & H2 & H3 & H4 & H5);
    [discriminate | repeat constructor |].
  exists t, w'. repeat (split; [assumption|]).
  apply H5. intros n. simpl. lra.
Defined.

Lemma sum_dims_pos l a :
  Forall (fun n => (0 < n)%nat) l ->
  (a <= fold_left Z.add (map Z.of_nat l) a)%Z /\
  (l <> [] -> (a < fold_left Z.add (map Z.of_nat l) a)%Z).
Proof.
  intros H. revert a. induction H as [|n l Hn _ IH]; intros a; simpl.
  - split; [lia | congruence].
  - destruct (IH (a + Z.of_nat n)%Z) as [Hle _]. split; [lia | intros _; lia].
Qed.

Lemma random_tensor_unknown inverse_normal_cdf dims init w :
  init <> "normal"%string -> init <> "uniform"%string ->
  init <> "xavier"%string ->
  random_tensor inverse_normal_cdf dims init w = Raise ValueError.
Proof.
  intros H1 H2 H3. unfold random_tensor.
  apply String.eqb_neq in H1, H2, H3. now rewrite H1, H2, H3.
Qed.

Lemma random_tensor_shaped inverse_normal_cdf ds init w :
  ds <> [] -> Forall (fun n => (0 < n)%nat) ds ->
  init = "normal"%string \/ init = "uniform"%string \/
  init = "xavier"%string ->
  exists t w',
    random_tensor inverse_normal_cdf (map Z.of_nat ds) init w = Ok (t, w') /\
    has_shape ds t = true /\ drawn (product ds) w w'.
Proof.
  intros Hne Hpos Hinit. unfold random_tensor.
  destruct Hinit as [-> | [-> | ->]]; simpl.
  - destruct (random_normal_draws inverse_normal_cdf 0 1 ds Hne Hpos w)
      as (t & w' & Ht & Hs & _ & Hd). eauto.
  - destruct (random_uniform_draws ds Hne Hpos w)
      as (t & w' & Ht & Hs & _ & Hd). eauto.
  - destruct (sum_dims_pos ds 0%Z Hpos) as [_ Hlt]. specialize (Hlt Hne).
    unfold sum_dims.
    destruct (Z.eqb_spec (fold_left Z.add (map Z.of_nat ds) 0%Z) 0); [lia|].
    destruct (random_normal_draws inverse_normal_cdf 0
                (IZR (Z.of_nat (length (map Z.of_nat ds))) /
                 IZR (fold_left Z.add (map Z.of_nat ds) 0%Z)) ds Hne Hpos w)
      as (t & w' & Ht & Hs & _ & Hd). eauto.
Qed.

(** X13: [random_tensor] raises [ValueError] for an initializer name other
    than ['normal'], ['uniform'] and ['xavier'], and for ['xavier'] a
    [ZeroDivisionError] when the dimensions sum to 0 (so also without
    dimensions); for one of the three names and positive dimensions it
    returns a tensor of those dimensions, one draw per leaf. *)
Theorem random_tensor_spec
    (inverse_normal_cdf : R -> R) (dims : list Z) (ds : list nat)
    (init : string) (w : world) :
  (init <> "normal"%string -> init <> "uniform"%string ->
   init <> "xavier"%string ->
   random_tensor inverse_normal_cdf dims init w = Raise ValueError) /\
  (sum_dims dims = 0%Z ->
   random_tensor inverse_normal_cdf dims "xavier" w
   = Raise ZeroDivisionError) /\
  (ds <> [] -> Forall (fun n => (0 < n)%nat) ds ->
   init = "normal"%string \/ init = "uniform"%string \/
   init = "xavier"%string ->
   exists t w',
     random_tensor inverse_normal_cdf (map Z.of_nat ds) init w = Ok (t, w') /\
     has_shape ds t = true /\ drawn (product ds) w w').
Proof.
  split; [apply random_tensor_unknown|]. split.
  - intros H. unfold random_tensor. simpl. now rewrite H.
  - apply random_tensor_shaped.
Qed.

Lemma random_tensor_spec_witness :
  random_tensor (fun x => x) [] "glorot" quiet_world = Raise ValueError /\
  random_tensor (fun x => x) [] "xavier" quiet_world
  = Raise ZeroDivisionError /\
  exists t w',
    random_tensor (fun x => x) (map Z.of_nat [2; 3]%nat) "xavier" quiet_world
    = Ok (t, w') /\
    has_shape [2; 3]%nat t = true /\ drawn (product [2; 3]%nat) quiet_world w'.
Proof.
  pose proof (random_tensor_spec (fun x => x) [] [2; 3]%nat "glorot"
                quiet_world) as (H1 & H2 & _).
  pose proof (random_tensor_spec (fun x => x) [] [2; 3]%nat "xavier"
                quiet_world) as (_ & _ & H3).
  split; [apply H1; discriminate|]. split; [apply H2; reflexivity|].
  apply H3; [discriminate | repeat constructor | right; right; reflexivity].
Defined.

(** X14: for positive dimensions and one of the three initializer names,
    the constructor of [Linear] allocates two new list objects, at the
    next two unused addresses: the weights, of the shape
    [[output_dim, input_dim]], and the bias, of the shape [[output_dim]];
    the layer has no cached input or gradient, and the objects that
    existed are untouched.  Any other name raises [ValueError]. *)
Theorem Linear_init_spec
    (inverse_normal_cdf : R -> R) (n m : nat) (init : string) (w : world) :
  ((0 < n)%nat -> (0 < m)%nat ->
   init = "normal"%string \/ init = "uniform"%string \/
   init = "xavier"%string ->
   exists wv bv w',
     Linear_init inverse_normal_cdf (Z.of_nat n) (Z.of_nat m) init w
     = Ok (Linear (Z.of_nat n) (Z.of_nat m) (next_loc w) (S (next_loc w))
                  None None None, w') /\
     heap w' !! next_loc w = Some wv /\ has_shape [m; n] wv = true /\
     heap w' !! S (next_loc w) = Some bv /\ has_shape [m] bv = true /\
     next_loc w' = S (S (next_loc w)) /\
     (forall a, a <> next_loc w -> a <> S (next_loc w) ->
                heap w' !! a = heap w !! a)) /\
  (init <> "normal"%string -> init <> "uniform"%string ->
   init <> "xavier"%string ->
   Linear_init inverse_normal_cdf (Z.of_nat n) (Z.of_nat m) init w
   = Raise ValueError).
Proof.
  split.
  - intros Hn Hm Hinit.
    destruct (random_tensor_shaped inverse_normal_cdf [m; n] init w)
      as (wv & w1 & Hwv & Hsw & Hd1 & Hn1 & _);
      [discriminate | repeat constructor; assumption | assumption |].
    set (w2 := World (<[next_loc w1 := wv]> (heap w1)) (S (next_loc w1))
                     (rng w1)).
    destruct (random_tensor_shaped inverse_normal_cdf [m] init w2)
      as (bv & w3 & Hbv & Hsb & Hd2 & Hn2 & _);
      [discriminate | repeat constructor; assumption | assumption |].
    exists wv, bv,
      (World (<[next_loc w3 := bv]> (heap w3)) (S (next_loc w3)) (rng w3)).
    unfold Linear_init. simpl map in Hwv, Hbv.
    rewrite (bind_Ok _ _ _ _ _ Hwv). unfold alloc at 1, bind at 1. fold w2.
    rewrite (bind_Ok _ _ _ _ _ Hbv). unfold alloc at 1, bind at 1, ret.
    rewrite Hn2, Hd2. simpl. rewrite Hn1, Hd1.
    split; [reflexivity|]. split.
    { rewrite lookup_insert_ne by lia. apply lookup_insert_eq. }
    split; [assumption|]. split; [apply lookup_insert_eq|].
    split; [assumption|]. split; [reflexivity|].
    intros a Ha1 Ha2. now rewrite !lookup_insert_ne by congruence.
  - intros H1 H2 H3. unfold Linear_init.
    now rewrite (bind_Raise _ _ _ _
                   (random_tensor_unknown inverse_normal_cdf
                      [Z.of_nat m; Z.of_nat n] init w H1 H2 H3)).
Qed.

Lemma Linear_init_spec_witness :
  exists wv bv w',
    Linear_init (fun x => x) (Z.of_nat 2) (Z.of_nat 3) "xavier" quiet_world
    = Ok (Linear (Z.of_nat 2) (Z.of_nat 3) (next_loc quiet_world)
                 (S (next_loc quiet_world)) None None None, w') /\
    heap w' !! next_loc quiet_world = Some wv /\
    has_shape [3; 2]%nat wv = true /\
    heap w' !! S (next_loc quiet_world) = Some bv /\
    has_shape [3%nat] bv = true /\
    next_loc w' = S (S (next_loc quiet_world)) /\
    (forall a, a <> next_loc quiet_world -> a <> S (next_loc quiet_world) ->
               heap w' !! a = heap quiet_world !! a).
Proof.
  apply (Linear_init_spec (fun x => x) 2 3 "xavier" quiet_world);
    [lia | lia | right; right; reflexivity].
Defined.

(** * Further properties of the optimizers *)

Lemma gd_fn_num lr p g w :
  gd_fn lr (VNum p) (VNum g) w = Ok (VNum (p - g * lr), w).
Proof. reflexivity. Qed.

Lemma gd_loop_spec lr :
  forall ps gs dss w,
    length gs = length ps -> length dss = length ps -> NoDup ps ->
    (forall i p g ds,
       ps !! i = Some p -> gs !! i = Some g -> dss !! i = Some ds ->
       ds <> [] /\ has_shape ds g = true /\
       exists pv, heap w !! p = Some pv /\ has_shape ds pv = true) ->
    exists w',
      gd_loop lr ps gs w = Ok (tt, w') /\
      next_loc w' = next_loc w /\ rng w' = rng w /\
      (forall a, a ∉ ps -> heap w' !! a = heap w !! a) /\
      gd_updated lr dss ps gs (heap w) (heap w').
Proof.
  induction ps as [|p ps IH]; intros gs dss w Hgs Hdss Hnd Hready.
  { exists w. destruct gs; try discriminate.
    repeat split; auto. intros i p g ds Hp. discriminate. }
  destruct gs as [|g gs]; [discriminate|].
  destruct dss as [|ds dss]; [discriminate|].
  destruct (Hready 0%nat p g ds eq_refl eq_refl eq_refl)
    as (Hne & Hg & pv & Hp & Hpv).
  apply NoDup_cons in Hnd as [Hp_fresh Hnd].
  destruct (tensor_combine_shaped (fun x y => x - y * lr) (gd_fn lr)
              (gd_fn_num lr) ds pv g w Hne Hpv Hg) as (pv' & Hc & Hcomb).
  set (w1 := World (<[p := pv']> (heap w)) (next_loc w) (rng w)).
  destruct (IH gs dss w1) as (w' & Hloop & Hnext & Hrng & Hframe & Hupd);
    try (simpl in *; lia); [assumption| |].
  { intros i p' g' ds' Hp' Hg' Hds'.
    destruct (Hready (S i) p' g' ds' Hp' Hg' Hds')
      as (Hne' & Hsg & pv0 & Hp0 & Hs0).
    split; [assumption|]. split; [assumption|]. exists pv0.
    assert (p' ∈ ps) by (eapply list_elem_of_lookup_2; eauto).
    simpl. rewrite lookup_insert_ne by congruence. auto. }
  exists w'. split.
  { simpl. unfold bind at 1, load at 1. rewrite Hp.
    rewrite (bind_Ok _ _ _ _ _ Hc). unfold bind at 1, store at 1.
    fold w1. exact Hloop. }
  split; [now rewrite Hnext|]. split; [now rewrite Hrng|]. split.
  { intros a Ha. rewrite not_elem_of_cons in Ha. destruct Ha.
    rewrite Hframe by assumption. simpl.
    now rewrite lookup_insert_ne by congruence. }
  intros [|i] p' g' ds' Hp' Hg' Hds'; simpl in *.
  - inversion Hp'; inversion Hg'; inversion Hds'; subst.
    exists pv, pv'. rewrite Hframe by assumption. simpl.
    rewrite lookup_insert_eq. auto.
  - destruct (Hupd i p' g' ds' Hp' Hg' Hds') as (pv0 & pv0' & H1 & H2 & H3).
    exists pv0, pv0'.
    assert (p' ∈ ps) by (eapply list_elem_of_lookup_2; eauto).
    simpl in H1. rewrite lookup_insert_ne in H1 by congruence. auto.
Qed.

(** X15: [GradientDescent.step] writes, into the list object of each
    parameter, [parameter - gradient * lr] entry by entry, for the
    (parameter, gradient) pairs in positional order; it allocates nothing
    and changes no other object.  (Parameters at pairwise distinct
    addresses, each of the shape of its gradient.) *)
Theorem GradientDescent_step_spec
    (lr : R) (l : layer) (gs : list value) (dss : list (list nat))
    (w : world) :
  grads l w = Ok (gs, w) ->
  Forall2 (fun ds g => ds <> [] /\ has_shape ds g = true) dss gs ->
  Forall2 (fun ds p => exists pv, heap w !! p = Some pv /\
                                  has_shape ds pv = true) dss (params l) ->
  NoDup (params l) ->
  exists w',
    GradientDescent_step lr l w = Ok (tt, w') /\
    next_loc w' = next_loc w /\ rng w' = rng w /\
    (forall a, a ∉ params l -> heap w' !! a = heap w !! a) /\
    gd_updated lr dss (params l) gs (heap w) (heap w').
Proof.
  intros Hgrads Hgs Hps Hnd.
  pose proof (Forall2_length _ _ _ Hgs) as Hlen_g.
  pose proof (Forall2_length _ _ _ Hps) as Hlen_p.
  destruct (gd_loop_spec lr (params l) gs dss w)
    as (w' & Hloop & Hrest); try congruence.
  { intros i p g ds Hp Hg Hds.
    destruct (Forall2_lookup_lr _ _ _ _ _ _ Hgs Hds Hg) as [Hne Hsg].
    destruct (Forall2_lookup_lr _ _ _ _ _ _ Hps Hds Hp) as (pv & Hpv & Hsp).
    eauto. }
  exists w'. split; [|assumption].
  unfold GradientDescent_step. now rewrite (bind_Ok _ _ _ _ _ Hgrads).
Qed.

Lemma GradientDescent_step_spec_witness :
  exists w',
    GradientDescent_step (1/10) momentum_layer momentum_world = Ok (tt, w') /\
    next_loc w' = next_loc momentum_world /\ rng w' = rng momentum_world /\
    (forall a, a ∉ params momentum_layer ->
               heap w' !! a = heap momentum_world !! a) /\
    gd_updated (1/10) [[1; 2]; [1]]%nat (params momentum_layer)
      [matrix [[3; 4]]; vector [7]] (heap momentum_world) (heap w').
Proof.
  apply (GradientDescent_step_spec (1/10) momentum_layer
           [matrix [[3; 4]]; vector [7]] [[1; 2]; [1]]%nat momentum_world).
  - reflexivity.
  - repeat constructor; discriminate.
  - constructor; [eexists; split; reflexivity|].
    constructor; [eexists; split; reflexivity | constructor].
  - apply (bool_decide_unpack _). reflexivity.
Defined.

(** X16: the first [step] of a [Momentum] optimizer, starting from the
    zero velocities it allocates, leaves in each velocity
    [(1 - mo) * gradient] and in each parameter
    [parameter - lr * ((1 - mo) * gradient)], entry by entry. *)
Theorem Momentum_first_step
    (self : Momentum) (l : layer) (gs : list value)
    (dss : list (list nat)) (w : world) :
  grads l w = Ok (gs, w) ->
  Forall2 (fun ds g => ds <> [] /\ has_shape ds g = true) dss gs ->
  Forall2 (fun ds p => exists pv, heap w !! p = Some pv /\
                                  has_shape ds pv = true) dss (params l) ->
  updates self = [] ->
  NoDup (params l) ->
  Forall (fun p => (p < next_loc w)%nat) (params l) ->
  exists w',
    Momentum_step self l w
    = Ok (Momentum_init (lr self) (mo self) (seq (next_loc w) (length gs)),
          w') /\
    forall i p g pv,
      params l !! i = Some p -> gs !! i = Some g ->
      heap w !! p = Some pv ->
      exists v pv',
        heap w' !! (next_loc w + i)%nat = Some v /\
        heap w' !! p = Some pv' /\
        (forall idx,
           leaf v idx
           = option_map (fun gx => (1 - mo self) * gx) (leaf g idx)) /\
        (forall idx,
           leaf pv' idx
           = leaf_map2 (fun px gx => px - lr self * ((1 - mo self) * gx))
                       (leaf pv idx) (leaf g idx)).
Proof.
  intros Hgrads Hgs Hps Hupdates Hnd Hlt.
  pose proof (Forall2_length _ _ _ Hgs) as Hlen_g.
  pose proof (Forall2_length _ _ _ Hps) as Hlen_p.
  destruct self as [lr0 mo0 us]. simpl in *. subst us.
  destruct (allocate_velocities gs dss w Hgs)
    as (w0 & Hm & Hnext & Hrng & Hframe & Hnew).
  assert (Hlt' : forall i p, params l !! i = Some p -> (p < next_loc w)%nat).
  { intros i p Hp. rewrite List.Forall_forall in Hlt. apply Hlt.
    apply list_elem_of_In. eapply list_elem_of_lookup_2; eauto. }
  destruct (momentum_loop_spec lr0 mo0 (seq (next_loc w) (length gs))
              (params l) gs dss w0)
    as (w' & Hloop & _ & _ & _ & Hupd).
  - rewrite length_seq. congruence.
  - now rewrite length_seq.
  - rewrite length_seq. congruence.
  - apply NoDup_app. split; [apply NoDup_seq|]. split; [|assumption].
    intros a Ha Ha'. apply elem_of_seq in Ha.
    apply list_elem_of_lookup in Ha' as (i & Hi). specialize (Hlt' i a Hi). lia.
  - intros i u p g ds Hu Hp Hg Hds.
    destruct (Forall2_lookup_lr _ _ _ _ _ _ Hgs Hds Hg) as [Hne Hsg].
    destruct (Forall2_lookup_lr _ _ _ _ _ _ Hps Hds Hp) as (pv & Hpv & Hsp).
    destruct (Hnew i g ds Hg Hds) as (z & Hz & Hzero).
    apply lookup_seq in Hu as [-> _].
    split; [assumption|]. split; [assumption|]. exists z, pv.
    split; [assumption|]. split; [|split; [apply Hzero | assumption]].
    rewrite Hframe; [assumption | eauto].
  - exists w'. split.
    { unfold Momentum_step. simpl updates.
      rewrite (bind_Ok _ _ w (seq (next_loc w) (length gs)) w0).
      2:{ now rewrite (bind_Ok _ _ _ _ _ Hgrads). }
      rewrite (bind_Ok _ _ _ _ _ (grads_any_world l w gs w0 Hgrads)).
      simpl. now rewrite (bind_Ok _ _ _ _ _ Hloop). }
    intros i p g pv Hp Hg Hpv.
    assert (exists ds, dss !! i = Some ds) as [ds Hds].
    { apply lookup_lt_is_Some. rewrite Hlen_g. eapply lookup_lt_Some; eauto. }
    assert (seq (next_loc w) (length gs) !! i = Some (next_loc w + i)%nat)
      as Hu.
    { apply lookup_seq. split; [reflexivity|]. eapply lookup_lt_Some; eauto. }
    destruct (Hupd i _ p g ds Hu Hp Hg Hds)
      as (uv & pv0 & uv' & pv' & H1 & H2 & H3 & H4 & [_ H5] & [_ H6]).
    destruct (Hnew i g ds Hg Hds) as (z & Hz & [_ Hzero]).
    rewrite Hz in H1. inversion H1; subst uv.
    rewrite Hframe in H2 by eauto. rewrite Hpv in H2. inversion H2; subst pv0.
    exists uv', pv'. split; [assumption|]. split; [assumption|].
    assert (forall idx,
              leaf uv' idx = option_map (fun gx => (1 - mo0) * gx) (leaf g idx))
      as Hv.
    { intros idx. rewrite H5. specialize (Hzero idx). unfold leaf_rel in Hzero.
      destruct (leaf g idx), (leaf z idx); simpl; try contradiction;
        [|reflexivity].
      subst. unfold momentum_value. f_equal. lra. }
    split; [exact Hv|]. intros idx. rewrite H6, Hv.
    destruct (leaf pv idx), (leaf g idx); reflexivity.
Qed.

Lemma Momentum_first_step_witness :
  exists w',
    Momentum_step (Momentum_init (1/10) (9/10) []) momentum_layer
                  momentum_world
    = Ok (Momentum_init (1/10) (9/10) (seq (next_loc momentum_world) 2), w') /\
    forall i p g pv,
      params momentum_layer !! i = Some p ->
      [matrix [[3; 4]]; vector [7]] !! i = Some g ->
      heap momentum_world !! p = Some pv ->
      exists v pv',
        heap w' !! (next_loc momentum_world + i)%nat = Some v /\
        heap w' !! p = Some pv' /\
        (forall idx,
           leaf v idx = option_map (fun gx => (1 - 9/10) * gx) (leaf g idx)) /\
        (forall idx,
           leaf pv' idx
           = leaf_map2 (fun px gx => px - 1/10 * ((1 - 9/10) * gx))
                       (leaf pv idx) (leaf g idx)).
Proof.
  apply (Momentum_first_step (Momentum_init (1/10) (9/10) []) momentum_layer
           [matrix [[3; 4]]; vector [7]] [[1; 2]; [1]]%nat momentum_world).
  - reflexivity.
  - repeat constructor; discriminate.
  - constructor; [eexists; split; reflexivity|].
    constructor; [eexists; split; reflexivity | constructor].
  - reflexivity.
  - apply (bool_decide_unpack _). reflexivity.
  - repeat constructor.
Defined.

(** * Further properties of [softmax] and of the cross-entropy *)

Lemma sum_R_map_mul (c : R) (F : R -> R) l :
  sum_R (map (fun x => F x * c) l) = sum_R (map F l) * c.
Proof.
  induction l as [|x l IH]; [unfold sum_R; simpl; lra|].
  simpl map. rewrite !sum_R_cons, IH. lra.
Qed.




(** X18: subtracting the largest element does not change the result:
    the probability [softmax] returns for [x] is [exp x] divided by the
    sum of the exponentials of all the elements. *)
Theorem softmax_textbook (xs : list R) (w : world) :
  xs <> [] ->
  softmax (vector xs) w
  = Ok (vector (map (fun x => exp x / sum_R (map exp xs)) xs), w).
Proof.
  intros Hne. rewrite (softmax_vector xs w Hne). do 3 f_equal.
  unfold softmax_value. rewrite map_map.
  set (M := largest xs).
  assert (forall x, exp (x - M) = exp x * exp (- M)) as Hexp.
  { intros x. rewrite <- exp_plus. f_equal. }
  assert (sum_R (map (fun x => exp (x - M)) xs)
          = sum_R (map exp xs) * exp (- M)) as HS.
  { rewrite <- sum_R_map_mul. f_equal. apply map_ext. intros; apply Hexp. }
  assert (0 < sum_R (map exp xs)) as Hpos.
  { pose proof (sum_exps_pos xs 0 Hne) as H.
    erewrite map_ext in H; [exact H|]. intros x. simpl. f_equal. lra. }
  apply map_ext. intros x. rewrite HS, Hexp.
  pose proof (exp_pos (- M)). field. split; lra.
Qed.

Lemma softmax_textbook_witness :
  softmax (vector [1; 2]) quiet_world
  = Ok (vector (map (fun x => exp x / sum_R (map exp [1; 2])) [1; 2]),
        quiet_world).
Proof. apply (softmax_textbook [1; 2] quiet_world). discriminate. Defined.

Lemma sum_indicator (i : Z) a n :
  sum_R (map (fun j => if Z.eqb (Z.of_nat j) i then 1 else 0) (seq a n))
  = if (Z.leb (Z.of_nat a) i && Z.ltb i (Z.of_nat (a + n)))%bool
    then 1 else 0.
Proof.
  revert a. induction n as [|n IH]; intros a.
  - simpl. destruct (Z.leb_spec (Z.of_nat a) i), (Z.ltb_spec i (Z.of_nat (a + 0)));
      simpl; try reflexivity. lia.
  - simpl seq. simpl map. rewrite sum_R_cons, IH.
    destruct (Z.eqb_spec (Z.of_nat a) i),
             (Z.leb_spec (Z.of_nat (S a)) i),
             (Z.ltb_spec i (Z.of_nat (S a + n))),
             (Z.leb_spec (Z.of_nat a) i),
             (Z.ltb_spec i (Z.of_nat (a + S n))); simpl; try lra; lia.
Qed.

(** X19: [one_hot_encode(i, num_labels)] is a list of [num_labels] numbers
    (empty when [num_labels <= 0]): entry [j] is 1 when [j = i] and 0
    otherwise.  So for [0 <= i < num_labels] exactly the entry [i] is 1 and
    the entries sum to 1; for any other [i] all the entries are 0. *)
Theorem one_hot_encode_spec (i num_labels : Z) (n : nat) :
  (exists xs,
     one_hot_encode i (Z.of_nat n) = vector xs /\ length xs = n /\
     (forall j, (j < n)%nat ->
        nth j xs 0 = if Z.eqb (Z.of_nat j) i then 1 else 0) /\
     ((0 <= i < Z.of_nat n)%Z ->
      sum_R xs = 1 /\ nth (Z.to_nat i) xs 0 = 1) /\
     (~ (0 <= i < Z.of_nat n)%Z -> Forall (fun x => x = 0) xs)) /\
  ((num_labels <= 0)%Z -> one_hot_encode i num_labels = VList []).
Proof.
  split.
  - exists (map (fun j => if Z.eqb (Z.of_nat j) i then 1 else 0) (seq 0 n)).
    assert (Hnth : forall j, (j < n)%nat ->
              nth j (map (fun j => if Z.eqb (Z.of_nat j) i then 1 else 0)
                         (seq 0 n)) 0
              = if Z.eqb (Z.of_nat j) i then 1 else 0).
    { intros j Hj. now rewrite (nth_map_seq _ 0 n j Hj). }
    split.
    { unfold one_hot_encode, vector. rewrite range_of_nat, map_map.
      f_equal. apply map_ext. intros j.
      now destruct (Z.eqb (Z.of_nat j) i). }
    split; [now rewrite length_map, length_seq|]. split; [exact Hnth|].
    split.
    + intros Hi. split.
      * rewrite sum_indicator.
        destruct (Z.leb_spec (Z.of_nat 0) i),
                 (Z.ltb_spec i (Z.of_nat (0 + n))); simpl; try reflexivity; lia.
      * rewrite Hnth by lia.
        destruct (Z.eqb_spec (Z.of_nat (Z.to_nat i)) i); [reflexivity | lia].
    + intros Hi. apply List.Forall_forall. intros x Hx.
      apply in_map_iff in Hx as (j & <- & Hj). apply in_seq in Hj.
      destruct (Z.eqb_spec (Z.of_nat j) i); [lia | reflexivity].
  - intros H. unfold one_hot_encode, range.
    replace (Z.to_nat num_labels) with 0%nat by lia. reflexivity.
Qed.

Lemma one_hot_encode_spec_witness :
  (exists xs,
     one_hot_encode 3 (Z.of_nat 10) = vector xs /\ length xs = 10%nat /\
     (forall j, (j < 10)%nat ->
        nth j xs 0 = if Z.eqb (Z.of_nat j) 3 then 1 else 0) /\
     sum_R xs = 1 /\ nth (Z.to_nat 3) xs 0 = 1) /\
  (exists xs,
     one_hot_encode 7 (Z.of_nat 5) = vector xs /\
     Forall (fun x => x = 0) xs) /\
  one_hot_encode 3 (-1) = VList [].
Proof.
  destruct (one_hot_encode_spec 3 (-1) 10) as ((xs & H1 & H2 & H3 & H4 & _) & H5).
  destruct (one_hot_encode_spec 7 0 5) as ((ys & G1 & _ & _ & _ & G2) & _).
  split.
  - exists xs. split; [exact H1|]. split; [exact H2|]. split; [exact H3|].
    apply H4. lia.
  - split; [|apply H5; lia].
    exists ys. split; [exact G1|]. apply G2. lia.
Defined.

Lemma SoftmaxCrossEntropy_loss_vector xs ys w :
  xs <> [] -> ys <> [] ->
  SoftmaxCrossEntropy_loss (vector xs) (vector ys) w
  = Ok (VNum (- sum_R (map (fun pa => ln (fst pa + 1e-30) * snd pa)
                           (combine (softmax_value xs) ys))), w).
Proof.
  intros Hx Hy. unfold SoftmaxCrossEntropy_loss.
  rewrite (bind_Ok _ _ _ _ _ (softmax_vector xs w Hx)).
  rewrite (bind_Ok _ _ w
             (vector (map (fun pa => ln (fst pa + 1e-30) * snd pa)
                          (combine (softmax_value xs) ys))) w).
  2:{ apply (tensor_combine_vector sce_loss_fn
               (fun p a => ln (p + 1e-30) * a)).
      - intros p a Hp. apply (softmax_value_pos xs p Hx) in Hp.
        unfold sce_loss_fn, bind, py_add, ret, math_log.
        destruct (Rle_dec (p + 1e-30) 0) as [Hle|_]; [lra | reflexivity].
      - destruct xs; [congruence | discriminate]. }
  rewrite (bind_Ok _ _ w
             (VNum (sum_R (map (fun pa => ln (fst pa + 1e-30) * snd pa)
                               (combine (softmax_value xs) ys)))) w).
  - reflexivity.
  - apply tensor_sum_vector.
    destruct xs, ys; try congruence. discriminate.
Qed.

Lemma sum_combine_indicator (F : R -> R) (k : nat) :
  forall ps a n, length ps = n ->
  sum_R (map (fun pa => F (fst pa) * snd pa)
             (combine ps (map (fun j => if Z.eqb (Z.of_nat j) (Z.of_nat k)
                                        then 1 else 0) (seq a n))))
  = if (Nat.leb a k && Nat.ltb k (a + n))%bool
    then F (nth (k - a) ps 0) else 0.
Proof.
  induction ps as [|p ps IH]; intros a n Hlen.
  - simpl in Hlen. subst n. simpl.
    destruct (Nat.leb_spec a k), (Nat.ltb_spec k (a + 0)); simpl;
      try reflexivity. lia.
  - destruct n as [|n]; [discriminate|]. simpl in Hlen.
    simpl seq. simpl map. simpl combine. simpl map.
    rewrite sum_R_cons, (IH (S a) n) by lia. simpl fst. simpl snd.
    destruct (Z.eqb_spec (Z.of_nat a) (Z.of_nat k)) as [E|E].
    + assert (a = k) by lia. subst a.
      destruct (Nat.leb_spec (S k) k); [lia|].
      rewrite Nat.leb_refl. destruct (Nat.ltb_spec k (k + S n)); [|lia].
      simpl. rewrite Nat.sub_diag. simpl. lra.
    + destruct (Nat.leb_spec (S a) k), (Nat.ltb_spec k (S a + n)),
               (Nat.leb_spec a k), (Nat.ltb_spec k (a + S n));
        simpl; try lra; try lia.
      replace (k - a)%nat with (S (k - S a)) by lia. simpl. lra.
Qed.

(** X20: with a one-hot label for the class [k], the loss of
    [SoftmaxCrossEntropy] on a rank-1 prediction is
    [- log(p_k + 1e-30)], [p_k] being the probability [softmax] gives to
    the class [k]. *)
Theorem SoftmaxCrossEntropy_one_hot (xs : list R) (k : nat) (w : world) :
  (k < length xs)%nat ->
  SoftmaxCrossEntropy_loss
    (vector xs) (one_hot_encode (Z.of_nat k) (Z.of_nat (length xs))) w
  = Ok (VNum (- ln (nth k (softmax_value xs) 0 + 1e-30)), w).
Proof.
  intros Hk.
  assert (xs <> []) as Hne by (destruct xs; [simpl in Hk; lia | discriminate]).
  assert (one_hot_encode (Z.of_nat k) (Z.of_nat (length xs))
          = vector (map (fun j => if Z.eqb (Z.of_nat j) (Z.of_nat k)
                                  then 1 else 0) (seq 0 (length xs)))) as ->.
  { unfold one_hot_encode, vector. rewrite range_of_nat, map_map.
    f_equal. apply map_ext. intros j.
    now destruct (Z.eqb (Z.of_nat j) (Z.of_nat k)). }
  rewrite SoftmaxCrossEntropy_loss_vector; [|assumption|].
  2:{ destruct xs; [congruence | discriminate]. }
  rewrite (sum_combine_indicator (fun p => ln (p + 1e-30)) k
             (softmax_value xs) 0 (length xs)).
  - destruct (Nat.leb_spec 0 k), (Nat.ltb_spec k (0 + length xs));
      simpl; try lia. now rewrite Nat.sub_0_r.
  - unfold softmax_value. now rewrite !length_map.
Qed.

Lemma SoftmaxCrossEntropy_one_hot_witness :
  SoftmaxCrossEntropy_loss
    (vector [1; 2; 3])
    (one_hot_encode (Z.of_nat 1) (Z.of_nat (length [1; 2; 3]))) quiet_world
  = Ok (VNum (- ln (nth 1 (softmax_value [1; 2; 3]) 0 + 1e-30)), quiet_world).
Proof.
  apply (SoftmaxCrossEntropy_one_hot [1; 2; 3] 1 quiet_world). simpl. lia.
Defined.

(** * What [forward] and [backward] leave alone *)

Section Keeps.

Variable Inv : world -> world -> Prop.
Hypothesis Inv_refl : forall w, Inv w w.
Hypothesis Inv_trans : forall w1 w2 w3, Inv w1 w2 -> Inv w2 w3 -> Inv w1 w3.

Lemma keeps_ret {A} (a : A) : keeps Inv (ret a).
Proof. intros w b w' H. inversion H; subst. apply Inv_refl. Qed.

Lemma keeps_raise {A} e : keeps Inv (@raise A e).
Proof. intros w b w' H. discriminate. Qed.

Lemma keeps_bind {A B} (m : M A) (k : A -> M B) :
  keeps Inv m -> (forall a, keeps Inv (k a)) -> keeps Inv (bind m k).
Proof.
  intros Hm Hk w b w' H. apply bind_inv in H as (a & w1 & H1 & H2).
  eapply Inv_trans; [eapply Hm | eapply Hk]; eauto.
Qed.

Lemma keeps_if {A} (c : bool) (m1 m2 : M A) :
  keeps Inv m1 -> keeps Inv m2 -> keeps Inv (if c then m1 else m2).
Proof. now destruct c. Qed.

Lemma keeps_mapM {A B} (f : A -> M B) l :
  (forall x, In x l -> keeps Inv (f x)) -> keeps Inv (mapM f l).
Proof.
  induction l as [|x l IH]; intros H; [apply keeps_ret|].
  simpl. apply keeps_bind; [apply H; now left|]. intros y.
  apply keeps_bind; [|intros; apply keeps_ret].
  apply IH. intros; apply H; now right.
Qed.

Lemma keeps_zipM {A B C} (g : A -> B -> M C) l1 l2 :
  (forall x y, In x l1 -> keeps Inv (g x y)) -> keeps Inv (zipM g l1 l2).
Proof.
  revert l2. induction l1 as [|x l1 IH]; intros [|y l2] H;
    try apply keeps_ret.
  simpl. apply keeps_bind; [apply H; now left|]. intros z.
  apply keeps_bind; [|intros; apply keeps_ret].
  apply IH. intros; apply H; now right.
Qed.

Lemma keeps_py_add a b : keeps Inv (py_add a b).
Proof. destruct a, b; first [apply keeps_ret | apply keeps_raise]. Qed.

Lemma keeps_py_sub a b : keeps Inv (py_sub a b).
Proof. destruct a, b; first [apply keeps_ret | apply keeps_raise]. Qed.

Lemma keeps_py_mul a b : keeps Inv (py_mul a b).
Proof. destruct a, b; first [apply keeps_ret | apply keeps_raise]. Qed.

Lemma keeps_py_div a b : keeps Inv (py_div a b).
Proof.
  destruct a, b; try apply keeps_raise. unfold py_div.
  destruct (Req_dec_T x0 0); [apply keeps_raise | apply keeps_ret].
Qed.

Lemma keeps_py_pow a n : keeps Inv (py_pow a n).
Proof. destruct a; first [apply keeps_ret | apply keeps_raise]. Qed.

Lemma keeps_py_lt a b : keeps Inv (py_lt a b).
Proof. destruct a, b; first [apply keeps_ret | apply keeps_raise]. Qed.

Lemma keeps_py_index v i : keeps Inv (py_index v i).
Proof.
  destruct v; try apply keeps_raise. unfold py_index.
  destruct (l !! i); [apply keeps_ret | apply keeps_raise].
Qed.

Lemma keeps_py_iter v : keeps Inv (py_iter v).
Proof. destruct v; first [apply keeps_ret | apply keeps_raise]. Qed.

Lemma keeps_attr o : keeps Inv (attr o).
Proof. destruct o; [apply keeps_ret | apply keeps_raise]. Qed.

Lemma keeps_load a : keeps Inv (load a).
Proof.
  intros w v w' H. unfold load in H.
  destruct (heap w !! a); inversion H; subst. apply Inv_refl.
Qed.

Lemma keeps_py_sum_from l : forall acc, keeps Inv (py_sum_from acc l).
Proof.
  induction l as [|x l IH]; intros acc; [apply keeps_ret|].
  simpl. apply keeps_bind; [apply keeps_py_add | intros; apply IH].
Qed.

Lemma keeps_math_exp v : keeps Inv (math_exp v).
Proof.
  destruct v; try apply keeps_raise. unfold math_exp.
  destruct (Rlt_dec exp_max x); [apply keeps_raise | apply keeps_ret].
Qed.

Lemma keeps_tanh v : keeps Inv (tanh v).
Proof.
  unfold tanh, py_gt.
  apply keeps_bind; [apply keeps_py_lt|]. intros c.
  apply keeps_if; [apply keeps_ret|].
  apply keeps_bind; [apply keeps_py_lt|]. intros c'.
  apply keeps_if; [apply keeps_ret|].
  apply keeps_bind; [apply keeps_py_mul|]. intros a.
  apply keeps_bind; [apply keeps_math_exp|]. intros e.
  apply keeps_bind; [apply keeps_py_sub|]. intros x.
  apply keeps_bind; [apply keeps_py_add | intros; apply keeps_py_div].
Qed.

Lemma keeps_is_1d t : keeps Inv (is_1d t).
Proof.
  apply keeps_bind; [apply keeps_py_index | intros; apply keeps_ret].
Qed.

Lemma keeps_tensor_apply f t :
  (forall x, keeps Inv (f x)) -> keeps Inv (tensor_apply f t).
Proof.
  intros Hf. induction t as [x|l IH|] using value_nested_ind;
    try apply keeps_raise.
  destruct l as [|t0 l]; [apply keeps_raise|].
  destruct t0 as [x|l0|].
  - change (keeps Inv (r <- mapM f (VNum x :: l) ;; ret (VList r))).
    apply keeps_bind; [|intros; apply keeps_ret].
    apply keeps_mapM. intros; apply Hf.
  - change (keeps Inv (r <- mapM (tensor_apply f) (VList l0 :: l) ;;
                       ret (VList r))).
    apply keeps_bind; [|intros; apply keeps_ret].
    apply keeps_mapM. intros y Hy.
    rewrite List.Forall_forall in IH. now apply IH.
  - change (keeps Inv (r <- mapM f (VNone :: l) ;; ret (VList r))).
    apply keeps_bind; [|intros; apply keeps_ret].
    apply keeps_mapM. intros; apply Hf.
Qed.

Lemma keeps_tensor_combine f t1 :
  (forall x y, keeps Inv (f x y)) ->
  forall t2, keeps Inv (tensor_combine f t1 t2).
Proof.
  intros Hf. induction t1 as [x|l IH|] using value_nested_ind;
    intros t2; try apply keeps_raise.
  destruct l as [|t0 l]; [apply keeps_raise|].
  destruct t0 as [x|l0|].
  - change (keeps Inv (l2 <- py_iter t2 ;;
                       r <- zipM f (VNum x :: l) l2 ;; ret (VList r))).
    apply keeps_bind; [apply keeps_py_iter|]. intros l2.
    apply keeps_bind; [|intros; apply keeps_ret].
    apply keeps_zipM. intros; apply Hf.
  - change (keeps Inv (l2 <- py_iter t2 ;;
                       r <- zipM (tensor_combine f) (VList l0 :: l) l2 ;;
                       ret (VList r))).
    apply keeps_bind; [apply keeps_py_iter|]. intros l2.
    apply keeps_bind; [|intros; apply keeps_ret].
    apply keeps_zipM. intros y z Hy.
    rewrite List.Forall_forall in IH. now apply IH.
  - change (keeps Inv (l2 <- py_iter t2 ;;
                       r <- zipM f (VNone :: l) l2 ;; ret (VList r))).
    apply keeps_bind; [apply keeps_py_iter|]. intros l2.
    apply keeps_bind; [|intros; apply keeps_ret].
    apply keeps_zipM. intros; apply Hf.
Qed.

Lemma keeps_thread {L} (step : L -> value -> M (value * L)) ls :
  (forall l, In l ls -> forall x, keeps Inv (step l x)) ->
  forall x, keeps Inv (thread step ls x).
Proof.
  induction ls as [|l ls IH]; intros H x; [apply keeps_ret|].
  simpl. apply keeps_bind; [apply H; now left|]. intros r.
  apply keeps_bind; [|intros; apply keeps_ret].
  apply IH. intros; apply H; now right.
Qed.

Lemma keeps_thread_reversed {L} (step : L -> value -> M (value * L)) ls :
  (forall l, In l ls -> forall x, keeps Inv (step l x)) ->
  forall x, keeps Inv (thread_reversed step ls x).
Proof.
  induction ls as [|l ls IH]; intros H x; [apply keeps_ret|].
  simpl. apply keeps_bind; [apply IH; intros; apply H; now right|].
  intros r. apply keeps_bind; [apply H; now left|].
  intros; apply keeps_ret.
Qed.

End Keeps.

Lemma same_heap_refl w : same_heap w w.
Proof. split; reflexivity. Qed.

Lemma same_heap_trans w1 w2 w3 :
  same_heap w1 w2 -> same_heap w2 w3 -> same_heap w1 w3.
Proof. intros [H1 H2] [H3 H4]. split; congruence. Qed.

Lemma keeps_random_random : keeps same_heap random_random.
Proof. intros w a w' H. inversion H; subst. split; reflexivity. Qed.

Section KeepsLayers.

Variable Inv : world -> world -> Prop.
Hypothesis Inv_refl : forall w, Inv w w.
Hypothesis Inv_trans : forall w1 w2 w3, Inv w1 w2 -> Inv w2 w3 -> Inv w1 w3.

Ltac keeps_step :=
  first [ apply keeps_ret; assumption
        | apply keeps_raise
        | apply keeps_py_add; assumption
        | apply keeps_py_sub; assumption
        | apply keeps_py_mul; assumption
        | apply keeps_py_pow; assumption
        | apply keeps_py_lt; assumption
        | apply keeps_py_index; assumption
        | apply keeps_attr; assumption
        | apply keeps_load; assumption
        | apply keeps_py_sum_from; assumption
        | apply keeps_if
        | (apply keeps_bind; [assumption| |intros]) ].

Ltac keeps_auto := repeat keeps_step.

Lemma backward_keeps l : forall g, keeps Inv (backward l g).
Proof.
  induction l as [c|n m wl b i wg bg|ls IH|c|c|p t m] using layer_nested_ind;
    intros g.
  - simpl. keeps_auto.
    apply keeps_tensor_combine; auto. intros x y.
    unfold sigmoid_backward_fn. keeps_auto.
  - simpl. apply keeps_bind; [assumption| |intros w_grad].
    { apply keeps_mapM; auto. intros o _. apply keeps_bind; auto.
      - apply keeps_mapM; auto. intros i0 _. keeps_auto.
      - intros; apply keeps_ret; auto. }
    apply keeps_bind; [assumption| |intros; apply keeps_ret; auto].
    apply keeps_mapM; auto. intros i0 _. apply keeps_bind; auto.
    + apply keeps_mapM; auto. intros o _. keeps_auto.
    + intros terms. apply keeps_py_sum_from; auto.
  - simpl. apply keeps_bind; [assumption| |intros; apply keeps_ret; auto].
    apply keeps_thread_reversed; auto.
    rewrite List.Forall_forall in IH. exact IH.
  - simpl. keeps_auto.
    apply keeps_tensor_combine; auto. intros x y.
    unfold tanh_backward_fn. keeps_auto.
  - simpl. keeps_auto.
    apply keeps_tensor_combine; auto. intros x y.
    unfold relu_backward_fn, py_gt. keeps_auto.
  - simpl. destruct t; [|apply keeps_raise]. keeps_auto.
    apply keeps_tensor_combine; auto. intros; apply keeps_py_mul; auto.
Qed.

Variable sigmoid : value -> M value.
Variable dot : value -> value -> M value.
Hypothesis sigmoid_keeps : forall v, keeps Inv (sigmoid v).
Hypothesis dot_keeps : forall u v, keeps Inv (dot u v).
Hypothesis random_keeps : keeps Inv random_random.

Lemma forward_keeps l : forall x, keeps Inv (forward sigmoid dot l x).
Proof.
  induction l as [c|n m wl b i wg bg|ls IH|c|c|p t m] using layer_nested_ind;
    intros x.
  - simpl. apply keeps_bind; [assumption| |intros; apply keeps_ret; auto].
    apply keeps_tensor_apply; auto.
  - simpl. apply keeps_bind; [assumption| |intros; apply keeps_ret; auto].
    apply keeps_mapM; auto. intros o _.
    apply keeps_bind; [assumption|apply keeps_load; auto|intros wv].
    apply keeps_bind; [assumption|apply keeps_py_index; auto|intros row].
    apply keeps_bind; [assumption|apply dot_keeps|intros d]. keeps_auto.
  - simpl. apply keeps_bind; [assumption| |intros; apply keeps_ret; auto].
    apply keeps_thread; auto.
    rewrite List.Forall_forall in IH. exact IH.
  - simpl. apply keeps_bind; [assumption| |intros; apply keeps_ret; auto].
    apply keeps_tensor_apply; auto. intros; apply keeps_tanh; auto.
  - simpl. apply keeps_bind; [assumption| |intros; apply keeps_ret; auto].
    apply keeps_tensor_apply; auto. intros v.
    unfold relu_forward_fn, py_gt. keeps_auto.
  - simpl. destruct t.
    + apply keeps_bind; [assumption| |intros mask'].
      { apply keeps_tensor_apply; auto. intros v. unfold dropout_mask_fn.
        apply keeps_bind; [assumption|apply random_keeps|intros u].
        keeps_auto. }
      apply keeps_bind; [assumption| |intros; apply keeps_ret; auto].
      apply keeps_tensor_combine; auto. intros; apply keeps_py_mul; auto.
    + apply keeps_bind; [assumption| |intros; apply keeps_ret; auto].
      apply keeps_tensor_apply; auto. intros v.
      unfold dropout_eval_fn. keeps_auto.
Qed.

End KeepsLayers.

Lemma thread_params {L} (prm : L -> list nat)
      (step : L -> value -> M (value * L)) ls :
  Forall (fun l => forall x w y l' w',
            step l x w = Ok ((y, l'), w') -> prm l' = prm l) ls ->
  forall x w y ls' w',
    thread step ls x w = Ok ((y, ls'), w') ->
    flat_map prm ls' = flat_map prm ls.
Proof.
  induction 1 as [|l ls Hl _ IH]; intros x w y ls' w' H.
  - inversion H. reflexivity.
  - simpl in H. apply bind_inv in H as ([y1 l1] & w1 & H1 & H).
    apply bind_inv in H as ([y2 ls2] & w2 & H2 & H).
    inversion H; subst. simpl in *.
    now rewrite (Hl _ _ _ _ _ H1), (IH _ _ _ _ _ H2).
Qed.

Lemma thread_reversed_params {L} (prm : L -> list nat)
      (step : L -> value -> M (value * L)) ls :
  Forall (fun l => forall x w y l' w',
            step l x w = Ok ((y, l'), w') -> prm l' = prm l) ls ->
  forall x w y ls' w',
    thread_reversed step ls x w = Ok ((y, ls'), w') ->
    flat_map prm ls' = flat_map prm ls.
Proof.
  induction 1 as [|l ls Hl _ IH]; intros x w y ls' w' H.
  - inversion H. reflexivity.
  - simpl in H. apply bind_inv in H as ([y1 ls1] & w1 & H1 & H).
    apply bind_inv in H as ([y2 l2] & w2 & H2 & H).
    inversion H; subst. simpl in *.
    now rewrite (Hl _ _ _ _ _ H2), (IH _ _ _ _ _ H1).
Qed.

Lemma forward_params sigmoid dot l :
  forall x w y l' w',
    forward sigmoid dot l x w = Ok ((y, l'), w') -> params l' = params l.
Proof.
  induction l as [c|n m wl b i wg bg|ls IH|c|c|p t m] using layer_nested_ind;
    intros x w y l' w' H; simpl in H.
  - apply bind_inv in H as (r & w1 & _ & H). now inversion H.
  - apply bind_inv in H as (r & w1 & _ & H). now inversion H.
  - apply bind_inv in H as ([y1 ls1] & w1 & H1 & H). inversion H; subst.
    simpl. eapply thread_params; eauto.
  - apply bind_inv in H as (r & w1 & _ & H). now inversion H.
  - apply bind_inv in H as (r & w1 & _ & H). now inversion H.
  - destruct t.
    + apply bind_inv in H as (r & w1 & _ & H).
      apply bind_inv in H as (r' & w2 & _ & H). now inversion H.
    + apply bind_inv in H as (r & w1 & _ & H). now inversion H.
Qed.

Lemma backward_params l :
  forall g w y l' w',
    backward l g w = Ok ((y, l'), w') -> params l' = params l.
Proof.
  induction l as [c|n m wl b i wg bg|ls IH|c|c|p t m] using layer_nested_ind;
    intros g w y l' w' H; simpl in H.
  - apply bind_inv in H as (r & w1 & _ & H).
    apply bind_inv in H as (r' & w2 & _ & H). now inversion H.
  - apply bind_inv in H as (r & w1 & _ & H).
    apply bind_inv in H as (r' & w2 & _ & H). now inversion H.
  - apply bind_inv in H as ([y1 ls1] & w1 & H1 & H). inversion H; subst.
    simpl. eapply thread_reversed_params; eauto.
  - apply bind_inv in H as (r & w1 & _ & H).
    apply bind_inv in H as (r' & w2 & _ & H). now inversion H.
  - apply bind_inv in H as (r & w1 & _ & H).
    apply bind_inv in H as (r' & w2 & _ & H). now inversion H.
  - destruct t; [|discriminate].
    apply bind_inv in H as (r & w1 & _ & H).
    apply bind_inv in H as (r' & w2 & _ & H). now inversion H.
Qed.

(** X21: [forward] and [backward] never write to a parameter: whatever
    the layer (a [Sequential] of any depth included), when [forward]
    returns, the heap is the one it started from (if the imported
    [sigmoid] and [dot] leave it alone) and the layer yields the same
    parameter objects in the same order; when [backward] returns, the
    whole world, random stream included, is unchanged, and so are the
    parameter objects of the layer. *)
Theorem forward_backward_leave_parameters
    (sigmoid : value -> M value) (dot : value -> value -> M value)
    (l l' : layer) (x y : value) (w w' : world) :
  (forall v, keeps same_heap (sigmoid v)) ->
  (forall u v, keeps same_heap (dot u v)) ->
  (forward sigmoid dot l x w = Ok ((y, l'), w') ->
   heap w' = heap w /\ next_loc w' = next_loc w /\ params l' = params l) /\
  (backward l x w = Ok ((y, l'), w') -> w' = w /\ params l' = params l).
Proof.
  intros Hsig Hdot. split; intros H.
  - destruct (forward_keeps same_heap same_heap_refl same_heap_trans
                sigmoid dot Hsig Hdot keeps_random_random l x w _ _ H)
      as [H1 H2].
    split; [assumption|]. split; [assumption|].
    eapply forward_params; eauto.
  - split; [|eapply backward_params; eauto].
    symmetry.
    exact (backward_keeps eq (fun w => eq_refl)
             (fun w1 w2 w3 => @eq_trans _ w1 w2 w3) l x w _ _ H).
Qed.

Lemma forward_backward_leave_parameters_witness :
  (heap linear_world = heap linear_world /\
   next_loc linear_world = next_loc linear_world /\
   params (Sequential [Linear 2 1 0 1 (Some (vector [3; 4])) None None;
                       Dropout (1/2) false None])
   = params (Sequential [Linear 2 1 0 1 None None None;
                         Dropout (1/2) false None])) /\
  (linear_world = linear_world /\
   params (Sequential [Linear 2 1 0 1 (Some (vector [3; 4]))
                              (Some (matrix (outer_product 2 1 [3; 4] [7])))
                              (Some (vector [7]))])
   = params (Sequential [Linear 2 1 0 1 (Some (vector [3; 4])) None None])).
Proof.
  split.
  - apply (forward_backward_leave_parameters
             (fun v => ret v) (fun _ _ => ret (VNum 9))
             (Sequential [Linear 2 1 0 1 None None None;
                          Dropout (1/2) false None])
             (Sequential [Linear 2 1 0 1 (Some (vector [3; 4])) None None;
                          Dropout (1/2) false None])
             (vector [3; 4]) (vector [(9 + 5) * (1 - 1/2)])
             linear_world linear_world).
    + intros v. apply keeps_ret, same_heap_refl.
    + intros u v. apply keeps_ret, same_heap_refl.
    + reflexivity.
  - apply (forward_backward_leave_parameters
             (fun v => ret v) (fun _ _ => ret (VNum 9))
             (Sequential [Linear 2 1 0 1 (Some (vector [3; 4])) None None])
             (Sequential [Linear 2 1 0 1 (Some (vector [3; 4]))
                                 (Some (matrix (outer_product 2 1 [3; 4] [7])))
                                 (Some (vector [7]))])
             (vector [7]) (vector (transpose_product 2 1 [[1; 2]] [7]))
             linear_world linear_world).
    + intros v. apply keeps_ret, same_heap_refl.
    + intros u v. apply keeps_ret, same_heap_refl.
    + reflexivity.
Defined.

(** * Saving and loading weights *)

Lemma shapes_agree_spec :
  forall dss ps (w : world),
    Forall2 (fun ds p => exists pv, heap w !! p = Some pv /\
                                    has_shape ds pv = true) dss ps ->
    forall dss' ws,
      Forall2 (fun ds wt => ds <> [] /\ has_shape ds wt = true) dss' ws ->
      exists b,
        shapes_agree (combine ps ws) w = Ok (b, w) /\
        (b = true <-> take (length ws) dss = take (length ps) dss').
Proof.
  intros dss ps w H. induction H as [|ds p dss ps (pv & Hp & Hs) _ IH];
    intros dss' ws H'.
  - exists true. split; [reflexivity|]. simpl. now rewrite take_nil.
  - destruct H' as [|ds' wt dss' ws [Hne' Hs'] H'].
    + exists true. split; [reflexivity|]. simpl. split; intros _; reflexivity.
    + destruct (IH dss' ws H') as (b & Hb & Hiff).
      simpl. unfold load at 1, bind at 1. rewrite Hp.
      rewrite (bind_Ok _ _ _ _ _ (shape_shaped ds pv w Hs)).
      rewrite (bind_Ok _ _ _ _ _ (shape_shaped ds' wt w Hs')).
      destruct (decide (ds = ds')) as [->|Hneq].
      * exists b. split; [assumption|]. rewrite Hiff.
        split; [congruence | intros E; now inversion E].
      * exists false. split; [reflexivity|].
        split; [discriminate | intros E; inversion E; contradiction].
Qed.

Lemma assign_all_spec :
  forall ps ws (w : world),
    NoDup ps -> Forall (fun wt => is_list wt = true) ws ->
    exists w',
      assign_all (combine ps ws) w = Ok (tt, w') /\
      next_loc w' = next_loc w /\ rng w' = rng w /\
      (forall i p wt, ps !! i = Some p -> ws !! i = Some wt ->
                      heap w' !! p = Some wt) /\
      (forall a, a ∉ take (length ws) ps -> heap w' !! a = heap w !! a).
Proof.
  induction ps as [|p ps IH]; intros ws w Hnd Hws.
  { exists w. repeat split; auto. intros i p wt Hp. discriminate. }
  destruct Hws as [|wt ws Hwt Hws].
  { exists w. repeat split; auto. intros i q wt _ Hwt. discriminate. }
  apply NoDup_cons in Hnd as [Hfresh Hnd].
  destruct wt as [|lw|]; try discriminate.
  set (w1 := World (<[p := VList lw]> (heap w)) (next_loc w) (rng w)).
  destruct (IH ws w1 Hnd Hws) as (w' & Ha & Hn & Hr & Hset & Hframe).
  exists w'. split; [simpl; unfold bind, store; exact Ha|].
  split; [now rewrite Hn|]. split; [now rewrite Hr|]. split.
  - intros [|i] q wt Hq Hwt'; simpl in *.
    + inversion Hq; inversion Hwt'; subst. rewrite Hframe.
      * simpl. apply lookup_insert_eq.
      * intros Hin. apply Hfresh. exact (subseteq_take _ _ _ Hin).
    + eapply Hset; eauto.
  - intros a Ha'. simpl in Ha'. rewrite not_elem_of_cons in Ha'.
    destruct Ha' as [Hap Ha']. rewrite Hframe by assumption.
    simpl. now rewrite lookup_insert_ne by congruence.
Qed.

Lemma load_weights_agree model ws dss dss' (w : world) :
  Forall2 (fun ds p => exists pv, heap w !! p = Some pv /\
                                  has_shape ds pv = true) dss (params model) ->
  Forall2 (fun ds wt => ds <> [] /\ has_shape ds wt = true) dss' ws ->
  NoDup (params model) ->
  take (length ws) dss = take (length (params model)) dss' ->
  exists w',
    load_weights model (VList ws) w = Ok (Holds tt, w') /\
    next_loc w' = next_loc w /\ rng w' = rng w /\
    (forall i p wt, params model !! i = Some p -> ws !! i = Some wt ->
                    heap w' !! p = Some wt) /\
    (forall a, a ∉ take (length ws) (params model) ->
               heap w' !! a = heap w !! a).
Proof.
  intros Hps Hws Hnd Hshapes.
  destruct (shapes_agree_spec dss (params model) w Hps dss' ws Hws)
    as (b & Hb & Hiff).
  apply Hiff in Hshapes. subst b.
  destruct (assign_all_spec (params model) ws w Hnd) as (w' & Ha & Hrest).
  { clear -Hws. induction Hws as [|ds wt dss' ws [Hne Hs] _ IH];
      constructor; auto.
    destruct ds; [congruence|]. eapply has_shape_is_list; eauto. }
  exists w'. split; [|assumption].
  unfold load_weights, py_iter, bind at 1, ret at 1.
  rewrite (bind_Ok _ _ _ _ _ Hb), (bind_Ok _ _ _ _ _ Ha). reflexivity.
Qed.

(** X22: [load_weights] compares the shapes of the parameters and of the
    weights pair by pair, as far as the shorter of the two sequences
    goes.  If two shapes differ the assertion fails and nothing has been
    written.  If they all agree, each paired parameter object receives
    its weight in place, and nothing else changes: with fewer weights
    than parameters, the parameters beyond stay as they are, without any
    error. *)
Theorem load_weights_spec
    (model : layer) (ws : list value) (dss dss' : list (list nat))
    (w : world) :
  Forall2 (fun ds p => exists pv, heap w !! p = Some pv /\
                                  has_shape ds pv = true) dss (params model) ->
  Forall2 (fun ds wt => ds <> [] /\ has_shape ds wt = true) dss' ws ->
  NoDup (params model) ->
  (take (length ws) dss = take (length (params model)) dss' ->
   exists w',
     load_weights model (VList ws) w = Ok (Holds tt, w') /\
     next_loc w' = next_loc w /\ rng w' = rng w /\
     (forall i p wt, params model !! i = Some p -> ws !! i = Some wt ->
                     heap w' !! p = Some wt) /\
     (forall a, a ∉ take (length ws) (params model) ->
                heap w' !! a = heap w !! a)) /\
  (take (length ws) dss <> take (length (params model)) dss' ->
   load_weights model (VList ws) w = Ok (AssertionError, w)).
Proof.
  intros Hps Hws Hnd. split; [now apply load_weights_agree|].
  intros Hshapes.
  destruct (shapes_agree_spec dss (params model) w Hps dss' ws Hws)
    as (b & Hb & Hiff).
  destruct b; [exfalso; apply Hshapes, Hiff; reflexivity|].
  unfold load_weights, py_iter, bind at 1, ret at 1.
  now rewrite (bind_Ok _ _ _ _ _ Hb).
Qed.

Lemma load_weights_spec_witness :
  (exists w',
     load_weights momentum_layer (VList [matrix [[8; 9]]]) momentum_world
     = Ok (Holds tt, w') /\
     next_loc w' = next_loc momentum_world /\ rng w' = rng momentum_world /\
     (forall i p wt, params momentum_layer !! i = Some p ->
                     [matrix [[8; 9]]] !! i = Some wt ->
                     heap w' !! p = Some wt) /\
     (forall a, a ∉ take (length [matrix [[8; 9]]]) (params momentum_layer) ->
                heap w' !! a = heap momentum_world !! a)) /\
  load_weights momentum_layer (VList [matrix [[8; 9]]; vector [6; 7]])
               momentum_world
  = Ok (AssertionError, momentum_world).
Proof.
  assert (Hps : Forall2 (fun ds p => exists pv,
                           heap momentum_world !! p = Some pv /\
                           has_shape ds pv = true)
                        [[1; 2]; [1]]%nat (params momentum_layer)).
  { constructor; [eexists; split; reflexivity|].
    constructor; [eexists; split; reflexivity | constructor]. }
  assert (Hnd : NoDup (params momentum_layer)).
  { apply (bool_decide_unpack _). reflexivity. }
  split.
  - apply (load_weights_spec momentum_layer [matrix [[8; 9]]]
             [[1; 2]; [1]]%nat [[1; 2]]%nat momentum_world Hps).
    + repeat constructor. discriminate.
    + exact Hnd.
    + reflexivity.
  - apply (load_weights_spec momentum_layer
             [matrix [[8; 9]]; vector [6; 7]]
             [[1; 2]; [1]]%nat [[1; 2]; [2]]%nat momentum_world Hps).
    + repeat constructor; discriminate.
    + exact Hnd.
    + discriminate.
Defined.

Lemma mapM_load ps pvs (w : world) :
  Forall2 (fun p pv => heap w !! p = Some pv) ps pvs ->
  mapM load ps w = Ok (pvs, w).
Proof.
  induction 1 as [|p pv ps pvs Hp _ IH]; [reflexivity|].
  simpl. unfold bind at 1, load at 1. rewrite Hp.
  unfold bind. now rewrite IH.
Qed.

(** X23: what [save_weights] writes for one model, [load_weights] puts
    into the parameter objects of a model with parameters of the same
    shapes, position by position; loaded back into the model it was saved
    from, it leaves every object as it was. *)
Theorem save_load_round_trip
    (model model' : layer) (pvs : list value) (dss : list (list nat))
    (w : world) :
  Forall2 (fun p pv => heap w !! p = Some pv) (params model) pvs ->
  Forall2 (fun ds pv => ds <> [] /\ has_shape ds pv = true) dss pvs ->
  Forall2 (fun ds p => exists pv, heap w !! p = Some pv /\
                                  has_shape ds pv = true) dss (params model') ->
  NoDup (params model') ->
  save_weights model w = Ok (VList pvs, w) /\
  (exists w',
     load_weights model' (VList pvs) w = Ok (Holds tt, w') /\
     (forall i p p', params model !! i = Some p ->
                     params model' !! i = Some p' ->
                     heap w' !! p' = heap w !! p) /\
     (forall a, a ∉ params model' -> heap w' !! a = heap w !! a)) /\
  (model' = model ->
   exists w',
     load_weights model (VList pvs) w = Ok (Holds tt, w') /\
     forall a, heap w' !! a = heap w !! a).
Proof.
  intros Hsave Hshapes Hps' Hnd.
  pose proof (Forall2_length _ _ _ Hsave) as Hl1.
  pose proof (Forall2_length _ _ _ Hshapes) as Hl2.
  pose proof (Forall2_length _ _ _ Hps') as Hl3.
  assert (Hload : exists w',
    load_weights model' (VList pvs) w = Ok (Holds tt, w') /\
    (forall i p p', params model !! i = Some p ->
                    params model' !! i = Some p' ->
                    heap w' !! p' = heap w !! p) /\
    (forall a, a ∉ params model' -> heap w' !! a = heap w !! a)).
  { destruct (load_weights_agree model' pvs dss dss w Hps' Hshapes Hnd)
      as (w' & Hw' & _ & _ & Hset & Hframe); [congruence|].
    exists w'. split; [assumption|]. split.
    - intros i p p' Hp Hp'.
      destruct (lookup_lt_is_Some_2 pvs i) as [pv Hpv].
      { rewrite <- Hl1. eapply lookup_lt_Some; eauto. }
      rewrite (Hset i p' pv Hp' Hpv).
      symmetry. exact (Forall2_lookup_lr _ _ _ _ _ _ Hsave Hp Hpv).
    - intros a Ha. apply Hframe.
      rewrite take_ge by lia. assumption. }
  split; [|split; [exact Hload|]].
  - unfold save_weights. now rewrite (bind_Ok _ _ _ _ _ (mapM_load _ _ _ Hsave)).
  - intros ->. destruct Hload as (w' & Hw' & Hset & Hframe).
    exists w'. split; [assumption|]. intros a.
    destruct (decide (a ∈ params model)) as [Hin|Hout]; [|now apply Hframe].
    apply list_elem_of_lookup in Hin as (i & Hi). now apply (Hset i).
Qed.

Lemma save_load_round_trip_witness :
  save_weights momentum_layer momentum_world
  = Ok (VList [matrix [[1; 2]]; vector [5]], momentum_world) /\
  (exists w',
     load_weights momentum_layer (VList [matrix [[1; 2]]; vector [5]])
                  momentum_world = Ok (Holds tt, w') /\
     (forall i p p', params momentum_layer !! i = Some p ->
                     params momentum_layer !! i = Some p' ->
                     heap w' !! p' = heap momentum_world !! p) /\
     (forall a, a ∉ params momentum_layer ->
                heap w' !! a = heap momentum_world !! a)) /\
  (exists w',
     load_weights momentum_layer (VList [matrix [[1; 2]]; vector [5]])
                  momentum_world = Ok (Holds tt, w') /\
     forall a, heap w' !! a = heap momentum_world !! a).
Proof.
  destruct (save_load_round_trip momentum_layer momentum_layer
              [matrix [[1; 2]]; vector [5]] [[1; 2]; [1]]%nat momentum_world)
    as (H1 & H2 & H3).
  - repeat constructor.
  - repeat constructor; discriminate.
  - constructor; [eexists; split; reflexivity|].
    constructor; [eexists; split; reflexivity | constructor].
  - apply (bool_decide_unpack _). reflexivity.
  - split; [exact H1|]. split; [exact H2|]. apply H3. reflexivity.
Defined.

(** * [Dropout] with a probability outside (0, 1) *)

Section ElementwiseUnder.

(** [tensor_apply] of a function that behaves as [Q] says in the worlds
    that satisfy [P], and keeps [P]. *)
Variable P : world -> Prop.
Variable Q : R -> R -> Prop.
Variable f : value -> M value.
Hypothesis f_num :
  forall x w, P w ->
  exists y w', f (VNum x) w = Ok (VNum y, w') /\ Q x y /\ P w'.

Lemma mapM_under {A B} (F : A -> M B) (S : A -> B -> Prop) l :
  (forall x w, In x l -> P w ->
     exists y w', F x w = Ok (y, w') /\ S x y /\ P w') ->
  forall w, P w ->
  exists ys w', mapM F l w = Ok (ys, w') /\ Forall2 S l ys /\ P w'.
Proof.
  induction l as [|x l IH]; intros H w Hw.
  - exists [], w. repeat split; [constructor | assumption].
  - destruct (H x w (or_introl eq_refl) Hw) as (y & w1 & Hx & HS & Hw1).
    destruct (IH (fun x w Hin => H x w (or_intror Hin)) w1 Hw1)
      as (ys & w2 & Hl & HF & Hw2).
    exists (y :: ys), w2. simpl. unfold bind. rewrite Hx, Hl.
    repeat split; [now constructor | assumption].
Qed.

Lemma tensor_apply_under ds :
  forall t w, ds <> [] -> has_shape ds t = true -> P w ->
  exists t' w', tensor_apply f t w = Ok (t', w') /\ image Q ds t t' /\ P w'.
Proof.
  induction ds as [|n ds IH]; intros t w Hne Hs Hw; [congruence|].
  destruct t as [|l|]; try discriminate.
  pose proof (is_1d_shaped _ _ _ w Hs) as H1d.
  apply has_shape_cons in Hs as (Hlen & Hn & Hall).
  rewrite tensor_apply_eq. rewrite (bind_Ok _ _ _ _ _ H1d).
  unfold bind at 1; simpl.
  destruct (mapM_under (if match ds with [] => true | _ => false end
                        then f else tensor_apply f) (image Q ds) l)
    with (w := w) as (ys & w' & Hm & HF & Hw'); [|assumption|].
  { intros x w0 Hin Hw0. rewrite List.Forall_forall in Hall.
    specialize (Hall x Hin). destruct ds as [|n' ds'].
    - apply has_shape_num in Hall as [r ->].
      destruct (f_num r w0 Hw0) as (y & w1 & Hf & HQ & Hw1).
      exists (VNum y), w1. repeat split; auto.
      intros [|i idx]; simpl; auto.
    - apply IH; [discriminate | assumption | assumption]. }
  exists (VList ys), w'. unfold bind. rewrite Hm. unfold ret.
  split; [reflexivity|]. split; [now apply image_list | assumption].
Qed.

End ElementwiseUnder.

Lemma dropout_mask_fn_under (p keep : R) :
  (p <= 0 /\ keep = 1) \/ (1 <= p /\ keep = 0) ->
  forall x w, (forall n, 0 <= rng w n < 1) ->
  exists y w',
    dropout_mask_fn p (VNum x) w = Ok (VNum y, w') /\ y = keep /\
    (forall n, 0 <= rng w' n < 1).
Proof.
  intros Hp x w Hw. pose proof (Hw 0%nat) as H0.
  unfold dropout_mask_fn, random_random, py_lt, bind, ret.
  destruct (Rlt_dec (rng w 0%nat) p) as [Hlt|Hge];
    eexists _, _; (split; [reflexivity|]); simpl;
    (split; [|intros n; apply Hw]);
    destruct Hp as [[Hp ->] | [Hp ->]]; try reflexivity; lra.
Qed.

(** X24: in training mode, when the draws of [random.random()] lie in
    [0, 1): with [p <= 0] no unit is ever dropped, the mask is all ones
    and [Dropout.forward] returns its input unchanged; with [p >= 1]
    every unit is dropped, the mask and the output are all zeros. *)
Theorem Dropout_forward_extremes
    (sigmoid : value -> M value) (dot : value -> value -> M value)
    (p : R) (c : option value) (ds : list nat) (t : value) (w : world) :
  ds <> [] -> has_shape ds t = true ->
  (forall n, 0 <= rng w n < 1) ->
  (p <= 0 ->
   exists m w',
     forward sigmoid dot (Dropout p true c) t w
     = Ok ((t, Dropout p true (Some m)), w') /\
     has_shape ds m = true /\
     forall idx x, leaf t idx = Some x -> leaf m idx = Some 1) /\
  (1 <= p ->
   exists m out w',
     forward sigmoid dot (Dropout p true c) t w
     = Ok ((out, Dropout p true (Some m)), w') /\
     has_shape ds m = true /\ has_shape ds out = true /\
     forall idx x, leaf t idx = Some x ->
                   leaf m idx = Some 0 /\ leaf out idx = Some 0).
Proof.
  intros Hne Ht Hw.
  assert (Hgen : forall keep,
    (p <= 0 /\ keep = 1) \/ (1 <= p /\ keep = 0) ->
    exists m out w',
      forward sigmoid dot (Dropout p true c) t w
      = Ok ((out, Dropout p true (Some m)), w') /\
      has_shape ds m = true /\ has_shape ds out = true /\
      (forall idx, leaf m idx = option_map (fun _ => keep) (leaf t idx)) /\
      (forall idx, leaf out idx
         = leaf_map2 Rmult (leaf t idx) (leaf m idx))).
  { intros keep Hp.
    destruct (tensor_apply_under (fun w => forall n, 0 <= rng w n < 1)
                (fun _ y => y = keep) (dropout_mask_fn p)
                (dropout_mask_fn_under p keep Hp) ds t w Hne Ht Hw)
      as (m & w' & Hm & Him & _).
    destruct (tensor_combine_shaped Rmult py_mul py_mul_num ds t m w'
                Hne Ht (proj1 Him)) as (out & Hout & Hso & Hlo).
    exists m, out, w'. unfold forward.
    rewrite (bind_Ok _ _ _ _ _ Hm), (bind_Ok _ _ _ _ _ Hout).
    split; [reflexivity|]. split; [apply Him|]. split; [assumption|].
    split; [exact (image_option_map (fun _ => keep) ds t m Him) | assumption]. }
  split; intros Hp.
  - destruct (Hgen 1) as (m & out & w' & Hf & Hsm & Hso & Hlm & Hlo);
      [left; split; [assumption | reflexivity]|].
    assert (out = t) as ->.
    { apply (tensor_ext ds); auto. intros idx. rewrite Hlo, Hlm.
      destruct (leaf t idx); simpl; [f_equal; lra | reflexivity]. }
    exists m, w'. split; [assumption|]. split; [assumption|].
    intros idx x Hx. now rewrite Hlm, Hx.
  - destruct (Hgen 0) as (m & out & w' & Hf & Hsm & Hso & Hlm & Hlo);
      [right; split; [assumption | reflexivity]|].
    exists m, out, w'. split; [assumption|]. split; [assumption|].
    split; [assumption|]. intros idx x Hx.
    rewrite Hlo, Hlm, Hx. simpl. split; [reflexivity | f_equal; lra].
Qed.

Lemma Dropout_forward_extremes_witness :
  (exists m w',
     forward (fun v => ret v) (fun v _ => ret v) (Dropout 0 true None)
             (vector [3; 4]) quiet_world
     = Ok ((vector [3; 4], Dropout 0 true (Some m)), w') /\
     has_shape [2%nat] m = true /\
     forall idx x, leaf (vector [3; 4]) idx = Some x ->
                   leaf m idx = Some 1) /\
  (exists m out w',
     forward (fun v => ret v) (fun v _ => ret v) (Dropout 1 true None)
             (vector [3; 4]) quiet_world
     = Ok ((out, Dropout 1 true (Some m)), w') /\
     has_shape [2%nat] m = true /\ has_shape [2%nat] out = true /\
     forall idx x, leaf (vector [3; 4]) idx = Some x ->
                   leaf m idx = Some 0 /\ leaf out idx = Some 0).
Proof.
  assert (Hw : forall n : nat, 0 <= rng quiet_world n < 1)
    by (intros n; simpl; lra).
  split.
  - apply (Dropout_forward_extremes (fun v => ret v) (fun v _ => ret v)
             0 None [2%nat] (vector [3; 4]) quiet_world);
      [discriminate | reflexivity | exact Hw | lra].
  - apply (Dropout_forward_extremes (fun v => ret v) (fun v _ => ret v)
             1 None [2%nat] (vector [3; 4]) quiet_world);
      [discriminate | reflexivity | exact Hw | lra].
Defined.

(** * Nested [Sequential] layers, and the range of [tanh] *)

Lemma thread_app {L} (step : L -> value -> M (value * L)) ls1 ls2 :
  forall x w,
    thread step (ls1 ++ ls2) x w =
    (r <- thread step ls1 x ;;
     r' <- thread step ls2 (fst r) ;;
     ret (fst r', snd r ++ snd r')) w.
Proof.
  induction ls1 as [|l ls1 IH]; intros x w; simpl.
  - unfold bind, ret. simpl.
    destruct (thread step ls2 x w) as [[[y ls'] w']|e]; reflexivity.
  - unfold bind, ret. simpl.
    destruct (step l x w) as [[[y l'] w1]|e]; [|reflexivity]. simpl.
    rewrite IH. unfold bind, ret. simpl.
    destruct (thread step ls1 y w1) as [[[z ls1'] w2]|e]; [|reflexivity].
    simpl.
    destruct (thread step ls2 z w2) as [[[u ls2'] w3]|e]; reflexivity.
Qed.

Lemma thread_reversed_app {L} (step : L -> value -> M (value * L)) ls1 ls2 :
  forall x w,
    thread_reversed step (ls1 ++ ls2) x w =
    (r2 <- thread_reversed step ls2 x ;;
     r1 <- thread_reversed step ls1 (fst r2) ;;
     ret (fst r1, snd r1 ++ snd r2)) w.
Proof.
  induction ls1 as [|l ls1 IH]; intros x w; simpl.
  - unfold bind, ret. simpl.
    destruct (thread_reversed step ls2 x w) as [[[y ls'] w']|e]; reflexivity.
  - unfold bind, ret. simpl. rewrite IH. unfold bind, ret. simpl.
    destruct (thread_reversed step ls2 x w) as [[[y ls2'] w1]|e];
      [|reflexivity]. simpl.
    destruct (thread_reversed step ls1 y w1) as [[[z ls1'] w2]|e];
      [|reflexivity]. simpl.
    destruct (step l z w2) as [[[u l'] w3]|e]; reflexivity.
Qed.

Lemma mapM_app {A B} (f : A -> M B) l1 l2 w :
  mapM f (l1 ++ l2) w =
  (r1 <- mapM f l1 ;; r2 <- mapM f l2 ;; ret (r1 ++ r2)) w.
Proof.
  revert w. induction l1 as [|x l1 IH]; intros w; simpl.
  - unfold bind, ret. destruct (mapM f l2 w) as [[r w']|e]; reflexivity.
  - unfold bind, ret. destruct (f x w) as [[y w1]|e]; [|reflexivity].
    rewrite IH. unfold bind, ret.
    destruct (mapM f l1 w1) as [[r1 w2]|e]; [|reflexivity].
    destruct (mapM f l2 w2) as [[r2 w3]|e]; reflexivity.
Qed.

(** X25: nesting does not matter: a [Sequential] of two [Sequential]s
    returns from [forward] and from [backward] the same tensor, in the
    same world, or raises the same exception, as the one [Sequential] of
    all the sub-layers in a row; and it yields the same parameters and
    the same gradients in the same order. *)
Theorem Sequential_nesting
    (sigmoid : value -> M value) (dot : value -> value -> M value)
    (ls1 ls2 : list layer) (x : value) (w : world) :
  outcome (forward sigmoid dot (Sequential [Sequential ls1; Sequential ls2])
                   x w)
  = outcome (forward sigmoid dot (Sequential (ls1 ++ ls2)) x w) /\
  outcome (backward (Sequential [Sequential ls1; Sequential ls2]) x w)
  = outcome (backward (Sequential (ls1 ++ ls2)) x w) /\
  params (Sequential [Sequential ls1; Sequential ls2])
  = params (Sequential (ls1 ++ ls2)) /\
  grads (Sequential [Sequential ls1; Sequential ls2]) w
  = grads (Sequential (ls1 ++ ls2)) w.
Proof.
  split; [|split; [|split]].
  - simpl. unfold bind, ret. simpl. rewrite thread_app. unfold bind, ret.
    destruct (thread (forward sigmoid dot) ls1 x w) as [[[y l1'] w1]|e];
      [|reflexivity]. simpl.
    destruct (thread (forward sigmoid dot) ls2 y w1) as [[[z l2'] w2]|e];
      reflexivity.
  - simpl. unfold bind, ret. simpl. rewrite thread_reversed_app.
    unfold bind, ret.
    destruct (thread_reversed backward ls2 x w) as [[[y l2'] w1]|e];
      [|reflexivity]. simpl.
    destruct (thread_reversed backward ls1 y w1) as [[[z l1'] w2]|e];
      reflexivity.
  - simpl. now rewrite flat_map_app, app_nil_r.
  - simpl. unfold bind, ret. rewrite mapM_app. unfold bind, ret.
    destruct (mapM grads ls1 w) as [[r1 w1]|e]; [|reflexivity].
    destruct (mapM grads ls2 w1) as [[r2 w2]|e]; [|reflexivity].
    simpl. now rewrite concat_app, app_nil_r.
Qed.

(** X26: on every number [tanh] returns a number between -1 and 1, so
    that the factor [1 - tanh^2] of [Tanh.backward] lies between 0 and 1;
    and [tanh(0)] is 0. *)
Theorem tanh_range (x : R) (w : world) :
  exists y,
    tanh (VNum x) w = Ok (VNum y, w) /\
    -1 <= y <= 1 /\ 0 <= 1 - y ^ 2 <= 1 /\ (x = 0 -> y = 0).
Proof.
  exists (tanh_value x). split; [apply tanh_num|].
  assert (-1 <= tanh_value x <= 1) as Hy.
  { unfold tanh_value.
    destruct (Rlt_dec x (-100)); [lra|]. destruct (Rlt_dec 100 x); [lra|].
    pose proof (exp_pos (-2 * x)) as He.
    set (e := exp (-2 * x)) in *.
    assert (0 < / (1 + e)) by (apply Rinv_0_lt_compat; lra).
    unfold Rdiv. split.
    - replace (-1) with (- (1 + e) * / (1 + e)) by (field; lra).
      apply Rmult_le_compat_r; lra.
    - replace 1 with ((1 + e) * / (1 + e)) at 3 by (field; lra).
      apply Rmult_le_compat_r; lra. }
  split; [assumption|]. split; [nra|].
  intros ->. unfold tanh_value.
  destruct (Rlt_dec 0 (-100)); [lra|]. destruct (Rlt_dec 100 0); [lra|].
  replace (-2 * 0) with 0 by lra. rewrite exp_0. lra.
Qed.
